(** * ParkLogic: traffic orchestration, path planning and vehicle update

    A shallow embedding of the simulation core of the parklogic
    repository and the properties its specification states about it.

    Sources embedded here:
    - [include/entities/map/Waypoint.hpp]   struct Waypoint
    - [entities/map/Modules.hpp]            Spot, Lane, Module and its subclasses
    - [src/systems/PathPlanner.cpp]         PathPlanner::GeneratePath and its helpers
    - [src/systems/TrafficSystem.cpp]       the SpawnCarRequestEvent, CarSpawnedEvent
                                            and GameUpdateEvent handlers, in the
                                            later of the two
                                            revisions the file holds (the one with
                                            selection priorities)
    - [src/entities/Car.cpp]                Car::updateWithNeighbors, Car::seek
    - [src/entities/map/Modules.cpp]        waypoints, attachment points and the
                                            constructors of the module classes
    - [src/entities/map/WorldGenerator.cpp] the lambdas that create and place a module
    - [src/scenes/GameScene.cpp]            load (vehicles), handleInput, update

    Conventions.
    - A C++ [float] is a rational number [Q] and a float operation is the
      exact one; the two sentinels [std::numeric_limits<float>::max()] and
      [lowest()] are the constants [FLT_MAX] and [FLT_LOWEST].  Where a
      property depends on how a result is rounded, its theorem ranges over
      every value within float32 rounding distance of the exact result
      ([roundsTo]) and bounds the magnitudes involved.
    - A [Module*] held by the orchestrator or by a car is an index into the
      entity manager's module vector; [nullptr] is [None].
    - [GetRandomValue] reads from an explicit tape of raw draws.
    - What the sources use but do not define (config.hpp, raymath and libm,
      Car.hpp, the spot accessors of Module, the exit planner) is either a
      type-class parameter or a definition marked "Modelled from the spec".

    The definitions come first, module by module; the properties follow. *)

From Stdlib Require Import ZArith QArith Qabs Lqa Lia.
From stdpp Require Import base list.

Set Warnings "-register-all".

#[local] Open Scope Q_scope.

(** ** Numbers *)

(** Strict comparison of two floats, as a boolean. *)
Definition Qltb (a b : Q) : bool := negb (Qle_bool b a).

(** [std::numeric_limits<float>::max()] and [lowest()]. *)
Definition FLT_MAX : Q := 340282346638528859811704183484516925440.
Definition FLT_LOWEST : Q := - FLT_MAX.

(** The sign of a float: -1, 0 or 1. *)
Definition Qsign (q : Q) : Z := Z.sgn (Qnum q).

(** What float32 arithmetic may return for an operation whose exact result
    is [exact]: round-to-nearest keeps the relative error within 2^-24 (a
    sum that underflows is exact).  The exact result itself is one such
    value. *)
Definition roundsTo (exact result : Q) : Prop :=
  Qabs (result - exact) <= Qabs exact / 16777216.

(** A coordinate no larger than [bound] in magnitude. *)
Definition within (bound q : Q) : Prop := Qabs q <= bound.

(** ** Geometry (raylib's Vector2) *)

Record Vector2 := mkVector2 { vec_x : Q; vec_y : Q }.

Definition Vector2Add (a b : Vector2) : Vector2 :=
  mkVector2 (vec_x a + vec_x b) (vec_y a + vec_y b).

Definition Vector2Subtract (a b : Vector2) : Vector2 :=
  mkVector2 (vec_x a - vec_x b) (vec_y a - vec_y b).

Definition Vector2Scale (v : Vector2) (k : Q) : Vector2 :=
  mkVector2 (vec_x v * k) (vec_y v * k).

(** The math library the sources link against: [sqrtf], [cosf], [sinf]
    and raymath's [PI].  Every theorem below holds for any implementation. *)
Class Raymath := {
  sqrtf : Q -> Q;
  cosf : Q -> Q;
  sinf : Q -> Q;
  PI : Q
}.

Section RaymathVectors.
Context `{Raymath}.

Definition Vector2Length (v : Vector2) : Q :=
  sqrtf (vec_x v * vec_x v + vec_y v * vec_y v).

Definition Vector2Distance (a b : Vector2) : Q :=
  sqrtf ((vec_x a - vec_x b) * (vec_x a - vec_x b)
         + (vec_y a - vec_y b) * (vec_y a - vec_y b)).

(** raymath: a zero-length vector normalises to the zero vector. *)
Definition Vector2Normalize (v : Vector2) : Vector2 :=
  let length := Vector2Length v in
  if Qltb 0 length then Vector2Scale v (1 / length) else mkVector2 0 0.
End RaymathVectors.

(** ** Waypoint.hpp *)

Record Waypoint := mkWaypoint {
  position : Vector2;          (* global position in meters *)
  tolerance : Q;               (* radius in meters to consider "reached" *)
  wp_id : Z;                   (* field [id] *)
  entryAngle : Q;
  stopAtEnd : bool;
  speedLimitFactor : Q
}.

(** The constructor's default arguments:
    [tol = 1.0f, _id = -1, angle = 0.0f, stop = false, speedFactor = 1.0f]. *)
Definition Waypoint1 (pos : Vector2) : Waypoint :=
  mkWaypoint pos 1 (-1) 0 false 1.
Definition Waypoint2 (pos : Vector2) (tol : Q) : Waypoint :=
  mkWaypoint pos tol (-1) 0 false 1.
Definition Waypoint5 (pos : Vector2) (tol : Q) (_id : Z) (angle : Q) (stop : bool) : Waypoint :=
  mkWaypoint pos tol _id angle stop 1.

(** ** Modules.hpp *)

Inductive Lane := UP | DOWN.

Inductive SpotState := FREE | RESERVED | OCCUPIED.

#[global] Instance SpotState_eq_dec : EqDecision SpotState.
Proof. solve_decision. Defined.

(** [state] and [price] are read by TrafficSystem.cpp ([s.state],
    [s.price]); the struct in the available header predates them, so the two
    fields follow the data model of the specification. *)
Record Spot := mkSpot {
  localPosition : Vector2;
  orientation : Q;
  spot_id : Z;                 (* field [id] *)
  state : SpotState;
  price : Q
}.

(** The closed set of Module subclasses; the facilities carry [isTop]. *)
Inductive ModuleKind :=
| NormalRoad
| UpEntranceRoad
| DownEntranceRoad
| DoubleEntranceRoad
| SmallParking (isTop : bool)
| LargeParking (isTop : bool)
| SmallChargingStation (isTop : bool)
| LargeChargingStation (isTop : bool).

(** [class Module].  [parent] is the non-owning back-reference to the road
    a facility is attached to. *)
Inductive Module_ := mkModule {
  kind : ModuleKind;
  width : Q;
  height : Q;
  worldPosition : Vector2;
  localWaypoints : list Waypoint;
  spots : list Spot;
  parent : option Module_
}.

Definition getWidth (m : Module_) : Q := width m.
Definition getHeight (m : Module_) : Q := height m.
Definition getParent (m : Module_) : option Module_ := parent m.
Definition getLocalWaypoints (m : Module_) : list Waypoint := localWaypoints m.

(** [virtual bool isUp() const { return false; }], overridden by the four
    facility classes with [return isTop;]. *)
Definition isUp (m : Module_) : bool :=
  match kind m with
  | SmallParking isTop | LargeParking isTop
  | SmallChargingStation isTop | LargeChargingStation isTop => isTop
  | _ => false
  end.

(** The [dynamic_cast] tests used by the orchestrator. *)
Definition isNormalRoad (m : Module_) : bool :=
  match kind m with NormalRoad => true | _ => false end.
Definition isParking (m : Module_) : bool :=
  match kind m with SmallParking _ | LargeParking _ => true | _ => false end.
Definition isChargingStation (m : Module_) : bool :=
  match kind m with
  | SmallChargingStation _ | LargeChargingStation _ => true
  | _ => false
  end.

(** ** The vehicle as the orchestrator and the planner see it

    Car.hpp is not among the sources; the record holds what the accessors
    called by TrafficSystem.cpp and PathPlanner.cpp return, named after
    them, following the data model of the specification. *)

Inductive CarType := COMBUSTION | ELECTRIC.
Inductive Priority := PRIORITY_PRICE | PRIORITY_DISTANCE.
Inductive CarState := DRIVING | ALIGNING | PARKED | EXITING.

#[global] Instance CarState_eq_dec : EqDecision CarState.
Proof. solve_decision. Defined.

#[global] Instance CarType_eq_dec : EqDecision CarType.
Proof. solve_decision. Defined.

#[global] Instance Priority_eq_dec : EqDecision Priority.
Proof. solve_decision. Defined.

Record Car := mkCar {
  getPosition : Vector2;
  getVelocity : Vector2;
  getType : CarType;
  getBatteryLevel : Q;
  getPriority : Priority;
  getEnteredFromLeft : bool;
  getState : CarState;
  getPath : list Waypoint;
  getParkedFacility : option nat;     (* const Module*, an index; None = nullptr *)
  getParkedSpot : Spot;
  getParkedSpotIndex : Z;
  isReadyToLeave : bool;              (* what the dwell timer reports *)
  hasArrived : bool
}.

Definition setState (s : CarState) (c : Car) : Car :=
  mkCar (getPosition c) (getVelocity c) (getType c) (getBatteryLevel c)
        (getPriority c) (getEnteredFromLeft c) s (getPath c)
        (getParkedFacility c) (getParkedSpot c) (getParkedSpotIndex c)
        (isReadyToLeave c) (hasArrived c).

Definition setParkingContext (fac : nat) (spot : Spot) (spotIndex : Z) (c : Car) : Car :=
  mkCar (getPosition c) (getVelocity c) (getType c) (getBatteryLevel c)
        (getPriority c) (getEnteredFromLeft c) (getState c) (getPath c)
        (Some fac) spot spotIndex (isReadyToLeave c) (hasArrived c).

(** Modelled from the spec: Car::setPath, whose body is not among the
    sources ("once a path is assigned it ... is overwritten wholesale by a
    new path"); a vehicle that was just given a path has not completed it. *)
Definition setPath (path : list Waypoint) (c : Car) : Car :=
  mkCar (getPosition c) (getVelocity c) (getType c) (getBatteryLevel c)
        (getPriority c) (getEnteredFromLeft c) (getState c) path
        (getParkedFacility c) (getParkedSpot c) (getParkedSpotIndex c)
        (isReadyToLeave c) false.

(** Modelled from the spec: Car::charge, whose body is not among the
    sources ("a parked electric vehicle at a charging spot ... accrues
    battery at a fixed rate"): the amount is added to the battery level. *)
Definition charge (amount : Q) (c : Car) : Car :=
  mkCar (getPosition c) (getVelocity c) (getType c) (getBatteryLevel c + amount)
        (getPriority c) (getEnteredFromLeft c) (getState c) (getPath c)
        (getParkedFacility c) (getParkedSpot c) (getParkedSpotIndex c)
        (isReadyToLeave c) (hasArrived c).

(** The same vehicle with another answer of its dwell timer. *)
Definition withReadyToLeave (b : bool) (c : Car) : Car :=
  mkCar (getPosition c) (getVelocity c) (getType c) (getBatteryLevel c)
        (getPriority c) (getEnteredFromLeft c) (getState c) (getPath c)
        (getParkedFacility c) (getParkedSpot c) (getParkedSpotIndex c)
        b (hasArrived c).

(** ** config.hpp

    The tunable constants; the header is not among the sources. *)
Class Config := {
  ART_PIXELS_PER_METER : Q;
  LANE_OFFSET_UP : Q;
  LANE_OFFSET_DOWN : Q;
  BATTERY_LOW_THRESHOLD : Q;
  BATTERY_HIGH_THRESHOLD : Q;
  BATTERY_EXIT_THRESHOLD : Q;
  BATTERY_FORCE_EXIT_THRESHOLD : Q;
  CHARGING_RATE : Q
}.

(** ** PathPlanner.cpp *)

Module PathPlanner.
Section Planner.
Context `{Config} `{Raymath}.

(** Helper to convert art pixels to meters. *)
Definition P2M (artPixels : Q) : Q := artPixels / ART_PIXELS_PER_METER.

Definition CalculateRoadEntry (road : Module_) (lane : Lane) (useRightSide : bool) : Waypoint :=
  let roadPos := worldPosition road in
  let xCenter := P2M 142 in
  let yOffset := match lane with
                 | DOWN => P2M LANE_OFFSET_DOWN
                 | UP => P2M LANE_OFFSET_UP
                 end in
  let xOffset := if useRightSide then P2M 18 else - P2M 18 in
  Waypoint2 (Vector2Add roadPos (mkVector2 (xCenter + xOffset) yOffset)) 2.5.

Definition CalculateFacilityEntry (facility : Module_) (useRightSide : bool) : Waypoint :=
  let basePos :=
    match getLocalWaypoints facility with
    | [] => mkVector2 (getWidth facility / 2) (getHeight facility / 2)
    | wp0 :: _ => position wp0
    end in
  let offset := if useRightSide then P2M 18 else - P2M 18 in
  let offsetVec := mkVector2 offset 0 in
  Waypoint2 (Vector2Add (worldPosition facility) (Vector2Add basePos offsetVec)) 1.5.

Definition CalculateAlignmentPoint (facility : Module_) (spot : Spot) : Waypoint :=
  let spotGlobal := Vector2Add (worldPosition facility) (localPosition spot) in
  let backAngle := orientation spot + PI in
  let dist := 8 in
  let offset := mkVector2 (cosf backAngle * dist) (sinf backAngle * dist) in
  let alignPos := Vector2Add spotGlobal offset in
  Waypoint2 alignPos 1.

Definition CalculateSpotPoint (facility : Module_) (spot : Spot) : Waypoint :=
  let spotGlobal := Vector2Add (worldPosition facility) (localPosition spot) in
  Waypoint5 spotGlobal 0.2 (spot_id spot) (orientation spot) true.

(** The two local variables of [GeneratePath] that fix lane and side. *)
Definition chooseLane (car : Car) : Lane :=
  if Qltb 0 (vec_x (getVelocity car)) then DOWN else UP.

Definition chooseRightSide (targetFac : Module_) : bool := isUp targetFac.

Definition GeneratePath (car : Car) (targetFac : Module_) (targetSpot : Spot) : list Waypoint :=
  let lane := chooseLane car in
  let useRightSide := chooseRightSide targetFac in
  let path := [] in
  let path :=
    match getParent targetFac with
    | Some parentRoad => path ++ [CalculateRoadEntry parentRoad lane useRightSide]
    | None => path ++ [CalculateFacilityEntry targetFac useRightSide]
    end in
  let path := path ++ [CalculateFacilityEntry targetFac useRightSide] in
  let path := path ++ [CalculateAlignmentPoint targetFac targetSpot] in
  let path := path ++ [CalculateSpotPoint targetFac targetSpot] in
  path.
End Planner.
End PathPlanner.

(** ** The random source (raylib's GetRandomValue)

    [GetRandomValue(min, max)] yields [min + raw % (max - min + 1)] for the
    next raw draw of the generator; the draws are an explicit tape. *)
Definition Rng := list Z.

Definition GetRandomValue (min max : Z) (rng : Rng) : Z * Rng :=
  match rng with
  | [] => (min, [])
  | raw :: rest => ((min + raw mod (max - min + 1))%Z, rest)
  end.

(** ** Spot accessors of Module

    Declared in Modules.hpp or called by TrafficSystem.cpp, defined in no
    available source. *)

(** The value of a default-constructed [Spot]. *)
Definition nullSpot : Spot := mkSpot (mkVector2 0 0) 0 0 FREE 0.

(** Modelled from the spec: Module::getSpot, the Spot data at an index
    (declared "Get the Spot data by index"; body not among the sources). *)
Definition getSpot (m : Module_) (index : Z) : Spot :=
  if (index <? 0)%Z then nullSpot
  else default nullSpot (spots m !! Z.to_nat index).

Definition withState (s : SpotState) (sp : Spot) : Spot :=
  mkSpot (localPosition sp) (orientation sp) (spot_id sp) s (price sp).

(** Modelled from the spec: Module::setSpotState, "performs the transition
    unconditionally (callers are responsible for respecting the
    FREE->RESERVED->OCCUPIED->FREE ordering)"; body not among the sources. *)
Definition setSpotState (index : Z) (newState : SpotState) (m : Module_) : Module_ :=
  if (index <? 0)%Z then m
  else mkModule (kind m) (width m) (height m) (worldPosition m) (localWaypoints m)
                (alter (withState newState) (Z.to_nat index) (spots m))
                (parent m).

Record SpotCounts := mkSpotCounts { free : nat; reserved : nat; occupied : nat }.

Definition countState (s : SpotState) (ss : list Spot) : nat :=
  length (filter (fun sp => state sp = s) ss).

(** Modelled from the spec: Module::getSpotCounts, "returns {free, reserved,
    occupied} totals"; body not among the sources. *)
Definition getSpotCounts (m : Module_) : SpotCounts :=
  mkSpotCounts (countState FREE (spots m)) (countState RESERVED (spots m))
               (countState OCCUPIED (spots m)).

(** The indices of the FREE spots of a spot array, in increasing order. *)
Fixpoint freeIndicesFrom (i : nat) (ss : list Spot) : list nat :=
  match ss with
  | [] => []
  | sp :: rest =>
      if decide (state sp = FREE) then i :: freeIndicesFrom (S i) rest
      else freeIndicesFrom (S i) rest
  end.

Definition freeIndices (m : Module_) : list nat := freeIndicesFrom 0 (spots m).

(** Modelled from the spec: Module::getRandomSpotIndex, "returns the index of
    a uniformly-chosen FREE spot in that facility, or a sentinel none value
    if no spot is FREE"; declared in Modules.hpp, body not among the
    sources.  One draw in [0, n-1] selects among the n FREE spots. *)
Definition getRandomSpotIndex (m : Module_) (rng : Rng) : Z * Rng :=
  match freeIndices m with
  | [] => ((-1)%Z, rng)
  | fs =>
      let '(r, rng') := GetRandomValue 0 (Z.of_nat (length fs) - 1) rng in
      (Z.of_nat (default 0%nat (fs !! Z.to_nat r)), rng')
  end.

(** ** PathPlanner::GenerateExitPath

    Called by the tick handler; its body is not among the sources, so the
    handler is parameterised by it. *)
Class ExitPlanner := {
  GenerateExitPath : Car -> Module_ -> Spot -> bool -> Q -> list Waypoint
}.

(** ** TrafficSystem.cpp *)

Module TrafficSystem.

(** One call of [setSpotState] made by a handler, as the handler logs it
    ("Spot Reserved", "Spot Occupied", "Spot Freed"): the vehicle on whose
    behalf it is made, the facility, the spot index and the state written. *)
Record SpotWrite := mkSpotWrite {
  w_car : nat;
  w_fac : nat;
  w_index : Z;
  w_state : SpotState
}.

(** The module vector together with the log of spot writes. *)
Record Store := mkStore {
  st_modules : list Module_;
  st_journal : list SpotWrite
}.

(** [fac->setSpotState(idx, s)] through the pointer [fac], on behalf of
    vehicle [k]. *)
Definition writeSpot (k fac : nat) (idx : Z) (s : SpotState) (st : Store) : Store :=
  mkStore (alter (setSpotState idx s) fac (st_modules st))
          (st_journal st ++ [mkSpotWrite k fac idx s]).

(** The pointers [mod.get()] of the modules that pass a [dynamic_cast]
    test, each paired with the module it points to. *)
Fixpoint modulesWhereFrom (i : nat) (p : Module_ -> bool) (modules : list Module_)
  : list (nat * Module_) :=
  match modules with
  | [] => []
  | m :: rest =>
      if p m then (i, m) :: modulesWhereFrom (S i) p rest
      else modulesWhereFrom (S i) p rest
  end.

Definition modulesWhere (p : Module_ -> bool) (modules : list Module_) : list (nat * Module_) :=
  modulesWhereFrom 0 p modules.

(** "Calculate Map Bounds": the scan over the NormalRoad modules, with the
    defaults used when it found none. *)
Definition scanRoads (modules : list Module_) : Q * Q :=
  fold_left
    (fun (acc : Q * Q) (m : Module_) =>
       let '(minRoadX, maxRoadX) := acc in
       if isNormalRoad m then
         let x := vec_x (worldPosition m) in
         let w := getWidth m in
         (if Qltb x minRoadX then x else minRoadX,
          if Qltb maxRoadX (x + w) then x + w else maxRoadX)
       else acc)
    modules (FLT_MAX, FLT_LOWEST).

Definition roadBounds (modules : list Module_) : Q * Q :=
  let '(minRoadX, maxRoadX) := scanRoads modules in
  (if Qeq_bool minRoadX FLT_MAX then 0 else minRoadX,
   if Qeq_bool maxRoadX FLT_LOWEST then 100 else maxRoadX).

(** The running best of the facility search. *)
Record Selection := mkSelection {
  targetFac : option (nat * Module_);
  bestSpotIndex : Z;
  bestMetric : Q;
  sel_rng : Rng
}.

(** The facility and index the search settles on: a facility of the list
    and, unless the index is -1, a FREE spot of it. *)
Definition pointsAtFree (facilities : list (nat * Module_))
           (tf : option (nat * Module_)) (idx : Z) : Prop :=
  (forall f, tf = Some f -> f ∈ facilities)
  /\ (idx = (-1)%Z
      \/ exists f j sp,
          tf = Some f /\ idx = Z.of_nat j
          /\ spots (snd f) !! j = Some sp /\ state sp = FREE).

(** The spots sampled by the price loop, facility by facility, with the
    tape as the loop threads it. *)
Fixpoint priceSamples (facilities : list (nat * Module_)) (rng : Rng)
  : list ((nat * Module_) * Z) :=
  match facilities with
  | [] => []
  | f :: rest =>
      let '(idx, rng') := getRandomSpotIndex (snd f) rng in
      (f, idx) :: priceSamples rest rng'
  end.

(** What the CarSpawnedEvent handler leaves behind. *)
Record Spawned := mkSpawned {
  sp_store : Store;
  sp_car : Car;
  sp_rng : Rng;
  sp_published : option (list Waypoint)     (* AssignPathEvent{e.car, path} *)
}.

(** What one iteration of the tick handler's loop leaves behind. *)
Record Ticked := mkTicked {
  tk_store : Store;
  tk_car : Car;
  tk_rng : Rng;
  tk_remove : bool                          (* carsToRemove.push_back(car) *)
}.

Section Handlers.
Context `{Config} `{Raymath} `{ExitPlanner}.

(** *** Handler 2: CarSpawnedEvent *)

Definition decideSeekCharging (car : Car) (rng : Rng) : bool * Rng :=
  let type := getType car in
  let battery := getBatteryLevel car in
  match type with
  | ELECTRIC =>
      if Qltb battery BATTERY_LOW_THRESHOLD then (true, rng)
      else if Qltb BATTERY_HIGH_THRESHOLD battery then (false, rng)
      else
        let t := (battery - BATTERY_LOW_THRESHOLD)
                 / (BATTERY_HIGH_THRESHOLD - BATTERY_LOW_THRESHOLD) in
        let '(r, rng') := GetRandomValue 0 100 rng in
        if Qltb (inject_Z r / 100) t then (false, rng') else (true, rng')
  | COMBUSTION => (false, rng)
  end.

(** "Filter Facilities", with the fallback to parking of a thwarted
    charging-seeker. *)
Definition eligibleFacilities (type : CarType) (seekCharging : bool)
           (modules : list Module_) : list (nat * Module_) :=
  let facilities :=
    match type with
    | COMBUSTION => modulesWhere isParking modules
    | ELECTRIC =>
        if seekCharging then modulesWhere isChargingStation modules
        else modulesWhere isParking modules
    end in
  match facilities with
  | [] => if seekCharging then modulesWhere isParking modules else []
  | _ => facilities
  end.

(** "Closest Facility with Available Spots": one iteration of the loop. *)
Definition distanceStep (carPos : Vector2) (sel : Selection) (f : nat * Module_) : Selection :=
  let fac := snd f in
  if (free (getSpotCounts fac) =? 0)%nat then sel
  else
    let dist := Vector2Distance carPos (worldPosition fac) in
    if Qltb dist (bestMetric sel) then
      let '(idx, rng') := getRandomSpotIndex fac (sel_rng sel) in
      if (idx =? -1)%Z then mkSelection (targetFac sel) (bestSpotIndex sel) (bestMetric sel) rng'
      else mkSelection (Some f) idx dist rng'
    else sel.

(** "Price Priority": one iteration of the loop. *)
Definition priceStep (sel : Selection) (f : nat * Module_) : Selection :=
  let fac := snd f in
  let '(idx, rng') := getRandomSpotIndex fac (sel_rng sel) in
  if (idx =? -1)%Z then mkSelection (targetFac sel) (bestSpotIndex sel) (bestMetric sel) rng'
  else
    let s := getSpot fac idx in
    if Qltb (price s) (bestMetric sel) then mkSelection (Some f) idx (price s) rng'
    else mkSelection (targetFac sel) (bestSpotIndex sel) (bestMetric sel) rng'.

Definition selectFacility (car : Car) (facilities : list (nat * Module_)) (rng : Rng) : Selection :=
  let init := mkSelection None (-1) FLT_MAX rng in
  let priority := getPriority car in
  let carPos := getPosition car in
  match priority with
  | PRIORITY_DISTANCE => fold_left (distanceStep carPos) facilities init
  | _ => fold_left priceStep facilities init
  end.

(** The body of "Fallback: Random": any facility of the list, and a spot
    sampled there. *)
Definition pickRandomFacility (facilities : list (nat * Module_)) (sel : Selection)
  : option (nat * Module_) * Z * Rng :=
  match facilities with
  | [] => (targetFac sel, bestSpotIndex sel, sel_rng sel)
  | _ =>
      let '(r, rng1) :=
        GetRandomValue 0 (Z.of_nat (length facilities) - 1) (sel_rng sel) in
      match facilities !! Z.to_nat r with
      | Some f =>
          let '(idx, rng2) := getRandomSpotIndex (snd f) rng1 in
          (Some f, idx, rng2)
      | None => (None, bestSpotIndex sel, rng1)          (* not reached: r is in range *)
      end
  end.

(** "Fallback: Random", taken without a facility or without a spot. *)
Definition fallbackRandom (facilities : list (nat * Module_)) (sel : Selection)
  : option (nat * Module_) * Z * Rng :=
  match targetFac sel, (bestSpotIndex sel =? -1)%Z with
  | Some f, false => (Some f, bestSpotIndex sel, sel_rng sel)
  | _, _ => pickRandomFacility facilities sel
  end.

(** "If still -1, try one more time". *)
Definition retrySpot (choice : option (nat * Module_) * Z * Rng)
  : option (nat * Module_) * Z * Rng :=
  let '(targetFac, bestSpotIndex, rng) := choice in
  match targetFac with
  | Some f =>
      if (bestSpotIndex =? -1)%Z then
        let '(idx, rng') := getRandomSpotIndex (snd f) rng in
        (targetFac, idx, rng')
      else (targetFac, bestSpotIndex, rng)
  | None => (targetFac, bestSpotIndex, rng)
  end.

(** The facility and spot index the handler finally works with. *)
Definition finalSelection (facilities : list (nat * Module_)) (sel : Selection)
  : option (nat * Module_) * Z * Rng :=
  retrySpot (fallbackRandom facilities sel).

(** "Handle Through Traffic": the direct exit path.  The sums
    [maxRoadX + 2.0f] and [minRoadX - 2.0f] are taken exactly; what is proved
    of the waypoint's x is proved of every float32 rounding of it. *)
Definition throughPath (modules : list Module_) (car : Car) : list Waypoint :=
  let '(minRoadX, maxRoadX) := roadBounds modules in
  let movingRight := Qltb 0 (vec_x (getVelocity car)) in
  let finalX := if movingRight then maxRoadX + 2 else minRoadX - 2 in
  let yPos := vec_y (getPosition car) in
  [Waypoint5 (mkVector2 finalX yPos) 1 (-1) 0 true].

Definition onCarSpawned (k : nat) (st : Store) (car : Car) (rng : Rng) : Spawned :=
  let modules := st_modules st in
  let type := getType car in
  let '(seekCharging, rng) := decideSeekCharging car rng in
  let facilities := eligibleFacilities type seekCharging modules in
  match facilities with
  | [] => mkSpawned st car rng None                  (* "Absolutely no facilities found." *)
  | _ =>
      let sel := selectFacility car facilities rng in
      let '(targetFac, spotIndex, rng) := finalSelection facilities sel in
      match targetFac, (spotIndex =? -1)%Z with
      | Some (fac, _), false =>
          (* Reserve the spot immediately *)
          let st := writeSpot k fac spotIndex RESERVED st in
          match st_modules st !! fac with
          | Some targetFac =>
              let spot := getSpot targetFac spotIndex in
              let path := PathPlanner.GeneratePath car targetFac spot in
              let car := setParkingContext fac spot spotIndex car in
              mkSpawned st car rng (Some path)
          | None => mkSpawned st car rng None        (* not reached: fac is a live pointer *)
          end
      | _, _ =>
          let exitPath := throughPath modules car in
          let car := setPath exitPath car in
          let car := setState EXITING car in
          mkSpawned st car rng (Some exitPath)
      end
  end.

(** *** Handler 3: GameUpdateEvent *)

(** "Check for Arrival (Transition RESERVED -> OCCUPIED)". *)
Definition promote (k : nat) (car : Car) (st : Store) : Store :=
  if bool_decide (getState car = ALIGNING) || bool_decide (getState car = PARKED) then
    let idx := getParkedSpotIndex car in
    match getParkedFacility car with
    | Some fac =>
        if (idx =? -1)%Z then st
        else
          match st_modules st !! fac with
          | Some m =>
              let s := getSpot m idx in
              if bool_decide (state s = RESERVED) then writeSpot k fac idx OCCUPIED st
              else st
          | None => st
          end
    | None => st
    end
  else st.

(** The probability of leaving inside the band between the exit and the
    force-exit threshold. *)
Definition exitProbability (bat dt : Q) : Q :=
  let range := BATTERY_FORCE_EXIT_THRESHOLD - BATTERY_EXIT_THRESHOLD in
  let excess := bat - BATTERY_EXIT_THRESHOLD in
  0.5 * (excess / range) * dt.

(** "Charging Logic", after the call to [charge]: the decision and the
    remaining tape. *)
Definition chargingExit (bat dt : Q) (rng : Rng) : bool * Rng :=
  if Qltb BATTERY_FORCE_EXIT_THRESHOLD bat then (true, rng)
  else if Qltb BATTERY_EXIT_THRESHOLD bat then
    let probability := exitProbability bat dt in
    let '(r, rng') := GetRandomValue 0 10000 rng in
    if Qltb (inject_Z r / 10000) probability then (true, rng') else (false, rng')
  else (false, rng).

(** "Identify if charging": the vehicle's facility is a charging station. *)
Definition isChargingSpot (modules : list Module_) (car : Car) : bool :=
  match getParkedFacility car ≫= (fun f => modules !! f) with
  | Some fac => isChargingStation fac
  | None => false
  end.

(** "Handle Parked Logic (Charging vs Waiting)": shouldExit, the vehicle
    and the remaining tape. *)
Definition parkedLogic (dt : Q) (modules : list Module_) (car : Car) (rng : Rng)
  : bool * Car * Rng :=
  if bool_decide (getState car = PARKED) then
    if isChargingSpot modules car && bool_decide (getType car = ELECTRIC) then
      let car := charge (CHARGING_RATE * dt) car in
      let bat := getBatteryLevel car in
      let '(shouldExit, rng') := chargingExit bat dt rng in
      (shouldExit, car, rng')
    else
      (isReadyToLeave car, car, rng)
  else (false, car, rng).

(** "2. Decide Direction based on Priority". *)
Definition decideExitRight (car : Car) (rng : Rng) : bool * Rng :=
  match getPriority car with
  | PRIORITY_DISTANCE => (negb (getEnteredFromLeft car), rng)
  | _ =>
      let '(r, rng') := GetRandomValue 0 1 rng in
      ((r =? 1)%Z, rng')
  end.

(** The facility a live pointer refers to; a module without content for a
    pointer outside the vector (not reached by the handlers). *)
Definition deref (modules : list Module_) (fac : nat) : Module_ :=
  default (mkModule NormalRoad 0 0 (mkVector2 0 0) [] [] None) (modules !! fac).

(** "Check if ready to leave parking": the body of [if (shouldExit)].
    The last component tells whether the iteration ended on the
    [continue] taken by a vehicle without facility. *)
Definition leaveParking (bounds : Q * Q) (k : nat) (st : Store) (car : Car) (rng : Rng)
  : Store * Car * Rng * bool :=
  let '(minRoadX, maxRoadX) := bounds in
  let currentSpot := getParkedSpot car in
  let idx := getParkedSpotIndex car in
  match getParkedFacility car with
  | None => (st, setState DRIVING car, rng, true)          (* continue *)
  | Some currentFac =>
      (* Free the spot on exit! *)
      let st := if (idx =? -1)%Z then st else writeSpot k currentFac idx FREE st in
      let '(exitRight, rng) := decideExitRight car rng in
      let finalX := if exitRight then maxRoadX + 2 else minRoadX - 2 in
      let path :=
        GenerateExitPath car (deref (st_modules st) currentFac) currentSpot exitRight finalX in
      let car := setPath path car in
      let car := setState EXITING car in
      (st, car, rng, false)
  end.

(** One iteration of the loop over the cars. *)
Definition tickCar (bounds : Q * Q) (dt : Q) (k : nat) (st : Store) (car : Car) (rng : Rng)
  : Ticked :=
  let st := promote k car st in
  let '(shouldExit, car, rng) := parkedLogic dt (st_modules st) car rng in
  let '(st, car, rng, continued) :=
    if shouldExit then leaveParking bounds k st car rng
    else (st, car, rng, false) in
  if continued then mkTicked st car rng false
  else
    mkTicked st car rng
             (bool_decide (getState car = EXITING) && hasArrived car).

(** The loop, from car [k] on; [removed] collects [carsToRemove]. *)
Fixpoint tickCars (bounds : Q * Q) (dt : Q) (k : nat) (st : Store) (cars : list Car)
         (rng : Rng) : Store * list (Car * bool) * Rng :=
  match cars with
  | [] => (st, [], rng)
  | car :: rest =>
      let t := tickCar bounds dt k st car rng in
      let '(st', cars', rng') := tickCars bounds dt (S k) (tk_store t) rest (tk_rng t) in
      (st', (tk_car t, tk_remove t) :: cars', rng')
  end.

(** The handler: bounds, loop, then [removeCar] for every collected car. *)
Definition onGameUpdate (dt : Q) (st : Store) (cars : list Car) (rng : Rng)
  : Store * list Car * Rng :=
  let bounds := roadBounds (st_modules st) in
  let '(st', marked, rng') := tickCars bounds dt 0 st cars rng in
  (st', fst <$> filter (fun cr => snd cr = false) marked, rng').
End Handlers.
End TrafficSystem.

(** ** Car.cpp

    The vehicle update as the available Car.cpp has it: the waypoint queue
    is a [std::deque<Vector2>] of bare points. *)

Module CarEntity.

(** What Car.cpp reads of [World]: [getWidth()] and [getHeight()]. *)
Record World := mkWorld { world_width : Z; world_height : Z }.

Record Car := mkCar {
  position : Vector2;
  velocity : Vector2;
  acceleration : Vector2;
  world : option World;          (* const World*, None = nullptr *)
  maxSpeed : Q;
  maxForce : Q;
  waypoints : list Vector2       (* front = head *)
}.

(** [Car::Car(Vector2 startPos, const World *world)]. *)
Definition newCar (startPos : Vector2) (w : option World) : Car :=
  mkCar startPos (mkVector2 0 0) (mkVector2 0 0) w 300 800 [].

Definition setPosition (p : Vector2) (c : Car) : Car :=
  mkCar p (velocity c) (acceleration c) (world c) (maxSpeed c) (maxForce c) (waypoints c).
Definition setVelocity (v : Vector2) (c : Car) : Car :=
  mkCar (position c) v (acceleration c) (world c) (maxSpeed c) (maxForce c) (waypoints c).
Definition setAcceleration (a : Vector2) (c : Car) : Car :=
  mkCar (position c) (velocity c) a (world c) (maxSpeed c) (maxForce c) (waypoints c).
Definition setWaypoints (ws : list Vector2) (c : Car) : Car :=
  mkCar (position c) (velocity c) (acceleration c) (world c) (maxSpeed c) (maxForce c) ws.

Definition addWaypoint (point : Vector2) (c : Car) : Car :=
  setWaypoints (waypoints c ++ [point]) c.

Definition clearWaypoints (c : Car) : Car := setWaypoints [] c.

Definition applyForce (force : Vector2) (c : Car) : Car :=
  setAcceleration (Vector2Add (acceleration c) force) c.

(** [waypoints.pop_front()]. *)
Definition pop_front (c : Car) : Car := setWaypoints (tail (waypoints c)) c.

Section Update.
Context `{Raymath}.

Definition DEG2RAD : Q := PI / 180.

Definition seek (target : Vector2) (c : Car) : Car :=
  let desired := Vector2Subtract target (position c) in
  let desired := Vector2Normalize desired in
  let desired := Vector2Scale desired (maxSpeed c) in
  let steer := Vector2Subtract desired (velocity c) in
  let steer :=
    if Qltb (maxForce c) (Vector2Length steer)
    then Vector2Scale (Vector2Normalize steer) (maxForce c)
    else steer in
  applyForce steer c.

(** "Waypoint Logic: Generate a new random waypoint if none exist".
    [world->getWidth() - 50] is an int converted to float for the
    comparison: the conversion is exact for sizes up to 2^24. *)
Definition refillWaypoints (c : Car) (rng : Rng) : Car * Rng :=
  match waypoints c, world c with
  | [], Some w =>
      let '(d, rng) := GetRandomValue 300 500 rng in
      let dist := inject_Z d in
      let '(a, rng) := GetRandomValue 0 360 rng in
      let angle := inject_Z a * DEG2RAD in
      let offset := mkVector2 (cosf angle * dist) (sinf angle * dist) in
      let nextPoint := Vector2Add (position c) offset in
      let nx := vec_x nextPoint in
      let ny := vec_y nextPoint in
      let nx := if Qltb nx 50 then 50 else nx in
      let ny := if Qltb ny 50 then 50 else ny in
      let nx := if Qltb (inject_Z (world_width w - 50)) nx
                then inject_Z (world_width w - 50) else nx in
      let ny := if Qltb (inject_Z (world_height w - 50)) ny
                then inject_Z (world_height w - 50) else ny in
      (addWaypoint (mkVector2 nx ny) c, rng)
  | _, _ => (c, rng)
  end.

(** "Steering Behavior (Seek)": seek the front waypoint and move on to
    the next one when close enough; drag when there is no target. *)
Definition followWaypoints (c : Car) : Car :=
  match waypoints c with
  | target :: _ =>
      let c := seek target c in
      if Qltb (Vector2Distance (position c) target) 50 then pop_front c else c
  | [] => setVelocity (Vector2Scale (velocity c) 0.95) c
  end.

(** "Collision Avoidance (Braking and Separation)" against one other car. *)
Definition avoid (other : Car) (c : Car) : Car :=
  let dist := Vector2Distance (position c) (position other) in
  if Qltb dist 70 then
    let c :=
      if Qltb 10 (Vector2Length (velocity c)) then
        let heading := Vector2Normalize (velocity c) in
        let brakingStrength := 600 in
        let brakingForce := Vector2Scale heading (- brakingStrength) in
        applyForce brakingForce c
      else c in
    let push := Vector2Subtract (position c) (position other) in
    let push := Vector2Normalize push in
    let pushStrength := 500 * (1 - dist / 70) in
    applyForce (Vector2Scale push pushStrength) c
  else c.

(** The loop over [*cars], skipping the car itself (at index [self]). *)
Fixpoint avoidAll (self i : nat) (cars : list Car) (c : Car) : Car :=
  match cars with
  | [] => c
  | other :: rest =>
      let c := if (i =? self)%nat then c else avoid other c in
      avoidAll self (S i) rest c
  end.

(** "Physics Integration". *)
Definition integrate (dt : Q) (c : Car) : Car :=
  let c := setVelocity (Vector2Add (velocity c) (Vector2Scale (acceleration c) dt)) c in
  let c :=
    if Qltb (maxSpeed c) (Vector2Length (velocity c))
    then setVelocity (Vector2Scale (Vector2Normalize (velocity c)) (maxSpeed c)) c
    else c in
  let c := setPosition (Vector2Add (position c) (Vector2Scale (velocity c) dt)) c in
  setAcceleration (mkVector2 0 0) c.

Definition updateWithNeighbors (dt : Q) (cars : option (list Car)) (self : nat)
           (c : Car) (rng : Rng) : Car * Rng :=
  let '(c, rng) := refillWaypoints c rng in
  let c := followWaypoints c in
  let c := match cars with
           | Some others => avoidAll self 0 others c
           | None => c
           end in
  (integrate dt c, rng).

(** [void Car::update(double dt) { updateWithNeighbors(dt, nullptr); }] *)
Definition update (dt : Q) (c : Car) (rng : Rng) : Car * Rng :=
  updateWithNeighbors dt None 0 c rng.
End Update.
End CarEntity.

(** ** Runs of the orchestrator and what an observer sees of a spot *)

Module Run.
Import TrafficSystem.

(** The effect of one logged [setSpotState] call on the module vector. *)
Definition applyWrite (w : SpotWrite) (modules : list Module_) : list Module_ :=
  alter (setSpotState (w_index w) (w_state w)) (w_fac w) modules.

(** The module vector after all the writes of a log. *)
Definition applyWrites (ws : list SpotWrite) (modules : list Module_) : list Module_ :=
  fold_left (fun ms w => applyWrite w ms) ws modules.

(** A store reached from another by a list of logged writes. *)
Definition reaches (st st' : Store) (ws : list SpotWrite) : Prop :=
  st_journal st' = st_journal st ++ ws
  /\ st_modules st' = applyWrites ws (st_modules st).

(** The module vectors an observer sees after each logged write. *)
Fixpoint replay (modules : list Module_) (ws : list SpotWrite) : list (list Module_) :=
  match ws with
  | [] => []
  | w :: rest => applyWrite w modules :: replay (applyWrite w modules) rest
  end.

(** The state of spot [idx] of the facility at [fac], if there is one. *)
Definition spotStateAt (fac : nat) (idx : Z) (modules : list Module_) : option SpotState :=
  if (idx <? 0)%Z then None
  else modules !! fac ≫= (fun m => state <$> spots m !! Z.to_nat idx).

(** The cycle FREE -> RESERVED -> OCCUPIED -> FREE. *)
Definition nextState (s : SpotState) : SpotState :=
  match s with
  | FREE => RESERVED
  | RESERVED => OCCUPIED
  | OCCUPIED => FREE
  end.

(** Two consecutive observations of a spot: the same state, or the next one
    on the cycle. *)
Definition cycleStep (a b : option SpotState) : Prop :=
  match a, b with
  | Some x, Some y => y = x \/ y = nextState x
  | None, None => True
  | _, _ => False
  end.

(** The state a write must find for the written state to follow the cycle. *)
Definition follows (old new : SpotState) : Prop :=
  match new with
  | RESERVED => old = FREE
  | OCCUPIED => old = RESERVED
  | FREE => old = OCCUPIED \/ old = FREE
  end.

(** Every write of a log, replayed from [modules], finds its spot in a state
    from which the written state follows. *)
Fixpoint legalWrites (modules : list Module_) (ws : list SpotWrite) : Prop :=
  match ws with
  | [] => True
  | w :: rest =>
      (forall old, spotStateAt (w_fac w) (w_index w) modules = Some old ->
                   follows old (w_state w))
      /\ legalWrites (applyWrite w modules) rest
  end.

(** Consecutive elements of a list are related. *)
Fixpoint chained {A : Type} (R : A -> A -> Prop) (l : list A) : Prop :=
  match l with
  | a :: ((b :: _) as rest) => R a b /\ chained R rest
  | _ => True
  end.

(** The notifications the orchestrator answers, each with the random tape
    it consumes, and what happens to the vehicles in between (creation, the
    vehicles' own updates, the consumers of AssignPathEvent): the vehicles
    change, the modules do not. *)
Inductive Notification :=
| CarSpawnedEvent (k : nat) (rng : Rng)           (* e.car is car [k] *)
| GameUpdateEvent (dt : Q) (rng : Rng)
| VehiclesChanged (cars : list Car).

Record EntityManager := mkEntityManager {
  em_store : Store;
  getCars : list Car
}.

Section Runs.
Context `{Config} `{Raymath} `{ExitPlanner}.

Definition handle (em : EntityManager) (n : Notification) : EntityManager :=
  match n with
  | CarSpawnedEvent k rng =>
      match getCars em !! k with
      | Some car =>
          let r := onCarSpawned k (em_store em) car rng in
          mkEntityManager (sp_store r) (<[k := sp_car r]> (getCars em))
      | None => em
      end
  | GameUpdateEvent dt rng =>
      let '(st, cars, _) := onGameUpdate dt (em_store em) (getCars em) rng in
      mkEntityManager st cars
  | VehiclesChanged cars => mkEntityManager (em_store em) cars
  end.

Definition run (em : EntityManager) (ns : list Notification) : EntityManager :=
  fold_left handle ns em.

(** What an observer sees of spot [(fac, idx)] along a run that starts
    from [modules] and [cars]: its state at the start and after every
    write the handlers make. *)
Definition observed (fac : nat) (idx : Z) (modules : list Module_) (cars : list Car)
           (ns : list Notification) : list (option SpotState) :=
  let em := run (mkEntityManager (mkStore modules []) cars) ns in
  spotStateAt fac idx <$> (modules :: replay modules (st_journal (em_store em))).
End Runs.
End Run.

(** ** Concrete collaborators, for evaluating the model on examples *)

Module Examples.

(** The constants as the comments of the sources quote them (7 art pixels
    per meter; lane offsets 61 and 94; battery thresholds 30, 70, 80 and
    95); the charging rate is illustrative. *)
#[export] Instance exampleConfig : Config := {|
  ART_PIXELS_PER_METER := 7;
  LANE_OFFSET_UP := 61;
  LANE_OFFSET_DOWN := 94;
  BATTERY_LOW_THRESHOLD := 30;
  BATTERY_HIGH_THRESHOLD := 70;
  BATTERY_EXIT_THRESHOLD := 80;
  BATTERY_FORCE_EXIT_THRESHOLD := 95;
  CHARGING_RATE := 5
|}.

(** A square root that is exact on squares of rationals. *)
Definition exactSqrt (q : Q) : Q :=
  let r := Qred q in
  Qmake (Z.sqrt (Qnum r)) (Pos.sqrt (Qden r)).

(** Rational stand-ins for libm: the square root above, the first terms of
    the cosine and sine series, and 355/113. *)
#[export] Instance exampleRaymath : Raymath := {|
  sqrtf := exactSqrt;
  cosf := fun a => 1 - a * a / 2;
  sinf := fun a => a - a * a * a / 6;
  PI := 355 # 113
|}.

(** Modelled from the spec: PathPlanner::GenerateExitPath, "starting from
    the parked spot, produce a short sequence that backs out to the alignment
    point, re-enters the road at the lane appropriate to the chosen exit
    direction, and terminates at a point beyond the map's leftmost or
    rightmost road edge with stopAtEnd = true". *)
#[export] Instance exampleExitPlanner : ExitPlanner := {|
  GenerateExitPath := fun car fac spot exitRight finalX =>
    let lane := if exitRight then DOWN else UP in
    let road :=
      match getParent fac with
      | Some parentRoad => PathPlanner.CalculateRoadEntry parentRoad lane exitRight
      | None => PathPlanner.CalculateFacilityEntry fac exitRight
      end in
    [ PathPlanner.CalculateAlignmentPoint fac spot;
      road;
      Waypoint5 (mkVector2 finalX (vec_y (position road))) 1 (-1) 0 true ]
|}.

Definition origin : Vector2 := mkVector2 0 0.

Definition spotAt (x y : Q) (s : SpotState) (p : Q) : Spot :=
  mkSpot (mkVector2 x y) 0 0 s p.

(** An entrance road at the origin and a normal road on either side. *)
Definition entrance : Module_ :=
  mkModule UpEntranceRoad (284 / 7) (155 / 7) (mkVector2 40 0) [] [] None.
Definition roadLeft : Module_ :=
  mkModule NormalRoad (283 / 7) (155 / 7) (mkVector2 0 0) [] [] None.
Definition roadRight : Module_ :=
  mkModule NormalRoad (283 / 7) (155 / 7) (mkVector2 80 0) [] [] None.

(** A small parking with the given position and spots, attached to the
    entrance road, and one without a parent road. *)
Definition parkingAt (pos : Vector2) (ss : list Spot) : Module_ :=
  mkModule (SmallParking true) (274 / 7) (330 / 7) pos [] ss (Some entrance).
Definition orphanParking (ss : list Spot) : Module_ :=
  mkModule (SmallParking true) (274 / 7) (330 / 7) origin [] ss None.
Definition chargingAt (pos : Vector2) (ss : list Spot) : Module_ :=
  mkModule (SmallChargingStation false) (219 / 7) (168 / 7) pos [] ss (Some entrance).

(** A vehicle spawned on the left, driving right. *)
Definition carOf (t : CarType) (p : Priority) (s : CarState) : Car :=
  mkCar origin (mkVector2 15 0) t 50 p true s [] None nullSpot (-1) false false.

Definition parkedAt (fac : nat) (idx : Z) (c : Car) : Car :=
  setState PARKED (setParkingContext fac nullSpot idx c).

(** A vehicle of Car.cpp in a 3000 x 3000 world, and two waypoints as the
    planner builds them: the stop at a spot, 10 away from the vehicle, with
    the tight tolerance 0.2; and a point 100 away with tolerance 100. *)
Definition wanderer : CarEntity.Car :=
  CarEntity.newCar (mkVector2 1000 1000) (Some (CarEntity.mkWorld 3000 3000)).
Definition spotWaypoint : Waypoint :=
  Waypoint5 (mkVector2 1006 1008) 0.2 0 0 true.

(** Two maps.  In [townOpen] the two parkings have one FREE spot each: the
    near one (module 1, at distance 10 from the origin) at price 5, the far
    one (module 3, at distance 50) at price 2.  In [townFull] their spots are
    OCCUPIED and RESERVED.  Module 4 is a charging station. *)
Definition nearParking (s : SpotState) : Module_ :=
  parkingAt (mkVector2 10 0) [spotAt 1 1 s 5].
Definition farParking (s : SpotState) : Module_ :=
  parkingAt (mkVector2 30 40) [spotAt 2 2 s 2].
Definition townOpen : list Module_ :=
  [roadLeft; nearParking FREE; entrance; farParking FREE;
   chargingAt (mkVector2 45 20) [spotAt 0 0 OCCUPIED 3]; roadRight].
Definition townFull : list Module_ :=
  [roadLeft; nearParking OCCUPIED; entrance; farParking RESERVED;
   chargingAt (mkVector2 45 20) [spotAt 0 0 OCCUPIED 3]; roadRight].

(** A parked vehicle whose dwell timer has elapsed, holding spot 0 of
    module 1, and a parked electric vehicle at the charging station. *)
Definition leaver (p : Priority) : Car :=
  withReadyToLeave true (parkedAt 1 0 (carOf COMBUSTION p DRIVING)).
Definition charger : Car :=
  parkedAt 4 0 (carOf ELECTRIC PRIORITY_PRICE DRIVING).
End Examples.

(** ** Modules.cpp

    The waypoint and attachment-point methods of [Module] and the
    constructors of its subclasses.  The available Modules.cpp builds
    modules without spots. *)

Module Modules.

Record AttachmentPoint := mkAttachmentPoint {
  ap_position : Vector2;       (* relative to module top-left *)
  ap_normal : Vector2          (* direction of attachment *)
}.

(** A module as its constructor leaves it: the fields of [Module_] and the
    attachment points of the class. *)
Record Built := mkBuilt {
  built_module : Module_;
  attachmentPoints : list AttachmentPoint
}.

Definition setWorldPosition (p : Vector2) (m : Module_) : Module_ :=
  mkModule (kind m) (width m) (height m) p (localWaypoints m) (spots m) (parent m).

(** [void setParent(Module* p) { parent = p; }] *)
Definition setParent (p : option Module_) (m : Module_) : Module_ :=
  mkModule (kind m) (width m) (height m) (worldPosition m) (localWaypoints m)
           (spots m) p.

Definition addWaypoint (localPos : Vector2) (tolerance : Q) (id : Z) (angle : Q)
           (stop : bool) (m : Module_) : Module_ :=
  mkModule (kind m) (width m) (height m) (worldPosition m)
           (localWaypoints m ++ [Waypoint5 localPos tolerance id angle stop])
           (spots m) (parent m).

(** [addWaypoint(localPos)] with the defaults of the declaration. *)
Definition addWaypoint1 (localPos : Vector2) (m : Module_) : Module_ :=
  addWaypoint localPos 1 (-1) 0 false m.

Definition getGlobalWaypoints (m : Module_) : list Waypoint :=
  (fun lwp => Waypoint5 (Vector2Add (worldPosition m) (position lwp))
                        (tolerance lwp) (wp_id lwp) (entryAngle lwp) (stopAtEnd lwp))
    <$> localWaypoints m.

(** "Recursive path retrieval": the parent's path first, then the module's
    own waypoints. *)
Fixpoint getPath (m : Module_) : list Waypoint :=
  match m with
  | mkModule _ _ _ _ _ _ par =>
      match par with
      | Some p => getPath p
      | None => []
      end ++ getGlobalWaypoints m
  end.

(** The module and its ancestors, the module first. *)
Fixpoint lineage (m : Module_) : list Module_ :=
  match m with
  | mkModule _ _ _ _ _ _ par =>
      m :: match par with
           | Some p => lineage p
           | None => []
           end
  end.

Section WithMath.
Context `{Config} `{Raymath}.

(** Helper conversion of Modules.cpp. *)
Definition P2M (artPixels : Q) : Q := artPixels / ART_PIXELS_PER_METER.

(** [Module::getAttachmentPointByNormal], on the attachment points: the
    first one whose normal is closer than 0.1 to the given one. *)
Fixpoint getAttachmentPointByNormal (aps : list AttachmentPoint) (normal : Vector2)
  : option AttachmentPoint :=
  match aps with
  | [] => None
  | ap :: rest =>
      if Qltb (Vector2Distance (ap_normal ap) normal) 0.1 then Some ap
      else getAttachmentPointByNormal rest normal
  end.

(** What the "approx comparison" needs of [sqrtf] to tell the four axis
    normals apart: their distances are the roots of 0, 2 and 4. *)
Definition tellsNormalsApart : Prop :=
  sqrtf 0 < 0.1 /\ 0.1 <= sqrtf 2 /\ 0.1 <= sqrtf 4.

(** [Module(float w, float h)]. *)
Definition newModule (k : ModuleKind) (w h : Q) : Module_ :=
  mkModule k w h (mkVector2 0 0) [] [] None.

Definition newNormalRoad : Built :=
  let m := newModule NormalRoad (P2M 283) (P2M 155) in
  let yCenter := P2M 78 in
  mkBuilt (addWaypoint1 (mkVector2 (width m / 2) yCenter) m)
          [ mkAttachmentPoint (mkVector2 0 yCenter) (mkVector2 (-1) 0);
            mkAttachmentPoint (mkVector2 (width m) yCenter) (mkVector2 1 0) ].

Definition newUpEntranceRoad : Built :=
  let m := newModule UpEntranceRoad (P2M 284) (P2M 155) in
  let yCenter := P2M 78 in
  let xCenter := P2M 142 in
  mkBuilt (addWaypoint1 (mkVector2 xCenter yCenter) m)
          [ mkAttachmentPoint (mkVector2 0 yCenter) (mkVector2 (-1) 0);
            mkAttachmentPoint (mkVector2 (width m) yCenter) (mkVector2 1 0);
            mkAttachmentPoint (mkVector2 xCenter 0) (mkVector2 0 (-1)) ].

Definition newDownEntranceRoad : Built :=
  let m := newModule DownEntranceRoad (P2M 284) (P2M 155) in
  let yCenter := P2M 78 in
  let xCenter := P2M 142 in
  mkBuilt (addWaypoint1 (mkVector2 xCenter yCenter) m)
          [ mkAttachmentPoint (mkVector2 0 yCenter) (mkVector2 (-1) 0);
            mkAttachmentPoint (mkVector2 (width m) yCenter) (mkVector2 1 0);
            mkAttachmentPoint (mkVector2 xCenter (height m)) (mkVector2 0 1) ].

Definition newDoubleEntranceRoad : Built :=
  let m := newModule DoubleEntranceRoad (P2M 284) (P2M 155) in
  let yCenter := P2M 78 in
  let xCenter := P2M 142 in
  mkBuilt (addWaypoint1 (mkVector2 xCenter yCenter) m)
          [ mkAttachmentPoint (mkVector2 0 yCenter) (mkVector2 (-1) 0);
            mkAttachmentPoint (mkVector2 (width m) yCenter) (mkVector2 1 0);
            mkAttachmentPoint (mkVector2 xCenter 0) (mkVector2 0 (-1));
            mkAttachmentPoint (mkVector2 xCenter (height m)) (mkVector2 0 1) ].

(** The four facility constructors differ in kind, size and the x of the
    connector (in art pixels). *)
Definition newFacility (k : ModuleKind) (w h connector : Q) (isTop : bool) : Built :=
  let m := newModule k (P2M w) (P2M h) in
  mkBuilt (addWaypoint1 (mkVector2 (P2M connector) (height m / 2)) m)
          [ if isTop
            then mkAttachmentPoint (mkVector2 (P2M connector) (height m)) (mkVector2 0 1)
            else mkAttachmentPoint (mkVector2 (P2M connector) 0) (mkVector2 0 (-1)) ].

Definition newSmallParking (isTop : bool) : Built :=
  newFacility (SmallParking isTop) 274 330 218 isTop.
Definition newLargeParking (isTop : bool) : Built :=
  newFacility (LargeParking isTop) 436 363 218 isTop.
Definition newSmallChargingStation (isTop : bool) : Built :=
  newFacility (SmallChargingStation isTop) 219 168 163 isTop.
Definition newLargeChargingStation (isTop : bool) : Built :=
  newFacility (LargeChargingStation isTop) 274 330 218 isTop.
End WithMath.
End Modules.

(** ** WorldGenerator.cpp

    The helpers of [WorldGenerator::generate] that create and place one
    module. *)

Module WorldGenerator.
Import Modules.

Section Placement.
Context `{Config} `{Raymath}.

(** The lambda [createFacility(type, size, isTop)]. *)
Definition createFacility (type size : Z) (isTop : bool) : Built :=
  if (type =? 0)%Z then
    if (size =? 0)%Z then newSmallParking isTop else newLargeParking isTop
  else
    if (size =? 0)%Z then newSmallChargingStation isTop
    else newLargeChargingStation isTop.

(** The lambda [placePaddingRoad(x, y)]: the road placed and the advanced
    x.  A road without left attachment point is pushed where it is. *)
Definition placePaddingRoad (x y : Q) : Built * Q :=
  let road := newNormalRoad in
  match getAttachmentPointByNormal (attachmentPoints road) (mkVector2 (-1) 0) with
  | Some leftAttach =>
      let placed :=
        mkBuilt (setWorldPosition
                   (mkVector2 (x - vec_x (ap_position leftAttach))
                              (y - vec_y (ap_position leftAttach)))
                   (built_module road))
                (attachmentPoints road) in
      match getAttachmentPointByNormal (attachmentPoints road) (mkVector2 1 0) with
      | Some rightAttach => (placed, x + vec_x (ap_position rightAttach))
      | None => (placed, x + getWidth (built_module road))
      end
  | None => (road, x)
  end.

(** "Link Facilities to Road (Parenting)" and the lambda [placeFac]: the
    facility of a unit whose road sits at [roadWorldPos], attached at the
    road's attachment point of the given normal.  [None] when the lambda
    returns without placing the facility.  The position is the expression
    the lambda evaluates, (road + roadAttach) - facAttach; in float32, adding
    facAttach back gives the junction only up to a unit in the last place. *)
Definition placeFac (road fac : Built) (roadWorldPos : Vector2) (roadAttachNormal : Vector2)
  : option Built :=
  let placedRoad := setWorldPosition roadWorldPos (built_module road) in
  match getAttachmentPointByNormal (attachmentPoints road) roadAttachNormal with
  | None => None
  | Some roadAttach =>
      let facNormal := Vector2Scale roadAttachNormal (-1) in
      match getAttachmentPointByNormal (attachmentPoints fac) facNormal with
      | None => None
      | Some facAttach =>
          let globalAttachEx := Vector2Add roadWorldPos (ap_position roadAttach) in
          Some (mkBuilt
                  (setWorldPosition (Vector2Subtract globalAttachEx (ap_position facAttach))
                                    (setParent (Some placedRoad) (built_module fac)))
                  (attachmentPoints fac))
      end
  end.
End Placement.
End WorldGenerator.

(** ** TrafficSystem.cpp, handler 1: SpawnCarRequestEvent *)

Module SpawnRequest.

Record CreateCarEvent := mkCreateCarEvent {
  cc_position : Vector2;
  cc_velocity : Vector2;
  cc_carType : Z;                (* 0: Combustion, 1: Electric *)
  cc_priority : Z;
  cc_enteredFromLeft : bool
}.

(** "Find Leftmost and Rightmost Roads": the two pointers and the running
    extremes. *)
Record Boundary := mkBoundary {
  leftRoad : option Module_;
  rightRoad : option Module_;
  minX : Q;
  maxRightX : Q
}.

Definition boundaryStep (b : Boundary) (m : Module_) : Boundary :=
  if isNormalRoad m then
    let x := vec_x (worldPosition m) in
    let w := getWidth m in
    let b := if Qltb x (minX b)
             then mkBoundary (Some m) (rightRoad b) x (maxRightX b)
             else b in
    if Qltb (maxRightX b) (x + w)
    then mkBoundary (leftRoad b) (Some m) (minX b) (x + w)
    else b
  else b.

Definition findBoundaryRoads (modules : list Module_) : Boundary :=
  fold_left boundaryStep modules (mkBoundary None None FLT_MAX FLT_LOWEST).

Section Handler.
Context `{Config}.

(** The handler: the event it publishes, if any, and the remaining tape. *)
Definition onSpawnCarRequest (modules : list Module_) (rng : Rng)
  : option CreateCarEvent * Rng :=
  match modules with
  | [] => (None, rng)
  | _ =>
      let b := findBoundaryRoads modules in
      match leftRoad b, rightRoad b with
      | None, None => (None, rng)                 (* "No roads found to spawn cars." *)
      | l, r =>
          let '(side, rng) := GetRandomValue 0 1 rng in
          let spawnLeft := (side =? 0)%Z in
          let spawnLeft := match l with None => false | Some _ => spawnLeft end in
          let spawnLeft := match r with None => true | Some _ => spawnLeft end in
          let speed := 15 in
          let pixelsPerMeter := ART_PIXELS_PER_METER in
          let nowhere := mkModule NormalRoad 0 0 (mkVector2 0 0) [] [] None in
          let '(spawnPos, spawnVel) :=
            if spawnLeft then
              let road := default nowhere l in
              let laneOffset := LANE_OFFSET_DOWN / pixelsPerMeter in
              (mkVector2 (vec_x (worldPosition road))
                         (vec_y (worldPosition road) + laneOffset),
               mkVector2 speed 0)
            else
              let road := default nowhere r in
              let laneOffset := LANE_OFFSET_UP / pixelsPerMeter in
              (mkVector2 (vec_x (worldPosition road) + getWidth road)
                         (vec_y (worldPosition road) + laneOffset),
               mkVector2 (- speed) 0) in
          let '(t, rng) := GetRandomValue 0 1 rng in
          let carType := if (t =? 0)%Z then 0%Z else 1%Z in
          let '(p, rng) := GetRandomValue 0 1 rng in
          let priority := if (p =? 0)%Z then 0%Z else 1%Z in
          let enteredFromLeft := spawnLeft in
          (Some (mkCreateCarEvent spawnPos spawnVel carType priority enteredFromLeft), rng)
      end
  end.
End Handler.
End SpawnRequest.

(** ** GameScene.cpp *)

Module GameScene.

(** raylib's Camera2D and the key codes the scene reads. *)
Record Camera2D := mkCamera2D {
  cam_offset : Vector2;
  cam_target : Vector2;
  cam_rotation : Q;
  cam_zoom : Q
}.

Definition KEY_W : Z := 87.
Definition KEY_S : Z := 83.
Definition KEY_A : Z := 65.
Definition KEY_D : Z := 68.
Definition KEY_E : Z := 69.
Definition KEY_Q : Z := 81.

Record Scene := mkScene {
  world : CarEntity.World;
  cars : list CarEntity.Car;
  camera : Camera2D;
  isPaused : bool;
  keysDown : list Z              (* std::unordered_set<int> *)
}.

Definition contains (keys : list Z) (key : Z) : bool := existsb (Z.eqb key) keys.

Definition setTarget (t : Vector2) (c : Camera2D) : Camera2D :=
  mkCamera2D (cam_offset c) t (cam_rotation c) (cam_zoom c).
Definition setZoom (z : Q) (c : Camera2D) : Camera2D :=
  mkCamera2D (cam_offset c) (cam_target c) (cam_rotation c) z.

(** [GameScene::handleInput]; [wheel] is what [GetMouseWheelMove()]
    returns. *)
Definition handleInput (dt wheel : Q) (sc : Scene) : Camera2D :=
  let camera := camera sc in
  let keysDown := keysDown sc in
  let speed := 500 / cam_zoom camera in
  let tx := vec_x (cam_target camera) in
  let ty := vec_y (cam_target camera) in
  let ty := if contains keysDown KEY_W then ty - speed * dt else ty in
  let ty := if contains keysDown KEY_S then ty + speed * dt else ty in
  let tx := if contains keysDown KEY_A then tx - speed * dt else tx in
  let tx := if contains keysDown KEY_D then tx + speed * dt else tx in
  let zoom := cam_zoom camera in
  let zoom := if Qeq_bool wheel 0 then zoom else zoom + wheel * 0.1 in
  let zoom := if contains keysDown KEY_E then zoom + 1 * dt else zoom in
  let zoom := if contains keysDown KEY_Q then zoom - 1 * dt else zoom in
  let zoom := if Qltb zoom 0.1 then 0.1 else zoom in
  let zoom := if Qltb 3 zoom then 3 else zoom in
  let tx := if Qltb tx 0 then 0 else tx in
  let ty := if Qltb ty 0 then 0 else ty in
  let w := inject_Z (CarEntity.world_width (world sc)) in
  let h := inject_Z (CarEntity.world_height (world sc)) in
  let tx := if Qltb w tx then w else tx in
  let ty := if Qltb h ty then h else ty in
  setZoom zoom (setTarget (mkVector2 tx ty) camera).

(** [GameScene::load], "Spawn multiple cars at random positions": [n]
    rounds of the loop, appending to [cars]. *)
Fixpoint spawnCars (n : nat) (w : CarEntity.World) (cars : list CarEntity.Car) (rng : Rng)
  : list CarEntity.Car * Rng :=
  match n with
  | O => (cars, rng)
  | S n' =>
      let '(x, rng) := GetRandomValue 50 (CarEntity.world_width w - 50) rng in
      let '(y, rng) := GetRandomValue 50 (CarEntity.world_height w - 50) rng in
      spawnCars n' w
        (cars ++ [CarEntity.newCar (mkVector2 (inject_Z x) (inject_Z y)) (Some w)]) rng
  end.

(** The world and the vehicles [load] sets up. *)
Definition loadCars (rng : Rng) : CarEntity.World * list CarEntity.Car * Rng :=
  let world := CarEntity.mkWorld 3000 3000 in
  let '(cars, rng) := spawnCars 10 world [] rng in
  (world, cars, rng).

Section Update.
Context `{Raymath}.

(** The loop [for (auto &car : cars) car->updateWithNeighbors(dt, &cars)]:
    the cars are updated in place, one after the other, each seeing the
    vector as the earlier updates left it.  [i] is the index of the next car
    to update. *)
Fixpoint updateCarsFrom (n i : nat) (dt : Q) (cars : list CarEntity.Car) (rng : Rng)
  : list CarEntity.Car * Rng :=
  match n with
  | O => (cars, rng)
  | S n' =>
      match cars !! i with
      | Some car =>
          let '(car', rng') :=
            CarEntity.updateWithNeighbors dt (Some cars) i car rng in
          updateCarsFrom n' (S i) dt (<[i := car']> cars) rng'
      | None => (cars, rng)
      end
  end.

(** [GameScene::update] (the UI manager's update aside). *)
Definition update (dt wheel : Q) (sc : Scene) (rng : Rng) : Scene * Rng :=
  let camera := handleInput dt wheel sc in
  if isPaused sc then (mkScene (world sc) (cars sc) camera (isPaused sc) (keysDown sc), rng)
  else
    let '(cars', rng') := updateCarsFrom (length (cars sc)) 0 dt (cars sc) rng in
    (mkScene (world sc) cars' camera (isPaused sc) (keysDown sc), rng').
End Update.
End GameScene.

(** ** More concrete inputs *)

Module Scenarios.
Import Examples.

(** An electric vehicle with the given battery level. *)
Definition electricAt (bat : Q) : Car :=
  mkCar origin (mkVector2 15 0) ELECTRIC bat PRIORITY_DISTANCE true DRIVING
        [] None nullSpot (-1) false false.

(** A vehicle that has completed its exit path. *)
Definition arrived : Car :=
  mkCar origin (mkVector2 15 0) COMBUSTION 50 PRIORITY_PRICE true EXITING
        [] None nullSpot (-1) false true.

(** A parked vehicle whose dwell timer has elapsed and that holds no
    facility. *)
Definition stray : Car :=
  withReadyToLeave true (setState PARKED (carOf COMBUSTION PRIORITY_PRICE DRIVING)).

(** The vehicle the spawn-request handler creates on the left of
    [townOpen] with the tape 0, 1, 0. *)
Definition spawnedLeft : SpawnRequest.CreateCarEvent :=
  SpawnRequest.mkCreateCarEvent (mkVector2 0 (94 # 7)) (mkVector2 15 0) 1 0 true.

(** A map whose only facility is a full charging station, and the full
    town cut after its entrance road, which is then the rightmost road. *)
Definition townWithoutParking : list Module_ :=
  [roadLeft; entrance; chargingAt (mkVector2 45 20) [spotAt 0 0 OCCUPIED 3]; roadRight].
Definition townEndingInEntrance : list Module_ :=
  [roadLeft; nearParking OCCUPIED; entrance].

(** A vehicle of Car.cpp 1000 to the right of [wanderer]. *)
Definition distant : CarEntity.Car :=
  CarEntity.newCar (mkVector2 2000 1000) (Some (CarEntity.mkWorld 3000 3000)).

(** A scene with W and E held down. *)
Definition scene : GameScene.Scene :=
  GameScene.mkScene (CarEntity.mkWorld 3000 3000) [wanderer; distant]
                    (GameScene.mkCamera2D origin (mkVector2 10 10) 0 1) false
                    [GameScene.KEY_W; GameScene.KEY_E].
End Scenarios.

(** * Properties *)

(** ** Numbers *)

Lemma Qltb_lt (a b : Q) : Qltb a b = true <-> a < b.
Proof.
  unfold Qltb. rewrite negb_true_iff, <- not_true_iff_false, Qle_bool_iff.
  split; [apply Qnot_le_lt | apply Qlt_not_le].
Qed.

Lemma Qltb_ge (a b : Q) : Qltb a b = false <-> b <= a.
Proof.
  unfold Qltb. rewrite negb_false_iff. apply Qle_bool_iff.
Qed.

Lemma Qsign_pos (q : Q) : 0 < q <-> Qsign q = 1%Z.
Proof.
  unfold Qsign, Qlt. simpl. rewrite Z.mul_1_r. split; intro Hq.
  - now apply Z.sgn_pos.
  - now apply Z.sgn_pos_iff.
Qed.

Lemma Qltb_sign (a b : Q) : Qsign a = Qsign b -> Qltb 0 a = Qltb 0 b.
Proof.
  intros Hs.
  destruct (Qltb 0 a) eqn:Ha, (Qltb 0 b) eqn:Hb; try reflexivity.
  - apply Qltb_lt, Qsign_pos in Ha. rewrite Hs in Ha.
    apply Qsign_pos, Qltb_lt in Ha. congruence.
  - apply Qltb_lt, Qsign_pos in Hb. rewrite <- Hs in Hb.
    apply Qsign_pos, Qltb_lt in Hb. congruence.
Qed.

(** ** The path planner *)

Section PlannerFacts.
Context `{Config} `{Raymath}.
Import PathPlanner.

Lemma GeneratePath_unfold (car : Car) (targetFac : Module_) (targetSpot : Spot) :
  GeneratePath car targetFac targetSpot =
  [ match getParent targetFac with
    | Some parentRoad =>
        CalculateRoadEntry parentRoad (chooseLane car) (chooseRightSide targetFac)
    | None => CalculateFacilityEntry targetFac (chooseRightSide targetFac)
    end;
    CalculateFacilityEntry targetFac (chooseRightSide targetFac);
    CalculateAlignmentPoint targetFac targetSpot;
    CalculateSpotPoint targetFac targetSpot ].
Proof.
  unfold GeneratePath. destruct (getParent targetFac); reflexivity.
Qed.

(** C3. The entry path has exactly four waypoints; the last one stops at
    the end, carries the spot's orientation as entry angle, sits at the
    facility's world position plus the spot's local position, and has a
    tolerance strictly smaller than each of the first three. *)
Theorem GeneratePath_entry_path (car : Car) (targetFac : Module_) (targetSpot : Spot) :
  exists w1 w2 w3 w4 : Waypoint,
    GeneratePath car targetFac targetSpot = [w1; w2; w3; w4]
    /\ length (GeneratePath car targetFac targetSpot) = 4%nat
    /\ stopAtEnd w4 = true
    /\ entryAngle w4 = orientation targetSpot
    /\ position w4 = Vector2Add (worldPosition targetFac) (localPosition targetSpot)
    /\ tolerance w4 < tolerance w1
    /\ tolerance w4 < tolerance w2
    /\ tolerance w4 < tolerance w3.
Proof.
  rewrite GeneratePath_unfold.
  eexists _, _, _, _. split; [reflexivity |].
  repeat split.
  destruct (getParent targetFac); reflexivity.
Qed.

(** C4. Lane and side are functions of the sign of the x-velocity and of
    the facility being top or bottom: two calls that agree on both choose
    the same lane and the same side, and on the same facility and spot
    return the same path; a positive x-velocity gives the DOWN lane and any
    other the UP lane, there being no third lane; a top facility gives the
    right-hand offset (+18 art pixels) and a bottom one the left-hand
    offset (-18 art pixels), on the road and at the facility entrance. *)
Theorem GeneratePath_lane_and_side
        (car1 car2 : Car) (fac1 fac2 : Module_) (spot : Spot) :
  Qsign (vec_x (getVelocity car1)) = Qsign (vec_x (getVelocity car2)) ->
  isUp fac1 = isUp fac2 ->
  chooseLane car1 = chooseLane car2
  /\ chooseRightSide fac1 = chooseRightSide fac2
  /\ GeneratePath car1 fac1 spot = GeneratePath car2 fac1 spot
  /\ (0 < vec_x (getVelocity car1) -> chooseLane car1 = DOWN)
  /\ (~ 0 < vec_x (getVelocity car1) -> chooseLane car1 = UP)
  /\ (forall lane : Lane, lane = UP \/ lane = DOWN)
  /\ chooseRightSide fac1 = isUp fac1
  /\ (forall road lane,
        position (CalculateRoadEntry road lane (chooseRightSide fac1)) =
        Vector2Add (worldPosition road)
          (mkVector2 (P2M 142 + (if isUp fac1 then P2M 18 else - P2M 18))
                     (match lane with
                      | DOWN => P2M LANE_OFFSET_DOWN
                      | UP => P2M LANE_OFFSET_UP
                      end)))
  /\ (forall road,
        getParent fac1 = Some road ->
        head (GeneratePath car1 fac1 spot) =
        Some (CalculateRoadEntry road
                (if Qltb 0 (vec_x (getVelocity car1)) then DOWN else UP)
                (isUp fac1))).
Proof.
  intros Hsign Hup.
  assert (Hlane : chooseLane car1 = chooseLane car2).
  { unfold chooseLane. now rewrite (Qltb_sign _ _ Hsign). }
  split; [exact Hlane |].
  split; [unfold chooseRightSide; exact Hup |].
  split; [rewrite !GeneratePath_unfold, Hlane; reflexivity |].
  split.
  { intros Hpos. unfold chooseLane. apply Qltb_lt in Hpos. now rewrite Hpos. }
  split.
  { intros Hneg. unfold chooseLane.
    destruct (Qltb 0 (vec_x (getVelocity car1))) eqn:E; [| reflexivity].
    apply Qltb_lt in E. contradiction. }
  split; [intros []; auto |].
  split; [reflexivity |].
  split.
  { intros road lane. unfold chooseRightSide, CalculateRoadEntry. simpl.
    destruct (isUp fac1), lane; reflexivity. }
  intros road Hroad. rewrite GeneratePath_unfold, Hroad. reflexivity.
Qed.

(** C10. For a facility without parent road the first waypoint is the
    facility's own entry point: the path still has four waypoints and its
    first two are the facility-entry waypoint of the chosen side. *)
Theorem GeneratePath_without_parent (car : Car) (targetFac : Module_) (targetSpot : Spot) :
  getParent targetFac = None ->
  exists w3 w4 : Waypoint,
    GeneratePath car targetFac targetSpot =
    [ CalculateFacilityEntry targetFac (chooseRightSide targetFac);
      CalculateFacilityEntry targetFac (chooseRightSide targetFac);
      w3; w4 ]
    /\ length (GeneratePath car targetFac targetSpot) = 4%nat
    /\ GeneratePath car targetFac targetSpot !! 0%nat
       = GeneratePath car targetFac targetSpot !! 1%nat.
Proof.
  intros Hparent. rewrite GeneratePath_unfold, Hparent.
  eexists _, _. repeat split.
Qed.
End PlannerFacts.

Section PlannerWitnesses.
Import Examples.

Lemma GeneratePath_lane_and_side_witness :
PathPlanner.chooseLane (carOf COMBUSTION PRIORITY_DISTANCE DRIVING)
= PathPlanner.chooseLane (carOf ELECTRIC PRIORITY_PRICE PARKED)
/\ PathPlanner.chooseLane (carOf COMBUSTION PRIORITY_DISTANCE DRIVING) = DOWN
/\ PathPlanner.chooseRightSide (parkingAt origin [])
   = PathPlanner.chooseRightSide (parkingAt (mkVector2 5 5) [nullSpot]).
Proof.
destruct (GeneratePath_lane_and_side
            (carOf COMBUSTION PRIORITY_DISTANCE DRIVING)
            (carOf ELECTRIC PRIORITY_PRICE PARKED)
            (parkingAt origin [])
            (parkingAt (mkVector2 5 5) [nullSpot])
            nullSpot eq_refl eq_refl) as (Hlane & Hside & _ & Hdown & _).
split; [exact Hlane |].
split; [apply Hdown; reflexivity | exact Hside].
Defined.

Lemma GeneratePath_without_parent_witness :
exists w3 w4 : Waypoint,
  PathPlanner.GeneratePath (carOf COMBUSTION PRIORITY_DISTANCE DRIVING)
                           (orphanParking []) nullSpot =
  [ PathPlanner.CalculateFacilityEntry (orphanParking []) true;
    PathPlanner.CalculateFacilityEntry (orphanParking []) true;
    w3; w4 ].
Proof.
destruct (GeneratePath_without_parent
            (carOf COMBUSTION PRIORITY_DISTANCE DRIVING)
            (orphanParking []) nullSpot eq_refl) as (w3 & w4 & E & _).
exists w3, w4. exact E.
Defined.
End PlannerWitnesses.

(** ** Spot selection inside one facility *)

Lemma freeIndicesFrom_lookup (ss : list Spot) (i j : nat) :
  j ∈ freeIndicesFrom i ss <->
  exists n sp, j = (i + n)%nat /\ ss !! n = Some sp /\ state sp = FREE.
Proof.
  revert i. induction ss as [| s ss IH]; intros i; simpl.
  - split; [intros Hin; inversion Hin | intros (n & sp & _ & Hl & _); discriminate].
  - destruct (decide (state s = FREE)) as [Hs | Hs].
    + rewrite elem_of_cons, IH. split.
      * intros [-> | (n & sp & -> & Hl & Hf)].
        -- exists 0%nat, s. split; [lia | auto].
        -- exists (S n), sp. split; [lia | auto].
      * intros (n & sp & -> & Hl & Hf). destruct n as [| n].
        -- left. lia.
        -- right. exists n, sp. split; [lia | auto].
    + rewrite IH. split.
      * intros (n & sp & -> & Hl & Hf). exists (S n), sp. split; [lia | auto].
      * intros (n & sp & -> & Hl & Hf). destruct n as [| n].
        -- simpl in Hl. inversion Hl; subst. contradiction.
        -- exists n, sp. split; [lia | auto].
Qed.

Lemma freeIndicesFrom_ge (ss : list Spot) (i j : nat) :
  j ∈ freeIndicesFrom i ss -> (i <= j)%nat.
Proof.
  rewrite freeIndicesFrom_lookup. intros (n & _ & -> & _). lia.
Qed.

Lemma freeIndicesFrom_NoDup (ss : list Spot) (i : nat) : NoDup (freeIndicesFrom i ss).
Proof.
  revert i. induction ss as [| s ss IH]; intros i; simpl.
  - constructor.
  - destruct (decide (state s = FREE)); [| apply IH].
    constructor; [| apply IH].
    intros Hin. apply freeIndicesFrom_ge in Hin. lia.
Qed.

Lemma freeIndices_spec (m : Module_) (j : nat) :
  j ∈ freeIndices m <-> exists sp, spots m !! j = Some sp /\ state sp = FREE.
Proof.
  unfold freeIndices. rewrite freeIndicesFrom_lookup. split.
  - intros (n & sp & -> & Hl & Hf). exists sp. auto.
  - intros (sp & Hl & Hf). exists j, sp. auto.
Qed.

Lemma freeIndices_nil (m : Module_) :
  freeIndices m = [] <-> forall sp, sp ∈ spots m -> state sp <> FREE.
Proof.
  split.
  - intros Hnil sp Hin Hfree.
    apply list_elem_of_lookup in Hin as [j Hj].
    assert (Hmem : j ∈ freeIndices m) by (apply freeIndices_spec; eauto).
    rewrite Hnil in Hmem. inversion Hmem.
  - intros Hall. destruct (freeIndices m) as [| j fs] eqn:E; [reflexivity |].
    assert (Hmem : j ∈ freeIndices m) by (rewrite E; left).
    apply freeIndices_spec in Hmem as (sp & Hl & Hf).
    exfalso. apply (Hall sp); [| exact Hf].
    apply list_elem_of_lookup. eauto.
Qed.

Lemma GetRandomValue_range (min max : Z) (rng : Rng) :
  (min <= max)%Z ->
  (min <= fst (GetRandomValue min max rng) <= max)%Z.
Proof.
  intros Hle. destruct rng as [| raw rest]; simpl; [lia |].
  pose proof (Z.mod_pos_bound raw (max - min + 1)). lia.
Qed.

(** The index returned on a facility with FREE spots: the entry of the
    list of FREE indices that the draw selects. *)
Lemma getRandomSpotIndex_pick (m : Module_) (rng : Rng) :
  freeIndices m <> [] ->
  exists (r : nat) (j : nat),
    (r < length (freeIndices m))%nat
    /\ Z.of_nat r = fst (GetRandomValue 0 (Z.of_nat (length (freeIndices m)) - 1) rng)
    /\ freeIndices m !! r = Some j
    /\ fst (getRandomSpotIndex m rng) = Z.of_nat j.
Proof.
  intros Hne. unfold getRandomSpotIndex.
  destruct (freeIndices m) as [| j0 fs] eqn:E; [contradiction |].
  set (n := length (j0 :: fs)).
  pose proof (GetRandomValue_range 0 (Z.of_nat n - 1) rng) as Hr.
  destruct (GetRandomValue 0 (Z.of_nat n - 1) rng) as [r rng'] eqn:Eg.
  simpl in Hr. assert (0 < n)%nat by (unfold n; simpl; lia).
  specialize (Hr ltac:(lia)).
  assert (Hlt : (Z.to_nat r < n)%nat) by lia.
  destruct (lookup_lt_is_Some_2 (j0 :: fs) (Z.to_nat r) Hlt) as [j Hj].
  exists (Z.to_nat r), j. repeat split; [exact Hlt | simpl; lia | exact Hj |].
  simpl fst. rewrite Hj. reflexivity.
Qed.

Lemma getRandomSpotIndex_none (m : Module_) (rng : Rng) :
  freeIndices m = [] -> getRandomSpotIndex m rng = ((-1)%Z, rng).
Proof.
  intros E. unfold getRandomSpotIndex. now rewrite E.
Qed.

Lemma getRandomSpotIndex_free (m : Module_) (rng : Rng) :
  fst (getRandomSpotIndex m rng) <> (-1)%Z ->
  exists j sp,
    fst (getRandomSpotIndex m rng) = Z.of_nat j
    /\ spots m !! j = Some sp /\ state sp = FREE.
Proof.
  intros Hidx.
  destruct (decide (freeIndices m = [])) as [E | Hne].
  - rewrite (getRandomSpotIndex_none m rng E) in Hidx. contradiction.
  - destruct (getRandomSpotIndex_pick m rng Hne) as (r & j & _ & _ & Hj & Hres).
    assert (Hmem : j ∈ freeIndices m) by (apply list_elem_of_lookup; eauto).
    apply freeIndices_spec in Hmem as (sp & Hl & Hf).
    exists j, sp. auto.
Qed.

(** For every tape: on a facility with n FREE spots one value is drawn
    from 0..n-1, and the index returned is the entry of the list of FREE
    indices at the place the draw names. *)
Lemma getRandomSpotIndex_draw (m : Module_) (rng : Rng) :
  freeIndices m <> [] ->
  exists (r : nat) (j : nat),
    (r < length (freeIndices m))%nat
    /\ Z.of_nat r = fst (GetRandomValue 0 (Z.of_nat (length (freeIndices m)) - 1) rng)
    /\ freeIndices m !! r = Some j
    /\ getRandomSpotIndex m rng
       = (Z.of_nat j,
          snd (GetRandomValue 0 (Z.of_nat (length (freeIndices m)) - 1) rng)).
Proof.
  intros Hne. unfold getRandomSpotIndex.
  destruct (freeIndices m) as [| j0 fs] eqn:E; [contradiction |].
  set (n := length (j0 :: fs)).
  pose proof (GetRandomValue_range 0 (Z.of_nat n - 1) rng) as Hr.
  destruct (GetRandomValue 0 (Z.of_nat n - 1) rng) as [r rng'] eqn:Eg.
  simpl in Hr. assert (0 < n)%nat by (unfold n; simpl; lia).
  specialize (Hr ltac:(lia)).
  assert (Hlt : (Z.to_nat r < n)%nat) by lia.
  destruct (lookup_lt_is_Some_2 (j0 :: fs) (Z.to_nat r) Hlt) as [j Hj].
  exists (Z.to_nat r), j. repeat split; [exact Hlt | simpl; lia | exact Hj |].
  simpl snd. rewrite Hj. reflexivity.
Qed.

(** C2. [getRandomSpotIndex] returns -1 exactly when the facility has no
    FREE spot; otherwise it returns the index of a FREE spot; and the choice
    is uniform.  For every tape, on a facility with n FREE spots, exactly one
    value r is drawn, from 0..n-1, and the index returned is the r-th FREE
    index in increasing order, whatever else the tape holds.  The FREE
    indices are listed without repetition and are exactly the indices of the
    FREE spots, so every FREE index is returned for exactly one of the n
    values of the draw: the index is as uniform as the draw. *)
Theorem getRandomSpotIndex_contract (m : Module_) (rng : Rng) :
  (fst (getRandomSpotIndex m rng) = (-1)%Z <->
   forall sp, sp ∈ spots m -> state sp <> FREE)
  /\ ((exists sp, sp ∈ spots m /\ state sp = FREE) ->
      exists j sp,
        fst (getRandomSpotIndex m rng) = Z.of_nat j
        /\ spots m !! j = Some sp /\ state sp = FREE
        /\ state (getSpot m (fst (getRandomSpotIndex m rng))) = FREE)
  /\ NoDup (freeIndices m)
  /\ (forall j, j ∈ freeIndices m <->
                exists sp, spots m !! j = Some sp /\ state sp = FREE)
  /\ (freeIndices m <> [] ->
      exists (r : nat) (j : nat),
        (r < length (freeIndices m))%nat
        /\ Z.of_nat r
           = fst (GetRandomValue 0 (Z.of_nat (length (freeIndices m)) - 1) rng)
        /\ freeIndices m !! r = Some j
        /\ getRandomSpotIndex m rng
           = (Z.of_nat j,
              snd (GetRandomValue 0 (Z.of_nat (length (freeIndices m)) - 1) rng)))
  /\ (forall j, j ∈ freeIndices m ->
                exists r, (r < length (freeIndices m))%nat
                          /\ freeIndices m !! r = Some j
                          /\ forall r', freeIndices m !! r' = Some j -> r' = r)
  /\ (fun r => fst (getRandomSpotIndex m [Z.of_nat r]))
       <$> seq 0 (length (freeIndices m))
     = Z.of_nat <$> freeIndices m.
Proof.
  split; [| split; [| split; [| split; [| split; [| split]]]]];
    [| | | | apply getRandomSpotIndex_draw | |].
  5: { intros j Hj. apply list_elem_of_lookup in Hj as [r Hr].
       exists r. split; [eapply lookup_lt_Some; exact Hr |]. split; [exact Hr |].
       intros r' Hr'.
       exact (NoDup_lookup _ _ _ _ (freeIndicesFrom_NoDup (spots m) 0) Hr' Hr). }
  - rewrite <- freeIndices_nil. split.
    + intros Hidx. destruct (decide (freeIndices m = [])) as [E | Hne]; [exact E |].
      destruct (getRandomSpotIndex_pick m rng Hne) as (_ & j & _ & _ & _ & Hres).
      lia.
    + intros E. now rewrite getRandomSpotIndex_none.
  - intros (sp0 & Hin & Hfree).
    assert (Hne : fst (getRandomSpotIndex m rng) <> (-1)%Z).
    { destruct (decide (freeIndices m = [])) as [E | Hne].
      - exfalso. exact (proj1 (freeIndices_nil m) E sp0 Hin Hfree).
      - destruct (getRandomSpotIndex_pick m rng Hne) as (_ & j & _ & _ & _ & Hres).
        lia. }
    destruct (getRandomSpotIndex_free m rng Hne) as (j & sp & Hres & Hl & Hf).
    exists j, sp. repeat split; auto.
    rewrite Hres. unfold getSpot.
    destruct (Z.of_nat j <? 0)%Z eqn:Eneg; [lia |].
    rewrite Nat2Z.id, Hl. exact Hf.
  - apply freeIndicesFrom_NoDup.
  - apply freeIndices_spec.
  - unfold getRandomSpotIndex.
    destruct (freeIndices m) as [| j0 fs] eqn:E; [reflexivity |].
    set (l := j0 :: fs). apply list_eq. intros i.
    rewrite !list_lookup_fmap.
    destruct (decide (i < length l)%nat) as [Hlt | Hge].
    + rewrite lookup_seq_lt by exact Hlt. simpl.
      destruct (lookup_lt_is_Some_2 l i Hlt) as [j Hj]. rewrite Hj. simpl.
      rewrite Z.mod_small by (unfold l in *; simpl in *; lia).
      rewrite Z.add_0_l, Nat2Z.id, Hj. reflexivity.
    + rewrite lookup_seq_ge by lia.
      rewrite lookup_ge_None_2 by lia. reflexivity.
Qed.

Lemma freeIndicesFrom_length (ss : list Spot) (i : nat) :
  length (freeIndicesFrom i ss) = countState FREE ss.
Proof.
  unfold countState. revert i. induction ss as [| s ss IH]; intros i; simpl.
  - reflexivity.
  - rewrite filter_cons. destruct (decide (state s = FREE)); simpl; now rewrite IH.
Qed.

Lemma getSpotCounts_free_zero (m : Module_) :
  (free (getSpotCounts m) =? 0)%nat = true <-> freeIndices m = [].
Proof.
  rewrite Nat.eqb_eq. unfold getSpotCounts, freeIndices. simpl.
  rewrite <- (freeIndicesFrom_length (spots m) 0).
  destruct (freeIndicesFrom 0 (spots m)); simpl; split; intros E; congruence || lia.
Qed.

(** ** The road bounds *)

Section RoadBounds.
Import TrafficSystem.

Lemma scan_fold_bounds (modules : list Module_) (acc : Q * Q) :
  let res :=
    fold_left
      (fun (acc : Q * Q) (m : Module_) =>
         let '(minRoadX, maxRoadX) := acc in
         if isNormalRoad m then
           let x := vec_x (worldPosition m) in
           let w := getWidth m in
           (if Qltb x minRoadX then x else minRoadX,
            if Qltb maxRoadX (x + w) then x + w else maxRoadX)
         else acc)
      modules acc in
  fst res <= fst acc /\ snd acc <= snd res
  /\ forall m, m ∈ modules -> isNormalRoad m = true ->
               fst res <= vec_x (worldPosition m)
               /\ vec_x (worldPosition m) + getWidth m <= snd res.
Proof.
  revert acc. induction modules as [| m0 modules IH]; intros [mn mx]; simpl.
  - split; [apply Qle_refl | split; [apply Qle_refl |]].
    intros m Hin. inversion Hin.
  - match goal with
    | |- context [fold_left ?f modules ?a] =>
        specialize (IH a); destruct (fold_left f modules a) as [rmn rmx] eqn:Efold
    end.
    simpl in IH. destruct IH as (Hmn & Hmx & Hall).
    destruct (isNormalRoad m0) eqn:Eroad; simpl in *.
    + destruct (Qltb (vec_x (worldPosition m0)) mn) eqn:E1;
        destruct (Qltb mx (vec_x (worldPosition m0) + getWidth m0)) eqn:E2;
        simpl in *;
        try apply Qltb_lt in E1; try apply Qltb_ge in E1;
        try apply Qltb_lt in E2; try apply Qltb_ge in E2;
        (split; [lra | split; [lra |]]);
        intros m Hin Hm; apply elem_of_cons in Hin as [-> | Hin];
        try (apply Hall; assumption); split; lra.
    + split; [lra | split; [lra |]].
      intros m Hin Hm. apply elem_of_cons in Hin as [-> | Hin]; [congruence |].
      apply Hall; assumption.
Qed.

Lemma FLT_MAX_pos : 2 < FLT_MAX.
Proof. reflexivity. Qed.

(** The map bounds enclose every NormalRoad. *)
Lemma roadBounds_cover (modules : list Module_) (m : Module_) :
  m ∈ modules -> isNormalRoad m = true ->
  fst (roadBounds modules) <= vec_x (worldPosition m)
  /\ vec_x (worldPosition m) + getWidth m <= snd (roadBounds modules).
Proof.
  intros Hin Hroad. unfold roadBounds, scanRoads.
  pose proof (scan_fold_bounds modules (FLT_MAX, FLT_LOWEST)) as Hscan.
  simpl in Hscan.
  match type of Hscan with
  | context [fold_left ?f modules ?a] => destruct (fold_left f modules a) as [mn mx]
  end.
  simpl in Hscan. destruct Hscan as (Hmn & Hmx & Hall).
  destruct (Hall m Hin Hroad) as [Hlo Hhi].
  pose proof FLT_MAX_pos as Hbig. unfold FLT_LOWEST in *.
  split.
  - destruct (Qeq_bool mn FLT_MAX) eqn:E; simpl; [| exact Hlo].
    apply Qeq_bool_iff in E. lra.
  - destruct (Qeq_bool mx (- FLT_MAX)) eqn:E; simpl; [| exact Hhi].
    apply Qeq_bool_iff in E. lra.
Qed.

(** Each bound the scan ends with is the one it started with or the edge
    of a NormalRoad. *)
Lemma scan_fold_attained (modules : list Module_) (acc : Q * Q) :
  let res :=
    fold_left
      (fun (acc : Q * Q) (m : Module_) =>
         let '(minRoadX, maxRoadX) := acc in
         if isNormalRoad m then
           let x := vec_x (worldPosition m) in
           let w := getWidth m in
           (if Qltb x minRoadX then x else minRoadX,
            if Qltb maxRoadX (x + w) then x + w else maxRoadX)
         else acc)
      modules acc in
  (fst res = fst acc
   \/ exists m, m ∈ modules /\ isNormalRoad m = true
                /\ fst res = vec_x (worldPosition m))
  /\ (snd res = snd acc
      \/ exists m, m ∈ modules /\ isNormalRoad m = true
                   /\ snd res = vec_x (worldPosition m) + getWidth m).
Proof.
  revert acc. induction modules as [| m0 modules IH]; intros [mn mx]; simpl; [auto |].
  match goal with
  | |- context [fold_left ?f modules ?a] =>
      specialize (IH a); destruct (fold_left f modules a) as [rmn rmx] eqn:Efold
  end.
  simpl in IH. destruct IH as [Hmn Hmx].
  assert (Hlift : forall P : Module_ -> Prop,
             (exists m, m ∈ modules /\ isNormalRoad m = true /\ P m) ->
             exists m, m ∈ m0 :: modules /\ isNormalRoad m = true /\ P m).
  { intros P (m & Hin & Hr & HP). exists m. rewrite elem_of_cons. auto. }
  destruct (isNormalRoad m0) eqn:Eroad; simpl in *.
  - split.
    + destruct Hmn as [Hmn | Hmn]; [| right; apply (Hlift _ Hmn)].
      destruct (Qltb (vec_x (worldPosition m0)) mn); [| left; exact Hmn].
      right. exists m0. rewrite elem_of_cons. auto.
    + destruct Hmx as [Hmx | Hmx]; [| right; apply (Hlift _ Hmx)].
      destruct (Qltb mx (vec_x (worldPosition m0) + getWidth m0)); [| left; exact Hmx].
      right. exists m0. rewrite elem_of_cons. auto.
  - split.
    + destruct Hmn as [Hmn | Hmn]; [left; exact Hmn | right; apply (Hlift _ Hmn)].
    + destruct Hmx as [Hmx | Hmx]; [left; exact Hmx | right; apply (Hlift _ Hmx)].
Qed.

(** With the NormalRoads inside a range that holds the defaults 0 and 100,
    the map bounds are inside it too. *)
Lemma roadBounds_within (bound : Q) (modules : list Module_) :
  100 <= bound ->
  (forall m, m ∈ modules -> isNormalRoad m = true ->
             within bound (vec_x (worldPosition m))
             /\ within bound (vec_x (worldPosition m) + getWidth m)) ->
  within bound (fst (roadBounds modules)) /\ within bound (snd (roadBounds modules)).
Proof.
  intros Hbound Hall. unfold roadBounds, scanRoads.
  pose proof (scan_fold_attained modules (FLT_MAX, FLT_LOWEST)) as Hscan.
  simpl in Hscan.
  match type of Hscan with
  | context [fold_left ?f modules ?a] => destruct (fold_left f modules a) as [mn mx]
  end.
  simpl in Hscan. destruct Hscan as [Hmn Hmx].
  assert (Hzero : within bound 0) by (apply Qabs_Qle_condition; lra).
  assert (Hhundred : within bound 100) by (apply Qabs_Qle_condition; lra).
  split; simpl.
  - destruct (Qeq_bool mn FLT_MAX) eqn:E; [exact Hzero |].
    destruct Hmn as [-> | (m & Hin & Hroad & ->)].
    + rewrite Qeq_bool_refl in E. discriminate.
    + apply (Hall m Hin Hroad).
  - destruct (Qeq_bool mx FLT_LOWEST) eqn:E; [exact Hhundred |].
    destruct Hmx as [-> | (m & Hin & Hroad & ->)].
    + rewrite Qeq_bool_refl in E. discriminate.
    + apply (Hall m Hin Hroad).
Qed.

(** Adding or subtracting 2 in float32 is not absorbed by a bound of
    magnitude up to 2^24: every rounding of the sum is strictly beyond the
    bound. *)
Lemma rounded_beyond (b x' : Q) :
  within 16777216 b ->
  (roundsTo (b + 2) x' -> b < x') /\ (roundsTo (b - 2) x' -> x' < b).
Proof.
  unfold within, roundsTo. intros Hb. apply Qabs_Qle_condition in Hb.
  split; intros Hr.
  - assert (Hsum : Qabs (b + 2) <= 16777218) by (apply Qabs_Qle_condition; lra).
    assert (Herr : Qabs (x' - (b + 2)) <= 16777218 / 16777216).
    { eapply Qle_trans; [exact Hr |].
      apply Qmult_le_compat_r; [exact Hsum | discriminate]. }
    apply Qabs_Qle_condition in Herr.
    assert (Hsmall' : 16777218 / 16777216 < 2) by reflexivity.
    revert Herr Hsmall'. generalize (16777218 / 16777216). intros e' Herr Hsmall'. lra.
  - assert (Hsum : Qabs (b - 2) <= 16777218) by (apply Qabs_Qle_condition; lra).
    assert (Herr : Qabs (x' - (b - 2)) <= 16777218 / 16777216).
    { eapply Qle_trans; [exact Hr |].
      apply Qmult_le_compat_r; [exact Hsum | discriminate]. }
    apply Qabs_Qle_condition in Herr.
    assert (Hsmall' : 16777218 / 16777216 < 2) by reflexivity.
    revert Herr Hsmall'. generalize (16777218 / 16777216). intros e' Herr Hsmall'. lra.
Qed.

(** ... and for a bound of magnitude up to 2^20 it lands within 0.1 of the
    exact sum. *)
Lemma rounded_near (b x' : Q) :
  within 1048576 b ->
  (roundsTo (b + 2) x' -> b + 1.9 < x' /\ x' < b + 2.1)
  /\ (roundsTo (b - 2) x' -> b - 2.1 < x' /\ x' < b - 1.9).
Proof.
  unfold within, roundsTo. intros Hb. apply Qabs_Qle_condition in Hb.
  split; intros Hr.
  - assert (Hsum : Qabs (b + 2) <= 1048578) by (apply Qabs_Qle_condition; lra).
    assert (Herr : Qabs (x' - (b + 2)) <= 1048578 / 16777216).
    { eapply Qle_trans; [exact Hr |].
      apply Qmult_le_compat_r; [exact Hsum | discriminate]. }
    apply Qabs_Qle_condition in Herr.
    assert (Hsmall : 1048578 / 16777216 < 0.1) by reflexivity.
    revert Herr Hsmall. generalize (1048578 / 16777216). intros e Herr Hsmall. lra.
  - assert (Hsum : Qabs (b - 2) <= 1048578) by (apply Qabs_Qle_condition; lra).
    assert (Herr : Qabs (x' - (b - 2)) <= 1048578 / 16777216).
    { eapply Qle_trans; [exact Hr |].
      apply Qmult_le_compat_r; [exact Hsum | discriminate]. }
    apply Qabs_Qle_condition in Herr.
    assert (Hsmall : 1048578 / 16777216 < 0.1) by reflexivity.
    revert Herr Hsmall. generalize (1048578 / 16777216). intros e Herr Hsmall. lra.
Qed.

Lemma roundsTo_exact (q : Q) : roundsTo q q.
Proof.
  unfold roundsTo. assert (E : q - q == 0) by ring. rewrite E.
  change (Qabs 0) with 0.
  apply Qmult_le_0_compat; [apply Qabs_nonneg | discriminate].
Qed.
End RoadBounds.

(** ** The CarSpawnedEvent handler *)

Section SpawnFacts.
Context `{Config} `{Raymath} `{ExitPlanner}.
Import TrafficSystem.

Lemma modulesWhereFrom_lookup (p : Module_ -> bool) (modules : list Module_)
      (k i : nat) (m : Module_) :
  (i, m) ∈ modulesWhereFrom k p modules ->
  exists n, i = (k + n)%nat /\ modules !! n = Some m /\ p m = true.
Proof.
  revert k. induction modules as [| m0 modules IH]; intros k Hin; simpl in Hin.
  - inversion Hin.
  - destruct (p m0) eqn:Ep.
    + apply elem_of_cons in Hin as [Heq | Hin].
      * inversion Heq; subst. exists 0%nat. split; [lia | auto].
      * destruct (IH _ Hin) as (n & -> & Hl & Hp).
        exists (S n). split; [lia | auto].
    + destruct (IH _ Hin) as (n & -> & Hl & Hp).
      exists (S n). split; [lia | auto].
Qed.

Lemma modulesWhere_lookup (p : Module_ -> bool) (modules : list Module_)
      (i : nat) (m : Module_) :
  (i, m) ∈ modulesWhere p modules -> modules !! i = Some m /\ p m = true.
Proof.
  intros Hin. apply modulesWhereFrom_lookup in Hin as (n & -> & Hl & Hp). auto.
Qed.

Lemma eligibleFacilities_lookup (type : CarType) (seek : bool)
      (modules : list Module_) (i : nat) (m : Module_) :
  (i, m) ∈ eligibleFacilities type seek modules ->
  modules !! i = Some m /\ (isParking m = true \/ isChargingStation m = true).
Proof.
  unfold eligibleFacilities. intros Hin.
  assert (Hcase : (i, m) ∈ modulesWhere isParking modules
                  \/ (i, m) ∈ modulesWhere isChargingStation modules).
  { destruct type, seek; simpl in Hin;
      repeat match type of Hin with
             | _ ∈ match ?l with _ => _ end => destruct l eqn:?
             end; auto; try (inversion Hin; fail);
      try (left; congruence); try (right; congruence). }
  destruct Hcase as [Hc | Hc]; apply modulesWhere_lookup in Hc as [Hl Hp]; auto.
Qed.

(** A facility without FREE spot leaves the running best untouched. *)
Lemma distanceStep_full (carPos : Vector2) (sel : Selection) (f : nat * Module_) :
  freeIndices (snd f) = [] -> distanceStep carPos sel f = sel.
Proof.
  intros E. unfold distanceStep.
  now rewrite (proj2 (getSpotCounts_free_zero (snd f)) E).
Qed.

Lemma priceStep_full (sel : Selection) (f : nat * Module_) :
  freeIndices (snd f) = [] -> priceStep sel f = sel.
Proof.
  intros E. unfold priceStep. rewrite (getRandomSpotIndex_none _ _ E). simpl.
  now destruct sel.
Qed.

Lemma selectFacility_all_full (car : Car) (facilities : list (nat * Module_)) (rng : Rng) :
  (forall f, f ∈ facilities -> freeIndices (snd f) = []) ->
  selectFacility car facilities rng = mkSelection None (-1) FLT_MAX rng.
Proof.
  intros Hfull. unfold selectFacility.
  generalize (mkSelection None (-1) FLT_MAX rng) as sel.
  induction facilities as [| f fs IH]; intros sel.
  - now destruct (getPriority car).
  - assert (Hf : freeIndices (snd f) = []) by (apply Hfull; left).
    assert (Hfs : forall g, g ∈ fs -> freeIndices (snd g) = [])
      by (intros g Hg; apply Hfull; now right).
    specialize (IH Hfs).
    destruct (getPriority car); simpl in *.
    + rewrite (priceStep_full _ _ Hf). apply IH.
    + rewrite (distanceStep_full _ _ _ Hf). apply IH.
Qed.

Lemma finalSelection_all_full (facilities : list (nat * Module_)) (rng : Rng) :
  (forall f, f ∈ facilities -> freeIndices (snd f) = []) ->
  snd (fst (finalSelection facilities (mkSelection None (-1) FLT_MAX rng))) = (-1)%Z.
Proof.
  intros Hfull. unfold finalSelection, fallbackRandom, pickRandomFacility. simpl.
  destruct facilities as [| f0 fs] eqn:Efac; [reflexivity |].
  rewrite <- Efac in *.
  destruct (GetRandomValue 0 (Z.of_nat (length facilities) - 1) rng) as [r rng1].
  destruct (facilities !! Z.to_nat r) as [f |] eqn:El; [| reflexivity].
  assert (Hf : freeIndices (snd f) = []).
  { apply Hfull. apply list_elem_of_lookup. eauto. }
  rewrite (getRandomSpotIndex_none _ _ Hf). simpl.
  rewrite (getRandomSpotIndex_none _ _ Hf). reflexivity.
Qed.

(** The outcome of the handler when the final spot index is -1. *)
Lemma onCarSpawned_none (k : nat) (st : Store) (car : Car) (rng : Rng) :
  eligibleFacilities (getType car) (fst (decideSeekCharging car rng)) (st_modules st) <> [] ->
  snd (fst (finalSelection
              (eligibleFacilities (getType car) (fst (decideSeekCharging car rng))
                                  (st_modules st))
              (selectFacility car
                 (eligibleFacilities (getType car) (fst (decideSeekCharging car rng))
                                     (st_modules st))
                 (snd (decideSeekCharging car rng))))) = (-1)%Z ->
  sp_store (onCarSpawned k st car rng) = st
  /\ sp_published (onCarSpawned k st car rng) = Some (throughPath (st_modules st) car)
  /\ sp_car (onCarSpawned k st car rng)
     = setState EXITING (setPath (throughPath (st_modules st) car) car).
Proof.
  unfold onCarSpawned.
  destruct (decideSeekCharging car rng) as [seek rng1]. simpl fst. simpl snd.
  intros Hne Hidx.
  destruct (eligibleFacilities (getType car) seek (st_modules st))
    as [| f0 fs] eqn:Efac; [contradiction |].
  rewrite <- Efac in *.
  destruct (finalSelection _ (selectFacility car _ rng1)) as [[tf idx] rng2].
  simpl in Hidx. subst idx.
  destruct tf as [[fac mfac] |]; simpl; auto.
Qed.

Lemma throughPath_shape (modules : list Module_) (car : Car) :
  exists wp,
    throughPath modules car = [wp]
    /\ stopAtEnd wp = true
    /\ vec_y (position wp) = vec_y (getPosition car)
    /\ vec_x (position wp) =
       if Qltb 0 (vec_x (getVelocity car))
       then snd (roadBounds modules) + 2
       else fst (roadBounds modules) - 2.
Proof.
  unfold throughPath. destruct (roadBounds modules) as [mn mx].
  eexists. split; [reflexivity |].
  simpl. repeat split.
Qed.

(** C6, as the handler has it.  When the map holds at least one facility
    of the class the vehicle looks for and none of them has a FREE spot, the
    handler neither drops the spawn nor reserves anything: the module vector
    and the write log are untouched, the vehicle gets a path of one waypoint
    that stops at the end, its state is EXITING, and the path is published.
    With the NormalRoads (the roads the handler scans for the bounds) within
    2^24 of the origin, the waypoint's x, in every float32 rounding of the sum
    that gives it, lies strictly beyond every NormalRoad in the direction of
    travel: past the right edges when velocity.x > 0, before the left edges
    otherwise. *)
Theorem onCarSpawned_through_traffic (k : nat) (st : Store) (car : Car) (rng : Rng) :
  eligibleFacilities (getType car) (fst (decideSeekCharging car rng)) (st_modules st) <> [] ->
  (forall f,
      f ∈ eligibleFacilities (getType car) (fst (decideSeekCharging car rng)) (st_modules st) ->
      forall sp, sp ∈ spots (snd f) -> state sp <> FREE) ->
  (forall m, m ∈ st_modules st -> isNormalRoad m = true ->
             within 16777216 (vec_x (worldPosition m))
             /\ within 16777216 (vec_x (worldPosition m) + getWidth m)) ->
  exists wp : Waypoint,
    sp_store (onCarSpawned k st car rng) = st
    /\ sp_published (onCarSpawned k st car rng) = Some [wp]
    /\ getPath (sp_car (onCarSpawned k st car rng)) = [wp]
    /\ getState (sp_car (onCarSpawned k st car rng)) = EXITING
    /\ getParkedFacility (sp_car (onCarSpawned k st car rng)) = getParkedFacility car
    /\ stopAtEnd wp = true
    /\ forall x', roundsTo (vec_x (position wp)) x' ->
         (0 < vec_x (getVelocity car) ->
          forall m, m ∈ st_modules st -> isNormalRoad m = true ->
                    vec_x (worldPosition m) + getWidth m < x')
         /\ (~ 0 < vec_x (getVelocity car) ->
             forall m, m ∈ st_modules st -> isNormalRoad m = true ->
                       x' < vec_x (worldPosition m)).
Proof.
  intros Hne Hfull Hrange.
  assert (Hnil : forall f,
             f ∈ eligibleFacilities (getType car) (fst (decideSeekCharging car rng))
                   (st_modules st) ->
             freeIndices (snd f) = []).
  { intros f Hf. apply freeIndices_nil. exact (Hfull f Hf). }
  destruct (onCarSpawned_none k st car rng Hne) as (Hst & Hpub & Hcar).
  { rewrite (selectFacility_all_full _ _ _ Hnil).
    exact (finalSelection_all_full _ _ Hnil). }
  destruct (throughPath_shape (st_modules st) car) as (wp & Hpath & Hstop & _ & Hx).
  destruct (roadBounds_within 16777216 (st_modules st)) as [Wmin Wmax];
    [discriminate | exact Hrange |].
  exists wp. rewrite Hst, Hpub, Hcar, Hpath.
  split; [reflexivity |]. split; [reflexivity |].
  split; [reflexivity |]. split; [reflexivity |].
  split; [reflexivity |]. split; [exact Hstop |].
  intros x' Hx'. rewrite Hx in Hx'. split.
  - intros Hpos m Hin Hroad. apply Qltb_lt in Hpos. rewrite Hpos in Hx'.
    apply (rounded_beyond _ x' Wmax) in Hx'.
    destruct (roadBounds_cover _ _ Hin Hroad) as [_ Hhi].
    eapply Qle_lt_trans; [exact Hhi | exact Hx'].
  - intros Hneg m Hin Hroad.
    destruct (Qltb 0 (vec_x (getVelocity car))) eqn:E.
    + apply Qltb_lt in E. contradiction.
    + apply (rounded_beyond _ x' Wmin) in Hx'.
      destruct (roadBounds_cover _ _ Hin Hroad) as [Hlo _].
      eapply Qlt_le_trans; [exact Hx' | exact Hlo].
Qed.
End SpawnFacts.

(** ** Spot writes *)

Section StoreFacts.
Import TrafficSystem Run.

Lemma spots_setSpotState (idx : Z) (s : SpotState) (m : Module_) :
  (0 <= idx)%Z ->
  spots (setSpotState idx s m) = alter (withState s) (Z.to_nat idx) (spots m).
Proof.
  intros Hidx. unfold setSpotState.
  destruct (idx <? 0)%Z eqn:E; [lia | reflexivity].
Qed.

(** A write sets the state of the spot it names, if there is such a spot. *)
Lemma spotStateAt_write_same (fac : nat) (idx : Z) (s : SpotState) (modules : list Module_) :
  spotStateAt fac idx (alter (setSpotState idx s) fac modules)
  = (fun _ => s) <$> spotStateAt fac idx modules.
Proof.
  unfold spotStateAt. destruct (idx <? 0)%Z eqn:E; [reflexivity |].
  rewrite list_lookup_alter_eq.
  destruct (modules !! fac) as [m |]; [| reflexivity]. simpl.
  rewrite spots_setSpotState by lia. rewrite list_lookup_alter_eq.
  destruct (spots m !! Z.to_nat idx); reflexivity.
Qed.

(** ... and leaves every other spot as it was. *)
Lemma spotStateAt_write_other (fac fac' : nat) (idx idx' : Z) (s : SpotState)
      (modules : list Module_) :
  (fac, idx) <> (fac', idx') ->
  spotStateAt fac' idx' (alter (setSpotState idx s) fac modules)
  = spotStateAt fac' idx' modules.
Proof.
  intros Hne. unfold spotStateAt. destruct (idx' <? 0)%Z eqn:E'; [reflexivity |].
  destruct (decide (fac = fac')) as [-> | Hfac].
  - rewrite list_lookup_alter_eq.
    destruct (modules !! fac') as [m |]; [| reflexivity]. simpl.
    unfold setSpotState. destruct (idx <? 0)%Z eqn:E; [reflexivity |]. simpl.
    rewrite list_lookup_alter_ne; [reflexivity |].
    intros Heq. apply Hne. f_equal. lia.
  - rewrite list_lookup_alter_ne by exact Hfac. reflexivity.
Qed.

Lemma getSpot_state (m : Module_) (idx : Z) (fac : nat) (modules : list Module_) (s : SpotState) :
  modules !! fac = Some m ->
  spotStateAt fac idx modules = Some s ->
  state (getSpot m idx) = s.
Proof.
  unfold spotStateAt, getSpot. intros Hm.
  destruct (idx <? 0)%Z; [discriminate |].
  rewrite Hm. simpl. destruct (spots m !! Z.to_nat idx); simpl; congruence.
Qed.
End StoreFacts.

(** ** The tick handler: dwell, charge and exit *)

Section TickFacts.
Context `{Config} `{Raymath} `{ExitPlanner}.
Import TrafficSystem Run.

Lemma exitProbability_linear (bat dt : Q) :
  exitProbability bat dt
  == (0.5 * dt / (BATTERY_FORCE_EXIT_THRESHOLD - BATTERY_EXIT_THRESHOLD)) * bat
     + - ((0.5 * dt / (BATTERY_FORCE_EXIT_THRESHOLD - BATTERY_EXIT_THRESHOLD))
          * BATTERY_EXIT_THRESHOLD).
Proof.
  unfold exitProbability, Qdiv. ring.
Qed.

Lemma exitProbability_monotone (bat bat' dt : Q) :
  BATTERY_EXIT_THRESHOLD < BATTERY_FORCE_EXIT_THRESHOLD ->
  0 <= dt -> bat <= bat' ->
  exitProbability bat dt <= exitProbability bat' dt.
Proof.
  intros Hband Hdt Hle. rewrite !exitProbability_linear.
  set (range := BATTERY_FORCE_EXIT_THRESHOLD - BATTERY_EXIT_THRESHOLD).
  assert (Hinv : 0 < / range) by (apply Qinv_lt_0_compat; unfold range; lra).
  assert (Hslope : 0 <= 0.5 * dt / range).
  { unfold Qdiv. apply Qmult_le_0_compat; [| lra].
    apply Qmult_le_0_compat; [lra | exact Hdt]. }
  apply Qplus_le_l. rewrite !(Qmult_comm (0.5 * dt / range)).
  apply Qmult_le_compat_r; assumption.
Qed.

Lemma exitProbability_increasing (bat bat' dt : Q) :
  BATTERY_EXIT_THRESHOLD < BATTERY_FORCE_EXIT_THRESHOLD ->
  0 < dt -> bat < bat' ->
  exitProbability bat dt < exitProbability bat' dt.
Proof.
  intros Hband Hdt Hlt. rewrite !exitProbability_linear.
  set (range := BATTERY_FORCE_EXIT_THRESHOLD - BATTERY_EXIT_THRESHOLD).
  assert (Hinv : 0 < / range) by (apply Qinv_lt_0_compat; unfold range; lra).
  assert (Hslope : 0 < 0.5 * dt / range).
  { unfold Qdiv. apply Qmult_lt_0_compat; [| exact Hinv].
    apply Qmult_lt_0_compat; [lra | exact Hdt]. }
  apply Qplus_lt_l. rewrite !(Qmult_comm (0.5 * dt / range)).
  apply Qmult_lt_compat_r; assumption.
Qed.

(** The decision of the charging logic grows with the battery level: with
    the same draw, a vehicle that leaves at some level leaves at any higher
    one. *)
Lemma chargingExit_monotone (bat bat' dt : Q) (rng : Rng) :
  0 <= dt -> bat <= bat' ->
  fst (chargingExit bat dt rng) = true -> fst (chargingExit bat' dt rng) = true.
Proof.
  intros Hdt Hle. unfold chargingExit.
  destruct (Qltb BATTERY_FORCE_EXIT_THRESHOLD bat') eqn:Ef'; [reflexivity |].
  apply Qltb_ge in Ef'.
  destruct (Qltb BATTERY_FORCE_EXIT_THRESHOLD bat) eqn:Ef.
  { apply Qltb_lt in Ef. lra. }
  destruct (Qltb BATTERY_EXIT_THRESHOLD bat) eqn:Ee; [| discriminate].
  apply Qltb_lt in Ee.
  assert (Ee' : Qltb BATTERY_EXIT_THRESHOLD bat' = true) by (apply Qltb_lt; lra).
  rewrite Ee'.
  destruct (GetRandomValue 0 10000 rng) as [r rng'].
  destruct (Qltb (inject_Z r / 10000) (exitProbability bat dt)) eqn:Ep; [| discriminate].
  intros _. apply Qltb_lt in Ep.
  assert (Hp : exitProbability bat dt <= exitProbability bat' dt).
  { apply exitProbability_monotone; [lra | assumption | assumption]. }
  assert (Ep' : Qltb (inject_Z r / 10000) (exitProbability bat' dt) = true)
    by (apply Qltb_lt; lra).
  now rewrite Ep'.
Qed.

(** C8. A PARKED electric vehicle at a charging station is charged by the
    charge rate times dt and leaves on battery grounds alone: the answer of
    the dwell timer is never consulted; above the force-exit threshold it
    leaves whatever the draw, at or below the exit threshold it stays, and in
    the band between the two it leaves when the draw falls below a
    probability that is a linear, increasing function of the battery level.
    Every other PARKED vehicle leaves exactly when its dwell timer says so:
    no charge, no draw. *)
Theorem parkedLogic_split (dt : Q) (modules : list Module_) (car : Car) (rng : Rng) :
  getState car = PARKED ->
  0 <= dt ->
  (isChargingSpot modules car = true -> getType car = ELECTRIC ->
   snd (fst (parkedLogic dt modules car rng)) = charge (CHARGING_RATE * dt) car
   /\ getBatteryLevel (snd (fst (parkedLogic dt modules car rng)))
      = getBatteryLevel car + CHARGING_RATE * dt
   /\ fst (fst (parkedLogic dt modules car rng))
      = fst (chargingExit (getBatteryLevel car + CHARGING_RATE * dt) dt rng)
   /\ (forall b : bool,
          fst (fst (parkedLogic dt modules (withReadyToLeave b car) rng))
          = fst (fst (parkedLogic dt modules car rng)))
   /\ (BATTERY_FORCE_EXIT_THRESHOLD < getBatteryLevel car + CHARGING_RATE * dt ->
       fst (fst (parkedLogic dt modules car rng)) = true)
   /\ (BATTERY_EXIT_THRESHOLD <= BATTERY_FORCE_EXIT_THRESHOLD ->
       getBatteryLevel car + CHARGING_RATE * dt <= BATTERY_EXIT_THRESHOLD ->
       fst (fst (parkedLogic dt modules car rng)) = false)
   /\ (BATTERY_EXIT_THRESHOLD < getBatteryLevel car + CHARGING_RATE * dt ->
       getBatteryLevel car + CHARGING_RATE * dt <= BATTERY_FORCE_EXIT_THRESHOLD ->
       fst (fst (parkedLogic dt modules car rng))
       = Qltb (inject_Z (fst (GetRandomValue 0 10000 rng)) / 10000)
              (exitProbability (getBatteryLevel car + CHARGING_RATE * dt) dt)
       /\ exitProbability (getBatteryLevel car + CHARGING_RATE * dt) dt
          == (0.5 * dt / (BATTERY_FORCE_EXIT_THRESHOLD - BATTERY_EXIT_THRESHOLD))
             * (getBatteryLevel car + CHARGING_RATE * dt)
             + - ((0.5 * dt / (BATTERY_FORCE_EXIT_THRESHOLD - BATTERY_EXIT_THRESHOLD))
                  * BATTERY_EXIT_THRESHOLD)
       /\ (forall bat bat', bat <= bat' ->
             exitProbability bat dt <= exitProbability bat' dt)
       /\ (forall bat bat', 0 < dt -> bat < bat' ->
             exitProbability bat dt < exitProbability bat' dt))
   /\ (forall bat bat', bat <= bat' ->
         fst (chargingExit bat dt rng) = true ->
         fst (chargingExit bat' dt rng) = true))
  /\ (isChargingSpot modules car = false \/ getType car = COMBUSTION ->
      parkedLogic dt modules car rng = (isReadyToLeave car, car, rng)).
Proof.
  intros Hparked Hdt. split.
  - intros Hspot Helec.
    assert (Hpl : forall c : Car,
               getState c = PARKED -> isChargingSpot modules c = true ->
               getType c = ELECTRIC ->
               parkedLogic dt modules c rng
               = (fst (chargingExit (getBatteryLevel c + CHARGING_RATE * dt) dt rng),
                  charge (CHARGING_RATE * dt) c,
                  snd (chargingExit (getBatteryLevel c + CHARGING_RATE * dt) dt rng))).
    { intros c Hs Hc Ht. unfold parkedLogic.
      rewrite bool_decide_eq_true_2 by exact Hs. rewrite Hc.
      rewrite bool_decide_eq_true_2 by exact Ht. simpl.
      now destruct (chargingExit (getBatteryLevel c + CHARGING_RATE * dt) dt rng). }
    rewrite (Hpl car Hparked Hspot Helec). simpl.
    split; [reflexivity |]. split; [reflexivity |]. split; [reflexivity |].
    split.
    { intros b. rewrite (Hpl (withReadyToLeave b car)); auto. }
    split.
    { intros Hforce. unfold chargingExit.
      apply Qltb_lt in Hforce. now rewrite Hforce. }
    split.
    { intros Hord Hlow. unfold chargingExit.
      assert (E1 : Qltb BATTERY_EXIT_THRESHOLD
                        (getBatteryLevel car + CHARGING_RATE * dt) = false)
        by (apply Qltb_ge; exact Hlow).
      assert (E2 : Qltb BATTERY_FORCE_EXIT_THRESHOLD
                        (getBatteryLevel car + CHARGING_RATE * dt) = false)
        by (apply Qltb_ge; lra).
      now rewrite E2, E1. }
    split.
    { intros Hlo Hhi.
      assert (Hband : BATTERY_EXIT_THRESHOLD < BATTERY_FORCE_EXIT_THRESHOLD) by lra.
      split.
      - unfold chargingExit.
        assert (E2 : Qltb BATTERY_FORCE_EXIT_THRESHOLD
                          (getBatteryLevel car + CHARGING_RATE * dt) = false)
          by (apply Qltb_ge; exact Hhi).
        apply Qltb_lt in Hlo. rewrite E2, Hlo.
        destruct (GetRandomValue 0 10000 rng) as [r rng']. simpl.
        now destruct (Qltb (inject_Z r / 10000)
                           (exitProbability (getBatteryLevel car + CHARGING_RATE * dt) dt)).
      - split; [apply exitProbability_linear |].
        split.
        + intros bat bat' Hle. now apply exitProbability_monotone.
        + intros bat bat' Hpos Hlt. now apply exitProbability_increasing. }
    intros bat bat' Hle. now apply chargingExit_monotone.
  - intros Hother. unfold parkedLogic.
    rewrite bool_decide_eq_true_2 by exact Hparked.
    destruct Hother as [Hspot | Htype].
    + now rewrite Hspot.
    + rewrite (bool_decide_eq_false_2 (getType car = ELECTRIC)) by congruence.
      now rewrite andb_false_r.
Qed.

(** What the promotion does: nothing, or one write of OCCUPIED to the spot
    of the vehicle's parking context, found RESERVED, for a vehicle that is
    ALIGNING or PARKED. *)
Lemma promote_cases (k : nat) (car : Car) (st : Store) :
  promote k car st = st
  \/ exists fac m,
      (getState car = ALIGNING \/ getState car = PARKED)
      /\ getParkedFacility car = Some fac
      /\ getParkedSpotIndex car <> (-1)%Z
      /\ st_modules st !! fac = Some m
      /\ state (getSpot m (getParkedSpotIndex car)) = RESERVED
      /\ promote k car st = writeSpot k fac (getParkedSpotIndex car) OCCUPIED st.
Proof.
  unfold promote.
  destruct (bool_decide (getState car = ALIGNING) || bool_decide (getState car = PARKED))
    eqn:Es; [| now left].
  destruct (getParkedFacility car) as [fac |] eqn:Ef; [| now left].
  destruct (getParkedSpotIndex car =? -1)%Z eqn:Ei; [now left |].
  destruct (st_modules st !! fac) as [m |] eqn:Em; [| now left].
  destruct (bool_decide (state (getSpot m (getParkedSpotIndex car)) = RESERVED)) eqn:Er;
    [| now left].
  right. exists fac, m.
  apply bool_decide_eq_true in Er. apply Z.eqb_neq in Ei.
  apply orb_true_iff in Es as [Es | Es]; apply bool_decide_eq_true in Es; auto 10.
Qed.

Lemma promote_keeps_spot (k : nat) (car : Car) (st : Store) (fac : nat) (idx : Z)
      (old : SpotState) :
  spotStateAt fac idx (st_modules st) = Some old ->
  exists s, spotStateAt fac idx (st_modules (promote k car st)) = Some s.
Proof.
  intros Hold.
  destruct (promote_cases k car st) as [-> | (f & m & _ & _ & _ & _ & _ & ->)]; [eauto |].
  simpl.
  destruct (decide ((f, getParkedSpotIndex car) = (fac, idx))) as [Heq | Hne].
  - inversion Heq; subst. rewrite spotStateAt_write_same, Hold. simpl. eauto.
  - rewrite spotStateAt_write_other by exact Hne. eauto.
Qed.

(** The dwell and charge logic changes nothing of a vehicle but its
    battery level, and only a PARKED vehicle can decide to leave. *)
Lemma parkedLogic_car (dt : Q) (modules : list Module_) (car : Car) (rng : Rng) :
  (snd (fst (parkedLogic dt modules car rng)) = car
   \/ snd (fst (parkedLogic dt modules car rng)) = charge (CHARGING_RATE * dt) car)
  /\ (fst (fst (parkedLogic dt modules car rng)) = true -> getState car = PARKED).
Proof.
  unfold parkedLogic.
  destruct (bool_decide (getState car = PARKED)) eqn:Es.
  - apply bool_decide_eq_true in Es.
    destruct (isChargingSpot modules car && bool_decide (getType car = ELECTRIC)).
    + destruct (chargingExit _ dt rng). simpl. auto.
    + simpl. auto.
  - simpl. split; [auto | discriminate].
Qed.

Lemma parkedLogic_context (dt : Q) (modules : list Module_) (car : Car) (rng : Rng) :
  let car1 := snd (fst (parkedLogic dt modules car rng)) in
  getParkedFacility car1 = getParkedFacility car
  /\ getParkedSpotIndex car1 = getParkedSpotIndex car
  /\ getParkedSpot car1 = getParkedSpot car
  /\ getPriority car1 = getPriority car
  /\ getEnteredFromLeft car1 = getEnteredFromLeft car
  /\ getState car1 = getState car.
Proof.
  destruct (parkedLogic_car dt modules car rng) as [[E | E] _]; rewrite E;
    repeat split.
Qed.

(** The iteration of a vehicle that decides to leave and holds a spot. *)
Lemma tickCar_exit_form (bounds : Q * Q) (dt : Q) (k : nat) (st : Store) (car : Car)
      (rng : Rng) (fac : nat) :
  fst (fst (parkedLogic dt (st_modules (promote k car st)) car rng)) = true ->
  getParkedFacility car = Some fac ->
  getParkedSpotIndex car <> (-1)%Z ->
  let idx := getParkedSpotIndex car in
  let car1 := snd (fst (parkedLogic dt (st_modules (promote k car st)) car rng)) in
  let rng1 := snd (parkedLogic dt (st_modules (promote k car st)) car rng) in
  let exitRight := fst (decideExitRight car1 rng1) in
  let finalX := if exitRight then snd bounds + 2 else fst bounds - 2 in
  tickCar bounds dt k st car rng
  = mkTicked (writeSpot k fac idx FREE (promote k car st))
             (setState EXITING
                (setPath (GenerateExitPath car1
                            (deref (st_modules (writeSpot k fac idx FREE (promote k car st)))
                                   fac)
                            (getParkedSpot car) exitRight finalX) car1))
             (snd (decideExitRight car1 rng1))
             false.
Proof.
  intros Hexit Hfac Hidx idx car1 rng1 exitRight finalX.
  destruct (parkedLogic_context dt (st_modules (promote k car st)) car rng)
    as (Cf & Ci & Cs & _).
  fold car1 in Cf, Ci, Cs.
  unfold tickCar.
  destruct (parkedLogic dt (st_modules (promote k car st)) car rng)
    as [[shouldExit c1] r1] eqn:Epl.
  simpl in Hexit, car1, rng1. subst shouldExit car1 rng1.
  unfold leaveParking. destruct bounds as [minRoadX maxRoadX].
  rewrite Cf, Hfac, Ci, Cs. fold idx.
  destruct (idx =? -1)%Z eqn:E; [apply Z.eqb_eq in E; contradiction |].
  subst exitRight finalX. simpl fst. simpl snd.
  destruct (decideExitRight c1 r1) as [er r2]. reflexivity.
Qed.

(** C7. A parked vehicle that decides to leave and holds a spot: the spot
    is written FREE, and the facility handed to the exit planner is read
    after that write; a DISTANCE-priority vehicle leaves on the side it came
    from (exitRight is the negation of enteredFromLeft, whatever the tape),
    any other vehicle on the side the next draw gives; the vehicle ends the
    iteration with the exit path and in state EXITING. *)
Theorem tickCar_exit (bounds : Q * Q) (dt : Q) (k : nat) (st : Store) (car : Car)
        (rng : Rng) (fac : nat) :
  fst (fst (parkedLogic dt (st_modules (promote k car st)) car rng)) = true ->
  getParkedFacility car = Some fac ->
  getParkedSpotIndex car <> (-1)%Z ->
  let idx := getParkedSpotIndex car in
  let car1 := snd (fst (parkedLogic dt (st_modules (promote k car st)) car rng)) in
  let rng1 := snd (parkedLogic dt (st_modules (promote k car st)) car rng) in
  let exitRight := fst (decideExitRight car1 rng1) in
  let finalX := if exitRight then snd bounds + 2 else fst bounds - 2 in
  let t := tickCar bounds dt k st car rng in
  getState car = PARKED
  /\ tk_store t = writeSpot k fac idx FREE (promote k car st)
  /\ (forall old, spotStateAt fac idx (st_modules st) = Some old ->
                  spotStateAt fac idx (st_modules (tk_store t)) = Some FREE)
  /\ getPath (tk_car t)
     = GenerateExitPath car1 (deref (st_modules (tk_store t)) fac)
                        (getParkedSpot car) exitRight finalX
  /\ (getPriority car = PRIORITY_DISTANCE ->
      exitRight = negb (getEnteredFromLeft car)
      /\ forall tape, fst (decideExitRight car1 tape) = negb (getEnteredFromLeft car))
  /\ (getPriority car <> PRIORITY_DISTANCE ->
      exitRight = (fst (GetRandomValue 0 1 rng1) =? 1)%Z)
  /\ getState (tk_car t) = EXITING.
Proof.
  intros Hexit Hfac Hidx idx car1 rng1 exitRight finalX t.
  destruct (parkedLogic_car dt (st_modules (promote k car st)) car rng) as [_ Hparked].
  specialize (Hparked Hexit).
  destruct (parkedLogic_context dt (st_modules (promote k car st)) car rng)
    as (Cf & Ci & Cs & Cp & Ce & _).
  fold car1 in Cf, Ci, Cs, Cp, Ce.
  assert (Ht : t = mkTicked (writeSpot k fac idx FREE (promote k car st))
                            (setState EXITING
                               (setPath (GenerateExitPath car1
                                           (deref (st_modules
                                                     (writeSpot k fac idx FREE
                                                                (promote k car st))) fac)
                                           (getParkedSpot car) exitRight finalX) car1))
                            (snd (decideExitRight car1 rng1))
                            false)
    by (apply tickCar_exit_form; assumption).
  split; [exact Hparked |].
  rewrite Ht. simpl.
  split; [reflexivity |].
  split.
  { intros old Hold.
    rewrite spotStateAt_write_same.
    destruct (promote_keeps_spot k car st fac idx old Hold) as [s' Hsome].
    rewrite Hsome. reflexivity. }
  split; [reflexivity |].
  split.
  { intros Hprio. unfold exitRight, decideExitRight. rewrite Cp, Hprio, Ce.
    simpl. auto. }
  split; [| reflexivity].
  intros Hprio. unfold exitRight, decideExitRight. rewrite Cp.
  destruct (getPriority car); [| contradiction].
  now destruct (GetRandomValue 0 1 rng1).
Qed.
End TickFacts.

(** ** The life cycle of a spot *)

Section CycleFacts.
Context `{Config} `{Raymath} `{ExitPlanner}.
Import TrafficSystem Run.

Lemma reaches_refl (st : Store) : reaches st st [].
Proof. split; [now rewrite app_nil_r | reflexivity]. Qed.

Lemma reaches_write (k fac : nat) (idx : Z) (s : SpotState) (st : Store) :
  reaches st (writeSpot k fac idx s st) [mkSpotWrite k fac idx s].
Proof. split; reflexivity. Qed.

Lemma reaches_trans (st1 st2 st3 : Store) (ws1 ws2 : list SpotWrite) :
  reaches st1 st2 ws1 -> reaches st2 st3 ws2 -> reaches st1 st3 (ws1 ++ ws2).
Proof.
  intros [J1 M1] [J2 M2]. split.
  - now rewrite J2, J1, app_assoc.
  - unfold applyWrites in *. now rewrite fold_left_app, <- M1, <- M2.
Qed.

Lemma legalWrites_app (modules : list Module_) (ws1 ws2 : list SpotWrite) :
  legalWrites modules (ws1 ++ ws2) <->
  legalWrites modules ws1 /\ legalWrites (applyWrites ws1 modules) ws2.
Proof.
  revert modules. induction ws1 as [| w ws1 IH]; intros modules; simpl.
  - tauto.
  - rewrite IH. tauto.
Qed.

(** A write that follows the cycle is a step of the cycle for the spot it
    names and no step at all for any other spot. *)
Lemma legal_write_step (w : SpotWrite) (modules : list Module_) (fac : nat) (idx : Z) :
  (forall old, spotStateAt (w_fac w) (w_index w) modules = Some old ->
               follows old (w_state w)) ->
  cycleStep (spotStateAt fac idx modules) (spotStateAt fac idx (applyWrite w modules)).
Proof.
  intros Hlegal. unfold applyWrite.
  destruct (decide ((w_fac w, w_index w) = (fac, idx))) as [Heq | Hne].
  - inversion Heq; subst. rewrite spotStateAt_write_same.
    destruct (spotStateAt (w_fac w) (w_index w) modules) as [old |] eqn:E; simpl; [| exact I].
    specialize (Hlegal old eq_refl).
    destruct (w_state w), old; simpl in *;
      intuition (try discriminate; auto).
  - rewrite spotStateAt_write_other by exact Hne.
    destruct (spotStateAt fac idx modules); simpl; auto.
Qed.

Lemma legalWrites_chained (ws : list SpotWrite) (modules : list Module_) (fac : nat) (idx : Z) :
  legalWrites modules ws ->
  chained cycleStep (spotStateAt fac idx <$> (modules :: replay modules ws)).
Proof.
  revert modules. induction ws as [| w ws IH]; intros modules Hlegal; simpl.
  - exact I.
  - destruct Hlegal as [Hw Hrest]. split.
    + now apply legal_write_step.
    + apply (IH _ Hrest).
Qed.

(** *** Reservation *)

Lemma pointsAtFree_sample (facilities : list (nat * Module_)) (f : nat * Module_)
      (rng : Rng) :
  f ∈ facilities ->
  pointsAtFree facilities (Some f) (fst (getRandomSpotIndex (snd f) rng)).
Proof.
  intros Hin. split; [intros g Hg; congruence |].
  destruct (decide (fst (getRandomSpotIndex (snd f) rng) = (-1)%Z)) as [E | Hne];
    [now left |].
  destruct (getRandomSpotIndex_free _ _ Hne) as (j & sp & Hres & Hl & Hf).
  right. exists f, j, sp. auto.
Qed.

Lemma distanceStep_pointsAtFree (carPos : Vector2) (facilities : list (nat * Module_))
      (sel : Selection) (f : nat * Module_) :
  f ∈ facilities ->
  pointsAtFree facilities (targetFac sel) (bestSpotIndex sel) ->
  pointsAtFree facilities (targetFac (distanceStep carPos sel f))
               (bestSpotIndex (distanceStep carPos sel f)).
Proof.
  intros Hin Hsel. unfold distanceStep.
  destruct (free (getSpotCounts (snd f)) =? 0)%nat; [exact Hsel |].
  destruct (Qltb _ (bestMetric sel)); [| exact Hsel].
  pose proof (pointsAtFree_sample facilities f (sel_rng sel) Hin) as Hs.
  destruct (getRandomSpotIndex (snd f) (sel_rng sel)) as [idx rng'].
  simpl in Hs. destruct (idx =? -1)%Z eqn:E; simpl; [exact Hsel | exact Hs].
Qed.

Lemma priceStep_pointsAtFree (facilities : list (nat * Module_))
      (sel : Selection) (f : nat * Module_) :
  f ∈ facilities ->
  pointsAtFree facilities (targetFac sel) (bestSpotIndex sel) ->
  pointsAtFree facilities (targetFac (priceStep sel f))
               (bestSpotIndex (priceStep sel f)).
Proof.
  intros Hin Hsel. unfold priceStep.
  pose proof (pointsAtFree_sample facilities f (sel_rng sel) Hin) as Hs.
  destruct (getRandomSpotIndex (snd f) (sel_rng sel)) as [idx rng'].
  simpl in Hs. destruct (idx =? -1)%Z eqn:E; simpl; [exact Hsel |].
  destruct (Qltb _ (bestMetric sel)); simpl; [exact Hs | exact Hsel].
Qed.

Lemma fold_pointsAtFree (step : Selection -> nat * Module_ -> Selection)
      (facilities fs : list (nat * Module_)) (sel : Selection) :
  (forall sel f, f ∈ facilities ->
                 pointsAtFree facilities (targetFac sel) (bestSpotIndex sel) ->
                 pointsAtFree facilities (targetFac (step sel f)) (bestSpotIndex (step sel f))) ->
  (forall f, f ∈ fs -> f ∈ facilities) ->
  pointsAtFree facilities (targetFac sel) (bestSpotIndex sel) ->
  pointsAtFree facilities (targetFac (fold_left step fs sel))
               (bestSpotIndex (fold_left step fs sel)).
Proof.
  intros Hstep. revert sel. induction fs as [| f fs IH]; intros sel Hsub Hsel; simpl.
  - exact Hsel.
  - apply IH.
    + intros g Hg. apply Hsub. now right.
    + apply Hstep; [apply Hsub; left | exact Hsel].
Qed.

Lemma selectFacility_pointsAtFree (car : Car) (facilities : list (nat * Module_)) (rng : Rng) :
  pointsAtFree facilities (targetFac (selectFacility car facilities rng))
               (bestSpotIndex (selectFacility car facilities rng)).
Proof.
  assert (Hinit : pointsAtFree facilities None (-1)).
  { split; [intros f Hf; discriminate | now left]. }
  unfold selectFacility. destruct (getPriority car).
  - apply fold_pointsAtFree; [apply priceStep_pointsAtFree | auto | exact Hinit].
  - apply fold_pointsAtFree; [apply distanceStep_pointsAtFree | auto | exact Hinit].
Qed.

Lemma pickRandomFacility_pointsAtFree (facilities : list (nat * Module_)) (sel : Selection) :
  pointsAtFree facilities (targetFac sel) (bestSpotIndex sel) ->
  pointsAtFree facilities (fst (fst (pickRandomFacility facilities sel)))
               (snd (fst (pickRandomFacility facilities sel))).
Proof.
  intros Hsel. unfold pickRandomFacility.
  destruct facilities as [| f0 fs] eqn:Efac; [exact Hsel |].
  rewrite <- Efac in *.
  pose proof (GetRandomValue_range 0 (Z.of_nat (length facilities) - 1) (sel_rng sel))
    as Hr.
  destruct (GetRandomValue 0 (Z.of_nat (length facilities) - 1) (sel_rng sel))
    as [r rng1].
  assert (Hlen : (0 < length facilities)%nat) by (rewrite Efac; simpl; lia).
  simpl in Hr. specialize (Hr ltac:(lia)).
  destruct (facilities !! Z.to_nat r) as [f |] eqn:El.
  - assert (Hin : f ∈ facilities) by (apply list_elem_of_lookup; eauto).
    pose proof (pointsAtFree_sample facilities f rng1 Hin) as Hs.
    now destruct (getRandomSpotIndex (snd f) rng1).
  - apply lookup_ge_None in El. lia.
Qed.

Lemma finalSelection_pointsAtFree (facilities : list (nat * Module_)) (sel : Selection) :
  pointsAtFree facilities (targetFac sel) (bestSpotIndex sel) ->
  pointsAtFree facilities (fst (fst (finalSelection facilities sel)))
               (snd (fst (finalSelection facilities sel))).
Proof.
  intros Hsel. unfold finalSelection.
  assert (Hfall : pointsAtFree facilities (fst (fst (fallbackRandom facilities sel)))
                               (snd (fst (fallbackRandom facilities sel)))).
  { unfold fallbackRandom.
    destruct (targetFac sel) as [f |] eqn:Etf;
      [destruct (bestSpotIndex sel =? -1)%Z eqn:Ei |];
      try (apply pickRandomFacility_pointsAtFree; rewrite ?Etf; exact Hsel).
    simpl. exact Hsel. }
  destruct (fallbackRandom facilities sel) as [[tf idx] rng]. simpl in Hfall.
  unfold retrySpot. destruct tf as [f |]; [| exact Hfall].
  destruct (idx =? -1)%Z; [| exact Hfall].
  pose proof (pointsAtFree_sample facilities f rng) as Hs.
  destruct (getRandomSpotIndex (snd f) rng). simpl in *.
  apply Hs. now apply (proj1 Hfall).
Qed.

(** The CarSpawnedEvent handler writes nothing, or writes RESERVED once, to
    a spot that is FREE. *)
Lemma onCarSpawned_writes (k : nat) (st : Store) (car : Car) (rng : Rng) :
  sp_store (onCarSpawned k st car rng) = st
  \/ exists fac idx,
      sp_store (onCarSpawned k st car rng) = writeSpot k fac idx RESERVED st
      /\ spotStateAt fac idx (st_modules st) = Some FREE
      /\ getParkedFacility (sp_car (onCarSpawned k st car rng)) = Some fac
      /\ getParkedSpotIndex (sp_car (onCarSpawned k st car rng)) = idx.
Proof.
  unfold onCarSpawned.
  destruct (decideSeekCharging car rng) as [seek rng1].
  destruct (eligibleFacilities (getType car) seek (st_modules st))
    as [| f0 fs] eqn:Efac; [now left |].
  rewrite <- Efac in *.
  pose proof (finalSelection_pointsAtFree _ _
                (selectFacility_pointsAtFree car
                   (eligibleFacilities (getType car) seek (st_modules st)) rng1)) as Hp.
  destruct (finalSelection _ (selectFacility car _ rng1)) as [[tf idx] rng2].
  simpl in Hp. destruct Hp as [Hin Hfree].
  destruct tf as [[fac mfac] |]; [| now left].
  destruct (idx =? -1)%Z eqn:Ei; [now left |].
  apply Z.eqb_neq in Ei.
  destruct Hfree as [Hi | (f & j & sp & Hf & Hi & Hl & Hs)]; [contradiction |].
  inversion Hf; subst f. simpl in Hl.
  destruct (eligibleFacilities_lookup _ _ _ _ _ (Hin _ eq_refl)) as [Hm _].
  right. exists fac, idx.
  assert (Hst : spotStateAt fac idx (st_modules st) = Some FREE).
  { unfold spotStateAt. subst idx.
    destruct (Z.of_nat j <? 0)%Z eqn:E; [lia |].
    rewrite Hm. simpl. rewrite Nat2Z.id, Hl. simpl. now rewrite Hs. }
  simpl. rewrite list_lookup_alter_eq, Hm. simpl. auto.
Qed.

(** *** Promotion *)

Lemma getSpot_reserved_exists (m : Module_) (idx : Z) (fac : nat) (modules : list Module_) :
  modules !! fac = Some m ->
  state (getSpot m idx) = RESERVED ->
  spotStateAt fac idx modules = Some RESERVED.
Proof.
  unfold getSpot, spotStateAt. intros Hm.
  destruct (idx <? 0)%Z; [discriminate |].
  rewrite Hm. simpl. destruct (spots m !! Z.to_nat idx); simpl; [congruence | discriminate].
Qed.

(** The promotion writes nothing, or writes OCCUPIED once, to the spot of
    the vehicle's parking context, found RESERVED, the vehicle being
    ALIGNING or PARKED. *)
Lemma promote_writes (k : nat) (car : Car) (st : Store) :
  promote k car st = st
  \/ exists fac,
      promote k car st = writeSpot k fac (getParkedSpotIndex car) OCCUPIED st
      /\ getParkedFacility car = Some fac
      /\ (getState car = ALIGNING \/ getState car = PARKED)
      /\ spotStateAt fac (getParkedSpotIndex car) (st_modules st) = Some RESERVED.
Proof.
  destruct (promote_cases k car st) as [E | (fac & m & Hs & Hf & _ & Hm & Hr & E)];
    [now left |].
  right. exists fac. repeat split; auto.
  now apply (getSpot_reserved_exists m).
Qed.

(** Promoting twice is promoting once. *)
Lemma promote_idempotent (k : nat) (car : Car) (st : Store) :
  promote k car (promote k car st) = promote k car st.
Proof.
  destruct (promote_writes k car st) as [E | (fac & E & Hf & Hs & Hr)].
  - now rewrite !E.
  - rewrite E.
    destruct (promote_writes k car (writeSpot k fac (getParkedSpotIndex car) OCCUPIED st))
      as [E' | (fac' & _ & Hf' & _ & Hr')]; [exact E' |].
    exfalso. assert (fac' = fac) by congruence. subst fac'.
    simpl in Hr'. rewrite spotStateAt_write_same, Hr in Hr'. discriminate.
Qed.

(** After the promotion the spot of a PARKED vehicle is not RESERVED. *)
Lemma promote_parked_not_reserved (k : nat) (car : Car) (st : Store) (fac : nat) :
  getState car = PARKED ->
  getParkedFacility car = Some fac ->
  getParkedSpotIndex car <> (-1)%Z ->
  spotStateAt fac (getParkedSpotIndex car) (st_modules (promote k car st))
  <> Some RESERVED.
Proof.
  intros Hs Hf Hi. unfold promote.
  rewrite (bool_decide_eq_true_2 (getState car = PARKED)) by exact Hs.
  rewrite orb_true_r, Hf.
  destruct (getParkedSpotIndex car =? -1)%Z eqn:Ei; [apply Z.eqb_eq in Ei; contradiction |].
  destruct (st_modules st !! fac) as [m |] eqn:Em.
  - destruct (bool_decide (state (getSpot m (getParkedSpotIndex car)) = RESERVED)) eqn:Er.
    + simpl. rewrite spotStateAt_write_same.
      destruct (spotStateAt fac (getParkedSpotIndex car) (st_modules st)); discriminate.
    + apply bool_decide_eq_false in Er. intros Hres. apply Er.
      now apply (getSpot_state m _ fac (st_modules st)).
  - unfold spotStateAt. rewrite Em.
    destruct (getParkedSpotIndex car <? 0)%Z; discriminate.
Qed.

(** *** Release *)

(** After the promotion an iteration of the tick loop writes nothing more,
    or writes FREE once, to the spot of the parking context of a PARKED
    vehicle that has decided to leave. *)
Lemma tickCar_writes (bounds : Q * Q) (dt : Q) (k : nat) (st : Store) (car : Car) (rng : Rng) :
  tk_store (tickCar bounds dt k st car rng) = promote k car st
  \/ exists fac,
      tk_store (tickCar bounds dt k st car rng)
      = writeSpot k fac (getParkedSpotIndex car) FREE (promote k car st)
      /\ getParkedFacility car = Some fac
      /\ getState car = PARKED
      /\ fst (fst (parkedLogic dt (st_modules (promote k car st)) car rng)) = true
      /\ spotStateAt fac (getParkedSpotIndex car) (st_modules (promote k car st))
         <> Some RESERVED.
Proof.
  destruct (fst (fst (parkedLogic dt (st_modules (promote k car st)) car rng))) eqn:Ex.
  - destruct (getParkedFacility car) as [fac |] eqn:Ef.
    + destruct (decide (getParkedSpotIndex car = (-1)%Z)) as [Ei | Hi].
      * left. unfold tickCar.
        destruct (parkedLogic_context dt (st_modules (promote k car st)) car rng)
          as (Cf & Ci & _).
        destruct (parkedLogic dt (st_modules (promote k car st)) car rng)
          as [[shouldExit c1] r1].
        simpl in *. subst shouldExit. unfold leaveParking.
        destruct bounds as [mn mx]. rewrite Cf, Ef, Ci, Ei. simpl.
        now destruct (decideExitRight c1 r1).
      * right. exists fac.
        pose proof (tickCar_exit_form bounds dt k st car rng fac Ex Ef Hi) as Hform.
        cbv zeta in Hform. rewrite Hform. simpl.
        destruct (parkedLogic_car dt (st_modules (promote k car st)) car rng)
          as [_ Hparked].
        specialize (Hparked Ex).
        repeat split; auto.
        now apply promote_parked_not_reserved.
    + left. unfold tickCar.
      destruct (parkedLogic_context dt (st_modules (promote k car st)) car rng)
        as (Cf & _).
      destruct (parkedLogic dt (st_modules (promote k car st)) car rng)
        as [[shouldExit c1] r1].
      simpl in *. subst shouldExit. unfold leaveParking.
      destruct bounds as [mn mx]. now rewrite Cf, Ef.
  - left. unfold tickCar.
    destruct (parkedLogic dt (st_modules (promote k car st)) car rng)
      as [[shouldExit c1] r1].
    simpl in Ex. subst shouldExit. reflexivity.
Qed.

(** *** Logs of whole handlers *)

Lemma onCarSpawned_reaches (k : nat) (st : Store) (car : Car) (rng : Rng) :
  exists ws, reaches st (sp_store (onCarSpawned k st car rng)) ws
             /\ legalWrites (st_modules st) ws.
Proof.
  destruct (onCarSpawned_writes k st car rng) as [E | (fac & idx & E & Hfree & _)];
    rewrite E.
  - exists []. split; [apply reaches_refl | exact I].
  - exists [mkSpotWrite k fac idx RESERVED]. split; [apply reaches_write |].
    simpl. split; [| exact I]. intros old Hold. congruence.
Qed.

Lemma promote_reaches (k : nat) (car : Car) (st : Store) :
  exists ws, reaches st (promote k car st) ws /\ legalWrites (st_modules st) ws.
Proof.
  destruct (promote_writes k car st) as [E | (fac & E & _ & _ & Hres)]; rewrite E.
  - exists []. split; [apply reaches_refl | exact I].
  - exists [mkSpotWrite k fac (getParkedSpotIndex car) OCCUPIED].
    split; [apply reaches_write |].
    simpl. split; [| exact I]. intros old Hold. congruence.
Qed.

Lemma tickCar_reaches (bounds : Q * Q) (dt : Q) (k : nat) (st : Store) (car : Car) (rng : Rng) :
  exists ws, reaches st (tk_store (tickCar bounds dt k st car rng)) ws
             /\ legalWrites (st_modules st) ws.
Proof.
  destruct (promote_reaches k car st) as (ws1 & Hr1 & Hl1).
  destruct (tickCar_writes bounds dt k st car rng) as [E | (fac & E & _ & _ & _ & Hnr)];
    rewrite E.
  - exists ws1. auto.
  - exists (ws1 ++ [mkSpotWrite k fac (getParkedSpotIndex car) FREE]). split.
    + eapply reaches_trans; [exact Hr1 | apply reaches_write].
    + apply legalWrites_app. split; [exact Hl1 |].
      destruct Hr1 as [_ Hm]. rewrite <- Hm. simpl. split; [| exact I].
      intros old Hold. destruct old; auto. contradiction.
Qed.

Lemma tickCars_reaches (bounds : Q * Q) (dt : Q) (cars : list Car) (k : nat) (st : Store)
      (rng : Rng) :
  exists ws, reaches st (fst (fst (tickCars bounds dt k st cars rng))) ws
             /\ legalWrites (st_modules st) ws.
Proof.
  revert k st rng. induction cars as [| car cars IH]; intros k st rng; simpl.
  - exists []. split; [apply reaches_refl | exact I].
  - destruct (tickCar_reaches bounds dt k st car rng) as (ws1 & Hr1 & Hl1).
    destruct (IH (S k) (tk_store (tickCar bounds dt k st car rng))
                 (tk_rng (tickCar bounds dt k st car rng))) as (ws2 & Hr2 & Hl2).
    destruct (tickCars bounds dt (S k) _ cars _) as [[st' cars'] rng'].
    simpl in *. exists (ws1 ++ ws2). split.
    + eapply reaches_trans; eassumption.
    + apply legalWrites_app. split; [exact Hl1 |].
      destruct Hr1 as [_ Hm]. now rewrite <- Hm.
Qed.

Lemma handle_reaches (em : EntityManager) (n : Notification) :
  exists ws, reaches (em_store em) (em_store (handle em n)) ws
             /\ legalWrites (st_modules (em_store em)) ws.
Proof.
  destruct n as [k rng | dt rng | cars]; simpl.
  - destruct (getCars em !! k) as [car |].
    + apply onCarSpawned_reaches.
    + exists []. split; [apply reaches_refl | exact I].
  - unfold onGameUpdate.
    destruct (tickCars_reaches (roadBounds (st_modules (em_store em))) dt
                               (getCars em) 0 (em_store em) rng) as (ws & Hr & Hl).
    destruct (tickCars _ dt 0 (em_store em) (getCars em) rng) as [[st' marked] rng'].
    simpl in *. eauto.
  - exists []. split; [apply reaches_refl | exact I].
Qed.

Lemma run_reaches (ns : list Notification) (em : EntityManager) :
  exists ws, reaches (em_store em) (em_store (run em ns)) ws
             /\ legalWrites (st_modules (em_store em)) ws.
Proof.
  revert em. induction ns as [| n ns IH]; intros em; simpl.
  - exists []. split; [apply reaches_refl | exact I].
  - destruct (handle_reaches em n) as (ws1 & Hr1 & Hl1).
    destruct (IH (handle em n)) as (ws2 & Hr2 & Hl2).
    exists (ws1 ++ ws2). split.
    + eapply reaches_trans; eassumption.
    + apply legalWrites_app. split; [exact Hl1 |].
      destruct Hr1 as [_ Hm]. now rewrite <- Hm.
Qed.

(** C1. Every state change the handlers make to a spot follows the cycle
    FREE -> RESERVED -> OCCUPIED -> FREE.  The CarSpawnedEvent handler writes
    RESERVED only to a spot that is FREE, the one its spot selection just
    returned.  The tick handler writes OCCUPIED only to a spot that is
    RESERVED, for a vehicle that names it in its parking context and is
    ALIGNING or PARKED, and promoting twice is promoting once.  It writes FREE
    only for a PARKED vehicle that has decided to leave, to the spot of its
    parking context, which at that moment is not RESERVED.  Hence along every
    run of the handlers, whatever the vehicles do in between, each write
    finds its spot in the state the cycle asks for, and two consecutive
    observations of any spot show the same state or the next on the cycle. *)
Theorem spot_life_cycle :
  (forall k st car rng,
      sp_store (onCarSpawned k st car rng) = st
      \/ exists fac idx,
          sp_store (onCarSpawned k st car rng) = writeSpot k fac idx RESERVED st
          /\ spotStateAt fac idx (st_modules st) = Some FREE
          /\ getParkedFacility (sp_car (onCarSpawned k st car rng)) = Some fac
          /\ getParkedSpotIndex (sp_car (onCarSpawned k st car rng)) = idx)
  /\ (forall k car st,
         promote k car st = st
         \/ exists fac,
             promote k car st = writeSpot k fac (getParkedSpotIndex car) OCCUPIED st
             /\ getParkedFacility car = Some fac
             /\ (getState car = ALIGNING \/ getState car = PARKED)
             /\ spotStateAt fac (getParkedSpotIndex car) (st_modules st) = Some RESERVED)
  /\ (forall k car st, promote k car (promote k car st) = promote k car st)
  /\ (forall bounds dt k st car rng,
         tk_store (tickCar bounds dt k st car rng) = promote k car st
         \/ exists fac,
             tk_store (tickCar bounds dt k st car rng)
             = writeSpot k fac (getParkedSpotIndex car) FREE (promote k car st)
             /\ getParkedFacility car = Some fac
             /\ getState car = PARKED
             /\ fst (fst (parkedLogic dt (st_modules (promote k car st)) car rng)) = true
             /\ spotStateAt fac (getParkedSpotIndex car) (st_modules (promote k car st))
                <> Some RESERVED)
  /\ (forall modules cars ns,
         legalWrites modules
           (st_journal (em_store (run (mkEntityManager (mkStore modules []) cars) ns)))
         /\ st_modules (em_store (run (mkEntityManager (mkStore modules []) cars) ns))
            = applyWrites
                (st_journal (em_store (run (mkEntityManager (mkStore modules []) cars) ns)))
                modules
         /\ forall fac idx, chained cycleStep (observed fac idx modules cars ns)).
Proof.
  split; [exact onCarSpawned_writes |].
  split; [exact promote_writes |].
  split; [exact promote_idempotent |].
  split; [exact tickCar_writes |].
  intros modules cars ns.
  destruct (run_reaches ns (mkEntityManager (mkStore modules []) cars))
    as (ws & [Hj Hm] & Hl).
  simpl in Hj, Hm, Hl. rewrite Hj.
  split; [exact Hl |]. split; [exact Hm |].
  intros fac idx. unfold observed. rewrite Hj.
  now apply legalWrites_chained.
Qed.
End CycleFacts.

(** ** Facility selection by priority *)

Section SelectionFacts.
Context `{Config} `{Raymath} `{ExitPlanner}.
Import TrafficSystem Run.

Lemma hasFree_freeIndices (m : Module_) :
  (exists sp, sp ∈ spots m /\ state sp = FREE) <-> freeIndices m <> [].
Proof.
  rewrite freeIndices_nil. split.
  - intros (sp & Hin & Hf) Hall. exact (Hall sp Hin Hf).
  - intros Hne. destruct (freeIndices m) as [| j fs] eqn:E.
    + exfalso. apply Hne. intros sp Hin. now apply (proj1 (freeIndices_nil m) E).
    + assert (Hmem : j ∈ freeIndices m) by (rewrite E; left).
      apply freeIndices_spec in Hmem as (sp & Hl & Hf).
      exists sp. split; [apply list_elem_of_lookup; eauto | exact Hf].
Qed.

Lemma getRandomSpotIndex_hasFree (m : Module_) (rng : Rng) :
  freeIndices m <> [] -> fst (getRandomSpotIndex m rng) <> (-1)%Z.
Proof.
  intros Hne. destruct (getRandomSpotIndex_pick m rng Hne) as (_ & j & _ & _ & _ & E).
  lia.
Qed.

(** The distance loop keeps the closest facility with a FREE spot seen so
    far, if it is closer than FLT_MAX. *)
Lemma distance_fold (carPos : Vector2) (fs done : list (nat * Module_)) (sel : Selection) :
  (forall g, g ∈ done -> freeIndices (snd g) <> [] ->
             bestMetric sel <= Vector2Distance carPos (worldPosition (snd g))) ->
  (targetFac sel = None -> bestMetric sel = FLT_MAX) ->
  (forall t, targetFac sel = Some t ->
             t ∈ done /\ bestSpotIndex sel <> (-1)%Z
             /\ bestMetric sel = Vector2Distance carPos (worldPosition (snd t))) ->
  (forall g, g ∈ done ++ fs -> freeIndices (snd g) <> [] ->
             bestMetric (fold_left (distanceStep carPos) fs sel)
             <= Vector2Distance carPos (worldPosition (snd g)))
  /\ (targetFac (fold_left (distanceStep carPos) fs sel) = None ->
      bestMetric (fold_left (distanceStep carPos) fs sel) = FLT_MAX)
  /\ (forall t, targetFac (fold_left (distanceStep carPos) fs sel) = Some t ->
                t ∈ done ++ fs
                /\ bestSpotIndex (fold_left (distanceStep carPos) fs sel) <> (-1)%Z
                /\ bestMetric (fold_left (distanceStep carPos) fs sel)
                   = Vector2Distance carPos (worldPosition (snd t))).
Proof.
  revert done sel. induction fs as [| f fs IH]; intros done sel I1 I2 I3; simpl.
  - rewrite app_nil_r. auto.
  - replace (done ++ f :: fs) with ((done ++ [f]) ++ fs) by (now rewrite <- app_assoc).
    apply IH; clear IH; unfold distanceStep.
    + intros g Hg Hfree. apply elem_of_app in Hg as [Hg | Hg].
      * specialize (I1 g Hg Hfree).
        destruct (free (getSpotCounts (snd f)) =? 0)%nat; [exact I1 |].
        destruct (Qltb _ (bestMetric sel)) eqn:El; [| exact I1].
        apply Qltb_lt in El.
        destruct (getRandomSpotIndex (snd f) (sel_rng sel)) as [idx rng'].
        destruct (idx =? -1)%Z; simpl; [exact I1 | lra].
      * apply list_elem_of_singleton in Hg. subst g.
        destruct (free (getSpotCounts (snd f)) =? 0)%nat eqn:Ec.
        { apply getSpotCounts_free_zero in Ec. contradiction. }
        destruct (Qltb _ (bestMetric sel)) eqn:El.
        -- pose proof (getRandomSpotIndex_hasFree (snd f) (sel_rng sel) Hfree) as Hi.
           destruct (getRandomSpotIndex (snd f) (sel_rng sel)) as [idx rng'].
           simpl in Hi. apply Z.eqb_neq in Hi. rewrite Hi. simpl. apply Qle_refl.
        -- now apply Qltb_ge in El.
    + destruct (free (getSpotCounts (snd f)) =? 0)%nat; [exact I2 |].
      destruct (Qltb _ (bestMetric sel)); [| exact I2].
      destruct (getRandomSpotIndex (snd f) (sel_rng sel)) as [idx rng'].
      destruct (idx =? -1)%Z; simpl; [exact I2 | discriminate].
    + assert (Hkeep : forall t, targetFac sel = Some t ->
                 t ∈ done ++ [f] /\ bestSpotIndex sel <> (-1)%Z
                 /\ bestMetric sel = Vector2Distance carPos (worldPosition (snd t))).
      { intros t Ht. destruct (I3 t Ht) as (Hin & Hi & Hm).
        split; [apply elem_of_app; now left | auto]. }
      destruct (free (getSpotCounts (snd f)) =? 0)%nat; [exact Hkeep |].
      destruct (Qltb _ (bestMetric sel)); [| exact Hkeep].
      destruct (getRandomSpotIndex (snd f) (sel_rng sel)) as [idx rng'].
      destruct (idx =? -1)%Z eqn:Ei; simpl; [exact Hkeep |].
      intros t Ht. inversion Ht; subst t. apply Z.eqb_neq in Ei.
      split; [apply elem_of_app; right; now left | auto].
Qed.

Lemma priceStep_rng (sel : Selection) (f : nat * Module_) :
  sel_rng (priceStep sel f) = snd (getRandomSpotIndex (snd f) (sel_rng sel)).
Proof.
  unfold priceStep. destruct (getRandomSpotIndex (snd f) (sel_rng sel)) as [idx rng'].
  destruct (idx =? -1)%Z; [reflexivity |].
  now destruct (Qltb _ (bestMetric sel)).
Qed.

(** The price loop keeps the cheapest of the spots sampled so far, if it is
    cheaper than FLT_MAX. *)
Lemma price_fold (fs : list (nat * Module_)) (done : list ((nat * Module_) * Z))
      (sel : Selection) :
  (forall g j, (g, j) ∈ done -> j <> (-1)%Z ->
               bestMetric sel <= price (getSpot (snd g) j)) ->
  (targetFac sel = None -> bestMetric sel = FLT_MAX) ->
  (forall t, targetFac sel = Some t ->
             (t, bestSpotIndex sel) ∈ done /\ bestSpotIndex sel <> (-1)%Z
             /\ bestMetric sel = price (getSpot (snd t) (bestSpotIndex sel))) ->
  (forall g j, (g, j) ∈ done ++ priceSamples fs (sel_rng sel) -> j <> (-1)%Z ->
               bestMetric (fold_left priceStep fs sel) <= price (getSpot (snd g) j))
  /\ (targetFac (fold_left priceStep fs sel) = None ->
      bestMetric (fold_left priceStep fs sel) = FLT_MAX)
  /\ (forall t, targetFac (fold_left priceStep fs sel) = Some t ->
                (t, bestSpotIndex (fold_left priceStep fs sel))
                  ∈ done ++ priceSamples fs (sel_rng sel)
                /\ bestSpotIndex (fold_left priceStep fs sel) <> (-1)%Z
                /\ bestMetric (fold_left priceStep fs sel)
                   = price (getSpot (snd t) (bestSpotIndex (fold_left priceStep fs sel)))).
Proof.
  revert done sel. induction fs as [| f fs IH]; intros done sel I1 I2 I3; simpl.
  - rewrite app_nil_r. auto.
  - pose proof (priceStep_rng sel f) as Hrng.
    destruct (getRandomSpotIndex (snd f) (sel_rng sel)) as [idx rng'] eqn:Eg.
    simpl in Hrng.
    replace (done ++ (f, idx) :: priceSamples fs rng')
      with ((done ++ [(f, idx)]) ++ priceSamples fs (sel_rng (priceStep sel f)))
      by (now rewrite <- app_assoc, Hrng).
    apply IH; clear IH; unfold priceStep; rewrite Eg.
    + intros g j Hg Hj. apply elem_of_app in Hg as [Hg | Hg].
      * specialize (I1 g j Hg Hj).
        destruct (idx =? -1)%Z; simpl; [exact I1 |].
        destruct (Qltb _ (bestMetric sel)) eqn:El; simpl; [| exact I1].
        apply Qltb_lt in El. lra.
      * apply list_elem_of_singleton in Hg. inversion Hg; subst g j.
        apply Z.eqb_neq in Hj. rewrite Hj.
        destruct (Qltb _ (bestMetric sel)) eqn:El; simpl.
        -- apply Qle_refl.
        -- now apply Qltb_ge in El.
    + destruct (idx =? -1)%Z; simpl; [exact I2 |].
      destruct (Qltb _ (bestMetric sel)); simpl; [discriminate | exact I2].
    + assert (Hkeep : forall t, targetFac sel = Some t ->
                 (t, bestSpotIndex sel) ∈ done ++ [(f, idx)]
                 /\ bestSpotIndex sel <> (-1)%Z
                 /\ bestMetric sel = price (getSpot (snd t) (bestSpotIndex sel))).
      { intros t Ht. destruct (I3 t Ht) as (Hin & Hi & Hm).
        split; [apply elem_of_app; now left | auto]. }
      destruct (idx =? -1)%Z eqn:Ei; simpl; [exact Hkeep |].
      destruct (Qltb _ (bestMetric sel)); simpl; [| exact Hkeep].
      intros t Ht. inversion Ht; subst t. apply Z.eqb_neq in Ei.
      split; [apply elem_of_app; right; now left | auto].
Qed.

Lemma priceSamples_cover (fs : list (nat * Module_)) (rng : Rng) (g : nat * Module_) :
  g ∈ fs ->
  exists j, (g, j) ∈ priceSamples fs rng
            /\ (freeIndices (snd g) <> [] -> j <> (-1)%Z).
Proof.
  revert rng. induction fs as [| f fs IH]; intros rng Hin; [inversion Hin |].
  simpl. pose proof (getRandomSpotIndex_hasFree (snd f) rng) as Hi.
  destruct (getRandomSpotIndex (snd f) rng) as [idx rng'].
  apply elem_of_cons in Hin as [-> | Hin].
  - exists idx. split; [left | exact Hi].
  - destruct (IH rng' Hin) as (j & Hj & Hne). exists j. split; [now right | exact Hne].
Qed.

Lemma priceSamples_free (fs : list (nat * Module_)) (rng : Rng) (g : nat * Module_) (j : Z) :
  (g, j) ∈ priceSamples fs rng -> j <> (-1)%Z ->
  g ∈ fs
  /\ exists n sp, j = Z.of_nat n /\ spots (snd g) !! n = Some sp /\ state sp = FREE.
Proof.
  revert rng. induction fs as [| f fs IH]; intros rng Hin Hj; [inversion Hin |].
  simpl in Hin. pose proof (getRandomSpotIndex_free (snd f) rng) as Hfree.
  destruct (getRandomSpotIndex (snd f) rng) as [idx rng'].
  apply elem_of_cons in Hin as [Heq | Hin].
  - inversion Heq; subst g j. split; [left |]. apply Hfree. exact Hj.
  - destruct (IH rng' Hin Hj) as [Hg Hsp]. split; [now right | exact Hsp].
Qed.

(** With a facility and a spot index other than -1 in hand, the handler
    reserves that spot and stores it in the vehicle's parking context. *)
Lemma onCarSpawned_assigned (k : nat) (st : Store) (car : Car) (rng : Rng)
      (t : nat * Module_) :
  t ∈ eligibleFacilities (getType car) (fst (decideSeekCharging car rng)) (st_modules st) ->
  targetFac (selectFacility car
               (eligibleFacilities (getType car) (fst (decideSeekCharging car rng))
                                   (st_modules st))
               (snd (decideSeekCharging car rng))) = Some t ->
  bestSpotIndex (selectFacility car
                   (eligibleFacilities (getType car) (fst (decideSeekCharging car rng))
                                       (st_modules st))
                   (snd (decideSeekCharging car rng))) <> (-1)%Z ->
  sp_store (onCarSpawned k st car rng)
  = writeSpot k (fst t)
              (bestSpotIndex (selectFacility car
                   (eligibleFacilities (getType car) (fst (decideSeekCharging car rng))
                                       (st_modules st))
                   (snd (decideSeekCharging car rng))))
              RESERVED st
  /\ getParkedFacility (sp_car (onCarSpawned k st car rng)) = Some (fst t)
  /\ getParkedSpotIndex (sp_car (onCarSpawned k st car rng))
     = bestSpotIndex (selectFacility car
                   (eligibleFacilities (getType car) (fst (decideSeekCharging car rng))
                                       (st_modules st))
                   (snd (decideSeekCharging car rng))).
Proof.
  unfold onCarSpawned.
  destruct (decideSeekCharging car rng) as [seek rng1]. simpl fst. simpl snd.
  intros Hin Htf Hidx.
  destruct (eligibleFacilities (getType car) seek (st_modules st))
    as [| f0 fs] eqn:Efac; [inversion Hin |].
  rewrite <- Efac in *.
  unfold finalSelection, fallbackRandom. rewrite Htf.
  apply Z.eqb_neq in Hidx. rewrite Hidx. simpl. rewrite Hidx.
  destruct t as [fac mfac]. rewrite Hidx. simpl.
  destruct (eligibleFacilities_lookup _ _ _ _ _ Hin) as [Hm _].
  rewrite list_lookup_alter_eq, Hm. simpl. auto.
Qed.

Lemma single_spot (m : Module_) (s sp : Spot) (n : nat) :
  spots m = [s] -> spots m !! n = Some sp ->
  n = 0%nat /\ sp = s /\ getSpot m (Z.of_nat n) = s.
Proof.
  intros Hs Hl. rewrite Hs in Hl. destruct n as [| n]; simpl in Hl; [| discriminate].
  inversion Hl; subst sp. unfold getSpot. rewrite Hs. auto.
Qed.

(** The facility a DISTANCE-priority vehicle is assigned. *)
Lemma onCarSpawned_distance (k : nat) (st : Store) (car : Car) (rng : Rng)
      (g0 : nat * Module_) :
  getPriority car = PRIORITY_DISTANCE ->
  g0 ∈ eligibleFacilities (getType car) (fst (decideSeekCharging car rng)) (st_modules st) ->
  (exists sp, sp ∈ spots (snd g0) /\ state sp = FREE) ->
  Vector2Distance (getPosition car) (worldPosition (snd g0)) < FLT_MAX ->
  exists (t : nat * Module_) (n : nat) (sp : Spot),
    t ∈ eligibleFacilities (getType car) (fst (decideSeekCharging car rng)) (st_modules st)
    /\ spots (snd t) !! n = Some sp /\ state sp = FREE
    /\ sp_store (onCarSpawned k st car rng) = writeSpot k (fst t) (Z.of_nat n) RESERVED st
    /\ getParkedFacility (sp_car (onCarSpawned k st car rng)) = Some (fst t)
    /\ getParkedSpotIndex (sp_car (onCarSpawned k st car rng)) = Z.of_nat n
    /\ forall g,
        g ∈ eligibleFacilities (getType car) (fst (decideSeekCharging car rng))
              (st_modules st) ->
        (exists sp', sp' ∈ spots (snd g) /\ state sp' = FREE) ->
        Vector2Distance (getPosition car) (worldPosition (snd t))
        <= Vector2Distance (getPosition car) (worldPosition (snd g)).
Proof.
  intros Hprio Hg0 Hfree0 Hd0.
  set (facilities := eligibleFacilities (getType car) (fst (decideSeekCharging car rng))
                                        (st_modules st)) in *.
  set (rng1 := snd (decideSeekCharging car rng)).
  pose proof (onCarSpawned_assigned k st car rng) as Hassign.
  pose proof (selectFacility_pointsAtFree car facilities rng1) as Hp.
  fold facilities rng1 in Hassign.
  assert (Hsel : selectFacility car facilities rng1
                 = fold_left (distanceStep (getPosition car)) facilities
                             (mkSelection None (-1) FLT_MAX rng1)).
  { unfold selectFacility. now rewrite Hprio. }
  destruct (distance_fold (getPosition car) facilities []
                          (mkSelection None (-1) FLT_MAX rng1))
    as (J1 & J2 & J3); simpl.
  { intros g Hg. inversion Hg. }
  { reflexivity. }
  { intros t Ht. discriminate. }
  rewrite <- Hsel in J1, J2, J3. simpl in J1, J3.
  destruct (targetFac (selectFacility car facilities rng1)) as [t |] eqn:Etf.
  - destruct (J3 t eq_refl) as (Hin & Hidx & Hm).
    destruct Hp as [_ [Hi | (f & n & sp & Hf & Hi & Hl & Hs)]]; [contradiction |].
    inversion Hf; subst f.
    destruct (Hassign t Hin eq_refl Hidx) as (A1 & A2 & A3).
    exists t, n, sp. rewrite <- Hi.
    repeat split; auto.
    intros g Hg Hgfree. rewrite <- Hm. apply J1; [exact Hg |].
    now apply hasFree_freeIndices.
  - exfalso. specialize (J2 eq_refl).
    assert (Hle : bestMetric (selectFacility car facilities rng1)
                  <= Vector2Distance (getPosition car) (worldPosition (snd g0))).
    { apply J1; [exact Hg0 | now apply hasFree_freeIndices]. }
    rewrite J2 in Hle. lra.
Qed.

(** The facility a PRICE-priority vehicle is assigned. *)
Lemma onCarSpawned_price (k : nat) (st : Store) (car : Car) (rng : Rng)
      (g0 : nat * Module_) :
  getPriority car = PRIORITY_PRICE ->
  g0 ∈ eligibleFacilities (getType car) (fst (decideSeekCharging car rng)) (st_modules st) ->
  (exists sp, sp ∈ spots (snd g0) /\ state sp = FREE) ->
  (forall sp, sp ∈ spots (snd g0) -> price sp < FLT_MAX) ->
  exists (t : nat * Module_) (n : nat) (sp : Spot),
    (t, Z.of_nat n)
      ∈ priceSamples
          (eligibleFacilities (getType car) (fst (decideSeekCharging car rng)) (st_modules st))
          (snd (decideSeekCharging car rng))
    /\ spots (snd t) !! n = Some sp /\ state sp = FREE
    /\ sp_store (onCarSpawned k st car rng) = writeSpot k (fst t) (Z.of_nat n) RESERVED st
    /\ getParkedFacility (sp_car (onCarSpawned k st car rng)) = Some (fst t)
    /\ getParkedSpotIndex (sp_car (onCarSpawned k st car rng)) = Z.of_nat n
    /\ forall g j,
        (g, j) ∈ priceSamples
                  (eligibleFacilities (getType car) (fst (decideSeekCharging car rng))
                                      (st_modules st))
                  (snd (decideSeekCharging car rng)) ->
        j <> (-1)%Z ->
        price sp <= price (getSpot (snd g) j).
Proof.
  intros Hprio Hg0 Hfree0 Hp0.
  set (facilities := eligibleFacilities (getType car) (fst (decideSeekCharging car rng))
                                        (st_modules st)) in *.
  set (rng1 := snd (decideSeekCharging car rng)).
  pose proof (onCarSpawned_assigned k st car rng) as Hassign.
  fold facilities rng1 in Hassign.
  assert (Hsel : selectFacility car facilities rng1
                 = fold_left priceStep facilities (mkSelection None (-1) FLT_MAX rng1)).
  { unfold selectFacility. now rewrite Hprio. }
  destruct (price_fold facilities [] (mkSelection None (-1) FLT_MAX rng1))
    as (J1 & J2 & J3); simpl.
  { intros g j Hg. inversion Hg. }
  { reflexivity. }
  { intros t Ht. discriminate. }
  rewrite <- Hsel in J1, J2, J3. simpl in J1, J3.
  destruct (targetFac (selectFacility car facilities rng1)) as [t |] eqn:Etf.
  - destruct (J3 t eq_refl) as (Hin & Hidx & Hm).
    destruct (priceSamples_free _ _ _ _ Hin Hidx) as (Ht & n & sp & Hi & Hl & Hs).
    destruct (Hassign t Ht eq_refl Hidx) as (A1 & A2 & A3).
    exists t, n, sp. rewrite <- Hi.
    repeat split; auto.
    intros g j Hg Hj.
    assert (Hsp : getSpot (snd t) (bestSpotIndex (selectFacility car facilities rng1)) = sp).
    { rewrite Hi. unfold getSpot. destruct (Z.of_nat n <? 0)%Z eqn:E; [lia |].
      now rewrite Nat2Z.id, Hl. }
    rewrite <- Hsp, <- Hm. now apply J1.
  - exfalso. specialize (J2 eq_refl).
    destruct (priceSamples_cover facilities rng1 g0 Hg0) as (j & Hj & Hne).
    specialize (Hne (proj1 (hasFree_freeIndices _) Hfree0)).
    pose proof (J1 g0 j Hj Hne) as Hle. rewrite J2 in Hle.
    destruct (priceSamples_free _ _ _ _ Hj Hne) as (_ & n & sp & Hi & Hl & Hs).
    assert (Hsp : getSpot (snd g0) j = sp).
    { rewrite Hi. unfold getSpot. destruct (Z.of_nat n <? 0)%Z eqn:E; [lia |].
      now rewrite Nat2Z.id, Hl. }
    rewrite Hsp in Hle.
    assert (Hlt : price sp < FLT_MAX).
    { apply Hp0. apply list_elem_of_lookup. eauto. }
    lra.
Qed.

(** C5. With a non-empty list of eligible facilities, a DISTANCE-priority
    vehicle is assigned a facility with a FREE spot whose distance from the
    vehicle's position is smallest among the facilities with a FREE spot,
    and a PRICE-priority vehicle the facility whose sampled FREE spot is the
    cheapest of the sampled spots (distances and prices being floats below
    FLT_MAX); the assignment is the reservation of that spot and the
    vehicle's parking context.  In particular, of a facility with one FREE
    spot of price 5 at distance 10 and another with one FREE spot of price 2
    at distance 50, a DISTANCE-priority vehicle gets the first and a
    PRICE-priority vehicle the second. *)
Theorem onCarSpawned_priority (k : nat) (st : Store) (car : Car) (rng : Rng) :
  let facilities :=
    eligibleFacilities (getType car) (fst (decideSeekCharging car rng)) (st_modules st) in
  let samples := priceSamples facilities (snd (decideSeekCharging car rng)) in
  let dist := fun g : nat * Module_ =>
    Vector2Distance (getPosition car) (worldPosition (snd g)) in
  let hasFree := fun g : nat * Module_ =>
    exists sp, sp ∈ spots (snd g) /\ state sp = FREE in
  let assigned := fun (t : nat * Module_) (idx : Z) =>
    sp_store (onCarSpawned k st car rng) = writeSpot k (fst t) idx RESERVED st
    /\ getParkedFacility (sp_car (onCarSpawned k st car rng)) = Some (fst t)
    /\ getParkedSpotIndex (sp_car (onCarSpawned k st car rng)) = idx in
  (getPriority car = PRIORITY_DISTANCE ->
   forall g0, g0 ∈ facilities -> hasFree g0 -> dist g0 < FLT_MAX ->
   exists t n sp,
     t ∈ facilities /\ spots (snd t) !! n = Some sp /\ state sp = FREE
     /\ assigned t (Z.of_nat n)
     /\ forall g, g ∈ facilities -> hasFree g -> dist t <= dist g)
  /\ (getPriority car = PRIORITY_PRICE ->
      forall g0, g0 ∈ facilities -> hasFree g0 ->
                 (forall sp, sp ∈ spots (snd g0) -> price sp < FLT_MAX) ->
      exists t n sp,
        (t, Z.of_nat n) ∈ samples /\ spots (snd t) !! n = Some sp /\ state sp = FREE
        /\ assigned t (Z.of_nat n)
        /\ forall g j, (g, j) ∈ samples -> j <> (-1)%Z ->
                       price sp <= price (getSpot (snd g) j))
  /\ (forall f1 f2 s1 s2,
         facilities = [f1; f2] \/ facilities = [f2; f1] ->
         spots (snd f1) = [s1] -> state s1 = FREE -> price s1 == 5 -> dist f1 == 10 ->
         spots (snd f2) = [s2] -> state s2 = FREE -> price s2 == 2 -> dist f2 == 50 ->
         (getPriority car = PRIORITY_DISTANCE -> assigned f1 0%Z)
         /\ (getPriority car = PRIORITY_PRICE -> assigned f2 0%Z)).
Proof.
  intros facilities samples dist hasFree assigned.
  assert (Hdist : getPriority car = PRIORITY_DISTANCE ->
            forall g0, g0 ∈ facilities -> hasFree g0 -> dist g0 < FLT_MAX ->
            exists t n sp,
              t ∈ facilities /\ spots (snd t) !! n = Some sp /\ state sp = FREE
              /\ assigned t (Z.of_nat n)
              /\ forall g, g ∈ facilities -> hasFree g -> dist t <= dist g).
  { intros Hprio g0 Hg0 Hfree0 Hd0.
    destruct (onCarSpawned_distance k st car rng g0 Hprio Hg0 Hfree0 Hd0)
      as (t & n & sp & Ht & Hl & Hs & A1 & A2 & A3 & Hmin).
    exists t, n, sp. unfold assigned. auto 10. }
  assert (Hprice : getPriority car = PRIORITY_PRICE ->
            forall g0, g0 ∈ facilities -> hasFree g0 ->
                       (forall sp, sp ∈ spots (snd g0) -> price sp < FLT_MAX) ->
            exists t n sp,
              (t, Z.of_nat n) ∈ samples /\ spots (snd t) !! n = Some sp /\ state sp = FREE
              /\ assigned t (Z.of_nat n)
              /\ forall g j, (g, j) ∈ samples -> j <> (-1)%Z ->
                             price sp <= price (getSpot (snd g) j)).
  { intros Hprio g0 Hg0 Hfree0 Hp0.
    destruct (onCarSpawned_price k st car rng g0 Hprio Hg0 Hfree0 Hp0)
      as (t & n & sp & Ht & Hl & Hs & A1 & A2 & A3 & Hmin).
    exists t, n, sp. unfold assigned. auto 10. }
  split; [exact Hdist |]. split; [exact Hprice |].
  intros f1 f2 s1 s2 Hfac Hs1 Hf1 Hp1 Hd1 Hs2 Hf2 Hp2 Hd2.
  assert (Hin1 : f1 ∈ facilities)
    by (destruct Hfac as [-> | ->]; rewrite !elem_of_cons; auto).
  assert (Hin2 : f2 ∈ facilities)
    by (destruct Hfac as [-> | ->]; rewrite !elem_of_cons; auto).
  assert (Hcases : forall t, t ∈ facilities -> t = f1 \/ t = f2).
  { intros t Ht. destruct Hfac as [E | E]; rewrite E in Ht;
      apply elem_of_cons in Ht as [-> | Ht]; auto;
      apply list_elem_of_singleton in Ht; auto. }
  assert (Hfree1 : hasFree f1) by (exists s1; rewrite Hs1; split; [left | exact Hf1]).
  assert (Hfree2 : hasFree f2) by (exists s2; rewrite Hs2; split; [left | exact Hf2]).
  pose proof FLT_MAX_pos as Hbig.
  split.
  - intros Hprio.
    destruct (Hdist Hprio f1 Hin1 Hfree1) as (t & n & sp & Ht & Hl & Hs & Ha & Hmin).
    { assert (10 < FLT_MAX) by reflexivity. lra. }
    destruct (Hcases t Ht) as [-> | ->].
    + destruct (single_spot _ _ _ _ Hs1 Hl) as (-> & _ & _). exact Ha.
    + specialize (Hmin f1 Hin1 Hfree1). exfalso. lra.
  - intros Hprio.
    destruct (Hprice Hprio f2 Hin2 Hfree2) as (t & n & sp & Ht & Hl & Hs & Ha & Hmin).
    { intros sp Hsp. rewrite Hs2 in Hsp. apply list_elem_of_singleton in Hsp. subst sp.
      assert (2 < FLT_MAX) by reflexivity. lra. }
    destruct (priceSamples_free _ _ _ _ Ht ltac:(lia)) as [Htin _].
    destruct (Hcases t Htin) as [-> | ->].
    + exfalso.
      destruct (single_spot _ _ _ _ Hs1 Hl) as (-> & -> & _).
      destruct (priceSamples_cover facilities (snd (decideSeekCharging car rng)) f2 Hin2)
        as (j & Hj & Hne).
      specialize (Hne (proj1 (hasFree_freeIndices _) Hfree2)).
      destruct (priceSamples_free _ _ _ _ Hj Hne) as (_ & n2 & sp2 & Hi2 & Hl2 & _).
      destruct (single_spot _ _ _ _ Hs2 Hl2) as (-> & -> & Hg2).
      specialize (Hmin f2 j Hj Hne). rewrite Hi2, Hg2 in Hmin. lra.
    + destruct (single_spot _ _ _ _ Hs2 Hl) as (-> & _ & _). exact Ha.
Qed.
End SelectionFacts.

(** ** The vehicle update of Car.cpp *)

Section CarFacts.
Context `{Raymath}.
Import CarEntity.

Lemma avoid_waypoints (other c : Car) : waypoints (avoid other c) = waypoints c.
Proof.
  unfold avoid. destruct (Qltb _ 70); [| reflexivity].
  destruct (Qltb 10 _); reflexivity.
Qed.

Lemma avoidAll_waypoints (self i : nat) (cars : list Car) (c : Car) :
  waypoints (avoidAll self i cars c) = waypoints c.
Proof.
  revert i c. induction cars as [| other cars IH]; intros i c; simpl; [reflexivity |].
  rewrite IH. destruct (i =? self)%nat; [reflexivity | apply avoid_waypoints].
Qed.

Lemma integrate_waypoints (dt : Q) (c : Car) : waypoints (integrate dt c) = waypoints c.
Proof.
  unfold integrate. simpl. destruct (Qltb _ _); reflexivity.
Qed.

Lemma refillWaypoints_nonempty (c : Car) (rng : Rng) :
  waypoints c <> [] -> refillWaypoints c rng = (c, rng).
Proof.
  unfold refillWaypoints. destruct (waypoints c); [contradiction | reflexivity].
Qed.

(** What Car.cpp does with a non-empty queue: the update seeks the front
    target and pops it exactly when the vehicle is closer to it than the
    fixed radius 50; the queue holds bare points, so no tolerance and no
    stopAtEnd of a waypoint plays a part, and no draw is made. *)
Lemma updateWithNeighbors_fixed_radius (dt : Q) (cars : option (list Car)) (self : nat)
        (c : Car) (rng : Rng) (target : Vector2) (rest : list Vector2) :
  waypoints c = target :: rest ->
  followWaypoints c
  = (if Qltb (Vector2Distance (position c) target) 50
     then pop_front (seek target c) else seek target c)
  /\ (Vector2Distance (position c) target < 50 ->
      waypoints (fst (updateWithNeighbors dt cars self c rng)) = rest)
  /\ (~ Vector2Distance (position c) target < 50 ->
      waypoints (fst (updateWithNeighbors dt cars self c rng)) = target :: rest)
  /\ snd (updateWithNeighbors dt cars self c rng) = rng.
Proof.
  intros Hq.
  assert (Hfollow : followWaypoints c
                    = (if Qltb (Vector2Distance (position c) target) 50
                       then pop_front (seek target c) else seek target c)).
  { unfold followWaypoints. rewrite Hq. reflexivity. }
  assert (Hupd : updateWithNeighbors dt cars self c rng
                 = (integrate dt
                      (match cars with
                       | Some others => avoidAll self 0 others (followWaypoints c)
                       | None => followWaypoints c
                       end), rng)).
  { unfold updateWithNeighbors. rewrite refillWaypoints_nonempty; [reflexivity |].
    rewrite Hq. discriminate. }
  assert (Hw : waypoints (fst (updateWithNeighbors dt cars self c rng))
               = waypoints (followWaypoints c)).
  { rewrite Hupd. cbn [fst]. rewrite integrate_waypoints.
    destruct cars; [apply avoidAll_waypoints | reflexivity]. }
  split; [exact Hfollow |]. rewrite Hw, Hfollow.
  split; [| split].
  - intros Hnear. apply Qltb_lt in Hnear. rewrite Hnear.
    unfold pop_front. simpl. now rewrite Hq.
  - intros Hfar.
    destruct (Qltb (Vector2Distance (position c) target) 50) eqn:E.
    + apply Qltb_lt in E. contradiction.
    + simpl. exact Hq.
  - rewrite Hupd. reflexivity.
Qed.
End CarFacts.

Section CarWitnesses.
Import Examples.

Lemma updateWithNeighbors_fixed_radius_witness :
  CarEntity.waypoints (fst (CarEntity.updateWithNeighbors (1 # 60) None 0
                    (CarEntity.addWaypoint (position spotWaypoint) wanderer) []))
  = [].
Proof.
  apply (updateWithNeighbors_fixed_radius (1 # 60) None 0
           (CarEntity.addWaypoint (position spotWaypoint) wanderer) []
           (position spotWaypoint) []).
  - reflexivity.
  - vm_compute. reflexivity.
Defined.

End CarWitnesses.

(** ** The theorems at concrete inputs *)

Section HandlerWitnesses.
Import Examples TrafficSystem Run.

Lemma getRandomSpotIndex_contract_witness :
  getRandomSpotIndex
    (parkingAt origin [spotAt 0 0 RESERVED 1; spotAt 1 0 FREE 1; spotAt 2 0 FREE 1])
    [7; 3]%Z
  = (2%Z, [3%Z])
  /\ exists j sp,
      fst (getRandomSpotIndex
             (parkingAt origin
                [spotAt 0 0 RESERVED 1; spotAt 1 0 FREE 1; spotAt 2 0 FREE 1])
             [7; 3]%Z) = Z.of_nat j
      /\ spots (parkingAt origin
                  [spotAt 0 0 RESERVED 1; spotAt 1 0 FREE 1; spotAt 2 0 FREE 1]) !! j
         = Some sp
      /\ state sp = FREE.
Proof.
  destruct (getRandomSpotIndex_contract
              (parkingAt origin
                 [spotAt 0 0 RESERVED 1; spotAt 1 0 FREE 1; spotAt 2 0 FREE 1])
              [7; 3]%Z) as (_ & Hfree & _ & _ & Hdraw & _).
  split.
  - destruct Hdraw as (r & j & _ & Hr & Hj & Hres); [discriminate |].
    change (Z.of_nat r = 1%Z) in Hr.
    assert (r = 1%nat) by lia. subst r.
    change (Some 2%nat = Some j) in Hj. inversion Hj; subst j.
    rewrite Hres. reflexivity.
  - destruct Hfree as (j & sp & Hres & Hl & Hs & _).
    + exists (spotAt 1 0 FREE 1). split; [| reflexivity].
      apply list_elem_of_lookup. exists 1%nat. reflexivity.
    + exists j, sp. auto.
Defined.

Lemma onCarSpawned_through_traffic_witness :
  exists wp : Waypoint,
    sp_published (onCarSpawned 0 (mkStore townFull [])
                               (carOf COMBUSTION PRIORITY_DISTANCE DRIVING) [])
    = Some [wp]
    /\ getState (sp_car (onCarSpawned 0 (mkStore townFull [])
                                      (carOf COMBUSTION PRIORITY_DISTANCE DRIVING) []))
       = EXITING
    /\ stopAtEnd wp = true
    /\ vec_x (worldPosition roadRight) + getWidth roadRight < vec_x (position wp).
Proof.
  destruct (onCarSpawned_through_traffic
              0 (mkStore townFull []) (carOf COMBUSTION PRIORITY_DISTANCE DRIVING) [])
    as (wp & _ & Hpub & _ & Hstate & _ & Hstop & Hbeyond).
  - vm_compute. discriminate.
  - intros f Hf sp Hsp.
    assert (E : eligibleFacilities
                  (getType (carOf COMBUSTION PRIORITY_DISTANCE DRIVING))
                  (fst (decideSeekCharging (carOf COMBUSTION PRIORITY_DISTANCE DRIVING) []))
                  (st_modules (mkStore townFull []))
                = [(1%nat, nearParking OCCUPIED); (3%nat, farParking RESERVED)])
      by reflexivity.
    rewrite E in Hf.
    apply elem_of_cons in Hf as [-> | Hf];
      [| apply list_elem_of_singleton in Hf; subst f];
      simpl in Hsp; apply list_elem_of_singleton in Hsp; subst sp; discriminate.
  - intros m Hm Hroad. simpl in Hm.
    repeat (apply elem_of_cons in Hm as [-> | Hm]); try discriminate Hroad;
      [| | inversion Hm];
      split; vm_compute; discriminate.
  - exists wp. split; [exact Hpub |]. split; [exact Hstate |]. split; [exact Hstop |].
    destruct (Hbeyond (vec_x (position wp)) (roundsTo_exact _)) as [Hright _].
    apply Hright.
    + reflexivity.
    + apply elem_of_cons. right. apply elem_of_cons. right. apply elem_of_cons. right.
      apply elem_of_cons. right. apply elem_of_cons. right. apply elem_of_cons. left.
      reflexivity.
    + reflexivity.
Defined.

(** C6 as the specification states it, at concrete inputs.  A combustion
    vehicle spawned on a map whose only facility is a full charging station
    finds no facility with a free spot, yet gets no path and keeps its state:
    the handler returns before it comes to the through-traffic code.  And on
    a map whose rightmost road is an entrance road the through waypoint of a
    vehicle moving right lies before that road's right edge: only NormalRoads
    count for the bounds. *)
Lemma through_traffic_not_for_every_spawn :
  (freeIndices <$> Scenarios.townWithoutParking = [[]; []; []; []]
   /\ sp_published (onCarSpawned 0 (mkStore Scenarios.townWithoutParking [])
                                 (carOf COMBUSTION PRIORITY_DISTANCE DRIVING) [])
      = None
   /\ sp_car (onCarSpawned 0 (mkStore Scenarios.townWithoutParking [])
                           (carOf COMBUSTION PRIORITY_DISTANCE DRIVING) [])
      = carOf COMBUSTION PRIORITY_DISTANCE DRIVING
   /\ getState (carOf COMBUSTION PRIORITY_DISTANCE DRIVING) <> EXITING)
  /\ (freeIndices <$> Scenarios.townEndingInEntrance = [[]; []; []]
      /\ 0 < vec_x (getVelocity (carOf COMBUSTION PRIORITY_DISTANCE DRIVING))
      /\ sp_published (onCarSpawned 0 (mkStore Scenarios.townEndingInEntrance [])
                                    (carOf COMBUSTION PRIORITY_DISTANCE DRIVING) [])
         = Some [Waypoint5 (mkVector2 (297 # 7) 0) 1 (-1) 0 true]
      /\ 297 # 7 < vec_x (worldPosition entrance) + getWidth entrance).
Proof.
  split; [split; [| split; [| split]] | split; [| split; [| split]]].
  - reflexivity.
  - reflexivity.
  - reflexivity.
  - discriminate.
  - reflexivity.
  - reflexivity.
  - vm_compute. reflexivity.
  - reflexivity.
Qed.

Lemma onCarSpawned_priority_witness :
  getParkedFacility
    (sp_car (onCarSpawned 0 (mkStore townOpen [])
                          (carOf COMBUSTION PRIORITY_DISTANCE DRIVING) []))
  = Some 1%nat
  /\ getParkedFacility
       (sp_car (onCarSpawned 0 (mkStore townOpen [])
                             (carOf COMBUSTION PRIORITY_PRICE DRIVING) []))
     = Some 3%nat.
Proof.
  assert (Hp1 : price (spotAt 1 1 FREE 5) == 5) by reflexivity.
  assert (Hp2 : price (spotAt 2 2 FREE 2) == 2) by reflexivity.
  assert (Hd1 : Vector2Distance origin (worldPosition (nearParking FREE)) == 10)
    by (vm_compute; reflexivity).
  assert (Hd2 : Vector2Distance origin (worldPosition (farParking FREE)) == 50)
    by (vm_compute; reflexivity).
  split.
  - pose proof (onCarSpawned_priority
                  0 (mkStore townOpen []) (carOf COMBUSTION PRIORITY_DISTANCE DRIVING) [])
      as T.
    cbv zeta in T. destruct T as (_ & _ & Hscenario).
    destruct (Hscenario (1%nat, nearParking FREE) (3%nat, farParking FREE)
                        (spotAt 1 1 FREE 5) (spotAt 2 2 FREE 2)
                        (or_introl eq_refl) eq_refl eq_refl Hp1 Hd1
                        eq_refl eq_refl Hp2 Hd2) as [Hd _].
    apply Hd. reflexivity.
  - pose proof (onCarSpawned_priority
                  0 (mkStore townOpen []) (carOf COMBUSTION PRIORITY_PRICE DRIVING) [])
      as T.
    cbv zeta in T. destruct T as (_ & _ & Hscenario).
    destruct (Hscenario (1%nat, nearParking FREE) (3%nat, farParking FREE)
                        (spotAt 1 1 FREE 5) (spotAt 2 2 FREE 2)
                        (or_introl eq_refl) eq_refl eq_refl Hp1 Hd1
                        eq_refl eq_refl Hp2 Hd2) as [_ Hp].
    apply Hp. reflexivity.
Defined.

Lemma tickCar_exit_witness :
  getState (tk_car (tickCar (0, 100) (1 # 60) 0 (mkStore townFull [])
                            (leaver PRIORITY_DISTANCE) []))
  = EXITING
  /\ spotStateAt 1 0 (st_modules
                        (tk_store (tickCar (0, 100) (1 # 60) 0 (mkStore townFull [])
                                           (leaver PRIORITY_DISTANCE) [])))
     = Some FREE.
Proof.
  destruct (tickCar_exit (0, 100) (1 # 60) 0 (mkStore townFull [])
                         (leaver PRIORITY_DISTANCE) [] 1)
    as (_ & _ & Hfree & _ & _ & _ & Hstate).
  - reflexivity.
  - reflexivity.
  - discriminate.
  - split; [exact Hstate |]. apply (Hfree OCCUPIED). reflexivity.
Defined.

Lemma parkedLogic_split_witness :
  getBatteryLevel (snd (fst (parkedLogic 1 townFull charger []))) = 50 + 5 * 1
  /\ parkedLogic 1 townFull (leaver PRIORITY_PRICE) [] = (true, leaver PRIORITY_PRICE, []).
Proof.
  split.
  - destruct (parkedLogic_split 1 townFull charger []) as [Hcharge _].
    + reflexivity.
    + discriminate.
    + destruct Hcharge as (_ & Hbat & _); [reflexivity | reflexivity |].
      exact Hbat.
  - destruct (parkedLogic_split 1 townFull (leaver PRIORITY_PRICE) []) as [_ Htimer].
    + reflexivity.
    + discriminate.
    + apply Htimer. right. reflexivity.
Defined.

(** A whole run: a vehicle is spawned and sent to the near parking, parks,
    is seen parked by a tick, and leaves on a later tick.  The observer of
    spot 0 of module 1 sees FREE, RESERVED, OCCUPIED, FREE. *)
Example spot_life_cycle_run :
  observed 1 0 townOpen [carOf COMBUSTION PRIORITY_DISTANCE DRIVING]
           [ CarSpawnedEvent 0 [];
             VehiclesChanged [parkedAt 1 0 (carOf COMBUSTION PRIORITY_DISTANCE DRIVING)];
             GameUpdateEvent (1 # 60) [];
             VehiclesChanged [leaver PRIORITY_DISTANCE];
             GameUpdateEvent (1 # 60) [] ]
  = [Some FREE; Some RESERVED; Some OCCUPIED; Some FREE].
Proof. vm_compute. reflexivity. Qed.

(** The entry path to spot 0 of the near parking: road entry on the DOWN
    lane right of the junction, facility entry, alignment point, spot. *)
Example GeneratePath_nearParking :
  (fun w => (Qred (vec_x (position w)), Qred (vec_y (position w)), Qred (tolerance w),
             stopAtEnd w))
    <$> PathPlanner.GeneratePath (carOf COMBUSTION PRIORITY_DISTANCE DRIVING)
                                 (nearParking FREE) (spotAt 1 1 FREE 5)
  = [ (440 # 7, 94 # 7, 5 # 2, false);
      (225 # 7, 165 # 7, 3 # 2, false);
      (Qred (11 + (1 - (355 # 113) * (355 # 113) / 2) * 8),
       Qred (1 + ((355 # 113) - (355 # 113) * (355 # 113) * (355 # 113) / 6) * 8),
       1, false);
      (11, 1, 1 # 5, true) ].
Proof. vm_compute. reflexivity. Qed.

(** With every parking full the spawned vehicle is sent straight through:
    one waypoint, two meters past the right edge of the rightmost road. *)
Example throughPath_townFull :
  sp_published (onCarSpawned 0 (mkStore townFull [])
                             (carOf COMBUSTION PRIORITY_DISTANCE DRIVING) [])
  = Some [Waypoint5 (mkVector2 (80 + 283 / 7 + 2) 0) 1 (-1) 0 true].
Proof. vm_compute. reflexivity. Qed.

(** The vehicle whose timer has elapsed leaves module 1 on the side it
    came from, whatever the tape says; its path ends two meters before the
    left edge of the map. *)
Example leaver_exits_left :
  (fun w => (Qred (vec_x (position w)), stopAtEnd w))
    <$> last (getPath (tk_car (tickCar (roadBounds townFull) (1 # 60) 0
                                       (mkStore townFull []) (leaver PRIORITY_DISTANCE)
                                       [1%Z])))
  = Some (- 2, true).
Proof. vm_compute. reflexivity. Qed.
End HandlerWitnesses.

(** ** The SpawnCarRequestEvent handler *)

Section SpawnRequestFacts.
Context `{Config} `{Raymath}.
Import SpawnRequest.

(** What the scan for the boundary roads keeps true. *)
Lemma boundary_fold (ms seen : list Module_) (b : Boundary) :
  (forall m, m ∈ seen -> isNormalRoad m = true ->
             minX b <= vec_x (worldPosition m)
             /\ vec_x (worldPosition m) + getWidth m <= maxRightX b) ->
  (leftRoad b = None -> minX b = FLT_MAX) ->
  (rightRoad b = None -> maxRightX b = FLT_LOWEST) ->
  (forall r, leftRoad b = Some r ->
             r ∈ seen /\ isNormalRoad r = true /\ vec_x (worldPosition r) = minX b) ->
  (forall r, rightRoad b = Some r ->
             r ∈ seen /\ isNormalRoad r = true
             /\ vec_x (worldPosition r) + getWidth r = maxRightX b) ->
  (forall m, m ∈ seen ++ ms -> isNormalRoad m = true ->
             minX (fold_left boundaryStep ms b) <= vec_x (worldPosition m)
             /\ vec_x (worldPosition m) + getWidth m
                <= maxRightX (fold_left boundaryStep ms b))
  /\ (leftRoad (fold_left boundaryStep ms b) = None ->
      minX (fold_left boundaryStep ms b) = FLT_MAX)
  /\ (rightRoad (fold_left boundaryStep ms b) = None ->
      maxRightX (fold_left boundaryStep ms b) = FLT_LOWEST)
  /\ (forall r, leftRoad (fold_left boundaryStep ms b) = Some r ->
                r ∈ seen ++ ms /\ isNormalRoad r = true
                /\ vec_x (worldPosition r) = minX (fold_left boundaryStep ms b))
  /\ (forall r, rightRoad (fold_left boundaryStep ms b) = Some r ->
                r ∈ seen ++ ms /\ isNormalRoad r = true
                /\ vec_x (worldPosition r) + getWidth r
                   = maxRightX (fold_left boundaryStep ms b)).
Proof.
  revert seen b. induction ms as [| m0 ms IH]; intros seen b I1 I2 I3 I4 I5; simpl.
  - rewrite app_nil_r. auto.
  - replace (seen ++ m0 :: ms) with ((seen ++ [m0]) ++ ms) by (now rewrite <- app_assoc).
    assert (Hseen : forall m, m ∈ seen -> m ∈ seen ++ [m0])
      by (intros m Hm; apply elem_of_app; now left).
    assert (Hnew : m0 ∈ seen ++ [m0]) by (apply elem_of_app; right; left).
    apply IH; clear IH; unfold boundaryStep;
      destruct (isNormalRoad m0) eqn:Eroad;
      destruct (Qltb (vec_x (worldPosition m0)) (minX b)) eqn:E1; simpl;
      try (destruct (Qltb (maxRightX b) (vec_x (worldPosition m0) + getWidth m0)) eqn:E2;
           simpl);
      try apply Qltb_lt in E1; try apply Qltb_ge in E1;
      try apply Qltb_lt in E2; try apply Qltb_ge in E2.
    all: try (intros m Hm Hroad; apply elem_of_app in Hm as [Hm | Hm];
              [ destruct (I1 m Hm Hroad); split; lra
              | apply list_elem_of_singleton in Hm; subst m;
                first [congruence | split; lra] ]).
    all: try match goal with
             | |- forall r, _ = Some r -> _ =>
                 intros r Hr; first
                   [ inversion Hr; subst r; auto
                   | destruct (I4 r Hr) as (? & ? & ?); auto
                   | destruct (I5 r Hr) as (? & ? & ?); auto ]
             | |- _ = None -> _ => intros Hnone; first [discriminate | auto]
             end.
Qed.

Lemma findBoundaryRoads_spec (modules : list Module_) :
  (forall m, m ∈ modules -> isNormalRoad m = true ->
             minX (findBoundaryRoads modules) <= vec_x (worldPosition m)
             /\ vec_x (worldPosition m) + getWidth m
                <= maxRightX (findBoundaryRoads modules))
  /\ (leftRoad (findBoundaryRoads modules) = None ->
      minX (findBoundaryRoads modules) = FLT_MAX)
  /\ (rightRoad (findBoundaryRoads modules) = None ->
      maxRightX (findBoundaryRoads modules) = FLT_LOWEST)
  /\ (forall r, leftRoad (findBoundaryRoads modules) = Some r ->
                r ∈ modules /\ isNormalRoad r = true
                /\ vec_x (worldPosition r) = minX (findBoundaryRoads modules))
  /\ (forall r, rightRoad (findBoundaryRoads modules) = Some r ->
                r ∈ modules /\ isNormalRoad r = true
                /\ vec_x (worldPosition r) + getWidth r
                   = maxRightX (findBoundaryRoads modules)).
Proof.
  unfold findBoundaryRoads.
  apply (boundary_fold modules [] (mkBoundary None None FLT_MAX FLT_LOWEST)); simpl;
    try reflexivity; try discriminate.
  intros m Hm. inversion Hm.
Qed.

(** The shape of a published CreateCarEvent. *)
Lemma onSpawnCarRequest_form (modules : list Module_) (rng : Rng) (ev : CreateCarEvent) :
  fst (onSpawnCarRequest modules rng) = Some ev ->
  ((exists road,
       leftRoad (findBoundaryRoads modules) = Some road
       /\ cc_enteredFromLeft ev = true
       /\ cc_velocity ev = mkVector2 15 0
       /\ cc_position ev
          = mkVector2 (vec_x (worldPosition road))
                      (vec_y (worldPosition road)
                       + LANE_OFFSET_DOWN / ART_PIXELS_PER_METER))
   \/ (exists road,
          rightRoad (findBoundaryRoads modules) = Some road
          /\ cc_enteredFromLeft ev = false
          /\ cc_velocity ev = mkVector2 (- 15) 0
          /\ cc_position ev
             = mkVector2 (vec_x (worldPosition road) + getWidth road)
                         (vec_y (worldPosition road)
                          + LANE_OFFSET_UP / ART_PIXELS_PER_METER)))
  /\ (cc_carType ev = 0%Z \/ cc_carType ev = 1%Z)
  /\ (cc_priority ev = 0%Z \/ cc_priority ev = 1%Z)
  /\ (leftRoad (findBoundaryRoads modules) <> None ->
      rightRoad (findBoundaryRoads modules) <> None ->
      cc_enteredFromLeft ev = (fst (GetRandomValue 0 1 rng) =? 0)%Z).
Proof.
  unfold onSpawnCarRequest. destruct modules as [| m0 ms] eqn:Em; [discriminate |].
  rewrite <- Em. clear Em m0 ms.
  destruct (GetRandomValue 0 1 rng) as [side rng1].
  assert (Htwo : forall z : Z, (if (z =? 0)%Z then 0%Z else 1%Z) = 0%Z
                               \/ (if (z =? 0)%Z then 0%Z else 1%Z) = 1%Z)
    by (intros z; destruct (z =? 0)%Z; auto).
  destruct (leftRoad (findBoundaryRoads modules)) as [l |] eqn:El;
    destruct (rightRoad (findBoundaryRoads modules)) as [r |] eqn:Er;
    try discriminate;
    destruct (GetRandomValue 0 1 rng1) as [t rng2];
    destruct (GetRandomValue 0 1 rng2) as [p rng3];
    simpl; try destruct (side =? 0)%Z eqn:Es; simpl;
    intros Hev; inversion Hev; subst ev; simpl;
    (split; [| split; [apply Htwo | split; [apply Htwo |]]]);
    try (intros Hl Hr; congruence);
    try (left; eexists; repeat split; reflexivity);
    try (right; eexists; repeat split; reflexivity).
Qed.

(** X1. Without a NormalRoad in the map (an empty map included) the spawn
    request is dropped: no event is published and no random draw is made. *)
Theorem onSpawnCarRequest_no_road (modules : list Module_) (rng : Rng) :
  (forall m, m ∈ modules -> isNormalRoad m = false) ->
  onSpawnCarRequest modules rng = (None, rng).
Proof.
  intros Hnone. unfold onSpawnCarRequest.
  destruct modules as [| m0 ms] eqn:Em; [reflexivity |]. rewrite <- Em in *.
  destruct (findBoundaryRoads_spec modules) as (_ & _ & _ & Hl & Hr).
  destruct (leftRoad (findBoundaryRoads modules)) as [l |].
  { destruct (Hl l eq_refl) as (Hin & Hroad & _). rewrite (Hnone l Hin) in Hroad.
    discriminate. }
  destruct (rightRoad (findBoundaryRoads modules)) as [r |]; [| reflexivity].
  destruct (Hr r eq_refl) as (Hin & Hroad & _). rewrite (Hnone r Hin) in Hroad.
  discriminate.
Qed.

(** X2. With a NormalRoad in the map (coordinates in float range) a vehicle
    is created, on the side the first draw chooses: at the left edge of the
    leftmost NormalRoad with velocity (15, 0) and enteredFromLeft set, or at
    the right edge of the rightmost NormalRoad with velocity (-15, 0) and
    enteredFromLeft cleared.  No NormalRoad reaches beyond the spawn point on
    that side.  Type and priority are 0 or 1. *)
Theorem onSpawnCarRequest_spawn (modules : list Module_) (rng : Rng) (m0 : Module_) :
  m0 ∈ modules -> isNormalRoad m0 = true ->
  vec_x (worldPosition m0) < FLT_MAX ->
  FLT_LOWEST < vec_x (worldPosition m0) + getWidth m0 ->
  exists ev road,
    fst (onSpawnCarRequest modules rng) = Some ev
    /\ road ∈ modules /\ isNormalRoad road = true
    /\ cc_enteredFromLeft ev = (fst (GetRandomValue 0 1 rng) =? 0)%Z
    /\ ((cc_enteredFromLeft ev = true
         /\ cc_velocity ev = mkVector2 15 0
         /\ cc_position ev
            = mkVector2 (vec_x (worldPosition road))
                        (vec_y (worldPosition road)
                         + LANE_OFFSET_DOWN / ART_PIXELS_PER_METER)
         /\ forall m, m ∈ modules -> isNormalRoad m = true ->
                      vec_x (cc_position ev) <= vec_x (worldPosition m))
        \/ (cc_enteredFromLeft ev = false
            /\ cc_velocity ev = mkVector2 (- 15) 0
            /\ cc_position ev
               = mkVector2 (vec_x (worldPosition road) + getWidth road)
                           (vec_y (worldPosition road)
                            + LANE_OFFSET_UP / ART_PIXELS_PER_METER)
            /\ forall m, m ∈ modules -> isNormalRoad m = true ->
                         vec_x (worldPosition m) + getWidth m <= vec_x (cc_position ev)))
    /\ (cc_carType ev = 0%Z \/ cc_carType ev = 1%Z)
    /\ (cc_priority ev = 0%Z \/ cc_priority ev = 1%Z).
Proof.
  intros Hin Hroad Hlo Hhi.
  destruct (findBoundaryRoads_spec modules) as (Hall & Hln & Hrn & Hl & Hr).
  destruct (Hall m0 Hin Hroad) as [Hmin Hmax].
  assert (Hleft : leftRoad (findBoundaryRoads modules) <> None).
  { intros E. rewrite (Hln E) in Hmin. lra. }
  assert (Hright : rightRoad (findBoundaryRoads modules) <> None).
  { intros E. rewrite (Hrn E) in Hmax. lra. }
  destruct (fst (onSpawnCarRequest modules rng)) as [ev |] eqn:Eev.
  - destruct (onSpawnCarRequest_form modules rng ev Eev)
      as ([(road & El & Hfl & Hv & Hp) | (road & Er & Hfl & Hv & Hp)] & Ht & Hpr & Hside).
    + destruct (Hl road El) as (Hrin & Hrroad & Hx).
      exists ev, road. repeat split; auto.
      left. repeat split; auto.
      intros m Hm Hmroad. rewrite Hp. simpl. rewrite Hx. apply (Hall m Hm Hmroad).
    + destruct (Hr road Er) as (Hrin & Hrroad & Hx).
      exists ev, road. repeat split; auto.
      right. repeat split; auto.
      intros m Hm Hmroad. rewrite Hp. simpl. rewrite Hx. apply (Hall m Hm Hmroad).
  - exfalso. unfold onSpawnCarRequest in Eev.
    destruct modules as [| m1 ms] eqn:Em; [inversion Hin |]. rewrite <- Em in *.
    destruct (leftRoad (findBoundaryRoads modules)); [| contradiction].
    destruct (rightRoad (findBoundaryRoads modules)); [| contradiction].
    destruct (GetRandomValue 0 1 rng) as [side rng1].
    destruct (GetRandomValue 0 1 rng1) as [t rng2].
    destruct (GetRandomValue 0 1 rng2) as [p rng3].
    destruct (side =? 0)%Z; discriminate.
Qed.

(** X3. The lane a vehicle is spawned on is the lane the path planner
    picks for it: a published vehicle entered from the left exactly when the
    planner puts it on the DOWN lane, and its spawn point is offset from the
    road's top edge by the very lane offset the planner's road entry uses for
    that lane. *)
Theorem onSpawnCarRequest_lane (modules : list Module_) (rng : Rng)
        (ev : CreateCarEvent) (car : Car) :
  fst (onSpawnCarRequest modules rng) = Some ev ->
  getVelocity car = cc_velocity ev ->
  (PathPlanner.chooseLane car = DOWN <-> cc_enteredFromLeft ev = true)
  /\ exists road,
      road ∈ modules /\ isNormalRoad road = true
      /\ forall side,
          vec_y (cc_position ev)
          = vec_y (position (PathPlanner.CalculateRoadEntry
                               road (PathPlanner.chooseLane car) side)).
Proof.
  intros Hev Hvel.
  destruct (findBoundaryRoads_spec modules) as (_ & _ & _ & Hl & Hr).
  destruct (onSpawnCarRequest_form modules rng ev Hev)
    as ([(road & El & Hfl & Hv & Hp) | (road & Er & Hfl & Hv & Hp)] & _).
  - assert (Hlane : PathPlanner.chooseLane car = DOWN).
    { unfold PathPlanner.chooseLane. rewrite Hvel, Hv. reflexivity. }
    destruct (Hl road El) as (Hin & Hroad & _).
    split; [split; auto |].
    exists road. repeat split; auto.
    intros side. rewrite Hp, Hlane. reflexivity.
  - assert (Hlane : PathPlanner.chooseLane car = UP).
    { unfold PathPlanner.chooseLane. rewrite Hvel, Hv. reflexivity. }
    destruct (Hr road Er) as (Hin & Hroad & _).
    split; [rewrite Hlane, Hfl; split; discriminate |].
    exists road. repeat split; auto.
    intros side. rewrite Hp, Hlane. reflexivity.
Qed.
End SpawnRequestFacts.

(** ** More on the CarSpawnedEvent handler *)

Section SpawnExtras.
Context `{Config} `{Raymath} `{ExitPlanner}.
Import TrafficSystem.

Lemma modulesWhereFrom_elem (p : Module_ -> bool) (modules : list Module_)
      (k n : nat) (m : Module_) :
  modules !! n = Some m -> p m = true -> ((k + n)%nat, m) ∈ modulesWhereFrom k p modules.
Proof.
  revert k n. induction modules as [| m0 modules IH]; intros k [| n] Hl Hp;
    simpl in *; try discriminate.
  - inversion Hl; subst m0. rewrite Hp, Nat.add_0_r. apply elem_of_cons. now left.
  - replace (k + S n)%nat with (S k + n)%nat by lia.
    destruct (p m0); [apply elem_of_cons; right |]; apply IH; assumption.
Qed.

Lemma modulesWhere_nonempty (p : Module_ -> bool) (modules : list Module_) (m : Module_) :
  m ∈ modules -> p m = true -> modulesWhere p modules <> [].
Proof.
  intros Hin Hp E. apply list_elem_of_lookup in Hin as [n Hn].
  pose proof (modulesWhereFrom_elem p modules 0 n m Hn Hp) as Hel.
  unfold modulesWhere in E. rewrite E in Hel. inversion Hel.
Qed.

Lemma modulesWhere_empty (p : Module_ -> bool) (modules : list Module_) :
  (forall m, m ∈ modules -> p m = false) -> modulesWhere p modules = [].
Proof.
  intros Hall. destruct (modulesWhere p modules) as [| [i m] l] eqn:E; [reflexivity |].
  assert (Hin : (i, m) ∈ modulesWhere p modules) by (rewrite E; apply elem_of_cons; now left).
  apply modulesWhere_lookup in Hin as [Hl Hp].
  rewrite (Hall m) in Hp; [discriminate |].
  apply list_elem_of_lookup. eauto.
Qed.

(** The kinds of the facilities the filter lets through. *)
Lemma eligibleFacilities_kind (type : CarType) (seek : bool) (modules : list Module_)
      (f : nat * Module_) :
  f ∈ eligibleFacilities type seek modules ->
  (type = COMBUSTION -> isParking (snd f) = true)
  /\ (seek = false -> isParking (snd f) = true)
  /\ (type = ELECTRIC -> seek = true ->
      (exists m, m ∈ modules /\ isChargingStation m = true) ->
      isChargingStation (snd f) = true).
Proof.
  destruct f as [i m]. unfold eligibleFacilities. intros Hin.
  assert (Hpark : (i, m) ∈ modulesWhere isParking modules -> isParking m = true)
    by (intros Hc; apply modulesWhere_lookup in Hc; tauto).
  assert (Hcharge : (i, m) ∈ modulesWhere isChargingStation modules ->
                    isChargingStation m = true)
    by (intros Hc; apply modulesWhere_lookup in Hc; tauto).
  destruct type, seek; simpl in *;
    destruct (modulesWhere _ modules) as [| f0 fs] eqn:E in Hin.
  all: repeat split; intros; try discriminate; auto.
  all: try (inversion Hin; fail).
  all: try (rewrite E in *; auto; inversion Hin; fail).
  all: try (exfalso; match goal with
                     | Hex : exists _, _ |- _ =>
                         destruct Hex as (m1 & Hm1 & Hs1);
                         exact (modulesWhere_nonempty _ _ _ Hm1 Hs1 E)
                     end).
  all: try (apply Hcharge; rewrite ?E; exact Hin).
  all: try (apply Hpark; rewrite ?E; exact Hin).
Qed.

(** The three ways the handler ends. *)
Lemma onCarSpawned_cases (k : nat) (st : Store) (car : Car) (rng : Rng) :
  (eligibleFacilities (getType car) (fst (decideSeekCharging car rng)) (st_modules st) = []
   /\ onCarSpawned k st car rng = mkSpawned st car (snd (decideSeekCharging car rng)) None)
  \/ (eligibleFacilities (getType car) (fst (decideSeekCharging car rng)) (st_modules st) <> []
      /\ sp_store (onCarSpawned k st car rng) = st
      /\ sp_car (onCarSpawned k st car rng)
         = setState EXITING (setPath (throughPath (st_modules st) car) car)
      /\ sp_published (onCarSpawned k st car rng) = Some (throughPath (st_modules st) car))
  \/ (exists fac m idx,
         (fac, m) ∈ eligibleFacilities (getType car) (fst (decideSeekCharging car rng))
                                        (st_modules st)
         /\ idx <> (-1)%Z
         /\ sp_store (onCarSpawned k st car rng) = writeSpot k fac idx RESERVED st
         /\ sp_car (onCarSpawned k st car rng)
            = setParkingContext fac (getSpot (setSpotState idx RESERVED m) idx) idx car
         /\ sp_published (onCarSpawned k st car rng)
            = Some (PathPlanner.GeneratePath car (setSpotState idx RESERVED m)
                      (getSpot (setSpotState idx RESERVED m) idx))).
Proof.
  unfold onCarSpawned.
  destruct (decideSeekCharging car rng) as [seek rng1]. simpl fst. simpl snd.
  destruct (eligibleFacilities (getType car) seek (st_modules st))
    as [| f0 fs] eqn:Efac; [left; auto |].
  right. rewrite <- Efac in *.
  assert (Hne : eligibleFacilities (getType car) seek (st_modules st) <> [])
    by (rewrite Efac; discriminate).
  pose proof (finalSelection_pointsAtFree _ _
                (selectFacility_pointsAtFree car
                   (eligibleFacilities (getType car) seek (st_modules st)) rng1)) as Hp.
  destruct (finalSelection _ (selectFacility car _ rng1)) as [[tf idx] rng2].
  simpl in Hp. destruct Hp as [Hin _].
  destruct tf as [[fac mfac] |]; [| left; simpl; auto].
  destruct (idx =? -1)%Z eqn:Ei; [left; simpl; auto |].
  apply Z.eqb_neq in Ei.
  destruct (eligibleFacilities_lookup _ _ _ _ _ (Hin _ eq_refl)) as [Hm _].
  right. exists fac, mfac, idx.
  split; [apply Hin; reflexivity |]. split; [exact Ei |].
  simpl. rewrite list_lookup_alter_eq, Hm. simpl. auto.
Qed.

(** X4. A spawned vehicle gets a path exactly when the map holds a facility
    eligible for it; without one the handler returns early and leaves store
    and vehicle as they are.  The handler changes the vehicle's state only
    to EXITING, and only when it reserves nothing; on a vehicle that is
    assigned a spot it calls setParkingContext and nothing else (the planned
    path is published, not stored), and exactly one write, RESERVED for this
    vehicle, is logged. *)
Theorem onCarSpawned_outcomes (k : nat) (st : Store) (car : Car) (rng : Rng) :
  (sp_published (onCarSpawned k st car rng) = None
   <-> eligibleFacilities (getType car) (fst (decideSeekCharging car rng))
                          (st_modules st) = [])
  /\ (sp_published (onCarSpawned k st car rng) = None ->
      sp_store (onCarSpawned k st car rng) = st /\ sp_car (onCarSpawned k st car rng) = car)
  /\ ((sp_store (onCarSpawned k st car rng) = st
       /\ (sp_car (onCarSpawned k st car rng) = car
           \/ exists path,
               sp_published (onCarSpawned k st car rng) = Some path
               /\ sp_car (onCarSpawned k st car rng)
                  = setState EXITING (setPath path car)))
      \/ (exists fac idx spot,
             st_journal (sp_store (onCarSpawned k st car rng))
             = st_journal st ++ [mkSpotWrite k fac idx RESERVED]
             /\ idx <> (-1)%Z
             /\ sp_car (onCarSpawned k st car rng) = setParkingContext fac spot idx car
             /\ sp_published (onCarSpawned k st car rng) <> None)).
Proof.
  destruct (onCarSpawned_cases k st car rng)
    as [[Hnil Hr] | [(Hne & Hst & Hcar & Hpub) | (fac & m & idx & Hin & Hidx & Hst & Hcar & Hpub)]].
  - rewrite Hr. simpl. split; [tauto |]. split; [auto |]. left. auto.
  - rewrite Hst, Hcar, Hpub.
    split; [split; [discriminate | contradiction] |].
    split; [discriminate |].
    left. split; [reflexivity |]. right. eauto.
  - rewrite Hst, Hcar, Hpub.
    split; [split; [discriminate | intros E; rewrite E in Hin; inversion Hin] |].
    split; [discriminate |].
    right. exists fac, idx, (getSpot (setSpotState idx RESERVED m) idx).
    simpl. repeat split; auto.
Qed.

(** The outcome of the charging decision outside the band. *)
Lemma decideSeekCharging_outside (car : Car) (rng : Rng) :
  (getType car = COMBUSTION -> decideSeekCharging car rng = (false, rng))
  /\ (getType car = ELECTRIC -> getBatteryLevel car < BATTERY_LOW_THRESHOLD ->
      decideSeekCharging car rng = (true, rng))
  /\ (getType car = ELECTRIC -> BATTERY_LOW_THRESHOLD <= getBatteryLevel car ->
      BATTERY_HIGH_THRESHOLD < getBatteryLevel car ->
      decideSeekCharging car rng = (false, rng)).
Proof.
  unfold decideSeekCharging. repeat split.
  - intros ->. reflexivity.
  - intros -> Hlow. apply Qltb_lt in Hlow. now rewrite Hlow.
  - intros -> Hlow Hhigh. apply Qltb_ge in Hlow. apply Qltb_lt in Hhigh.
    now rewrite Hlow, Hhigh.
Qed.

(** X5. The facility a spawned vehicle reserves a spot in is of the kind
    its type and battery call for: a parking for a combustion vehicle and
    for an electric vehicle above the high threshold; a charging station
    for an electric vehicle below the low threshold whenever the map holds a
    charging station at all (parkings are a fallback for a map without
    charging station, not for full ones). *)
Theorem onCarSpawned_facility_kind (k : nat) (st : Store) (car : Car) (rng : Rng)
        (w : SpotWrite) :
  w ∈ st_journal (sp_store (onCarSpawned k st car rng)) ->
  w ∉ st_journal st ->
  exists m,
    st_modules st !! w_fac w = Some m
    /\ w_car w = k /\ w_state w = RESERVED
    /\ (getType car = COMBUSTION -> isParking m = true)
    /\ (getType car = ELECTRIC ->
        BATTERY_LOW_THRESHOLD <= getBatteryLevel car ->
        BATTERY_HIGH_THRESHOLD < getBatteryLevel car ->
        isParking m = true)
    /\ (getType car = ELECTRIC ->
        getBatteryLevel car < BATTERY_LOW_THRESHOLD ->
        (exists s, s ∈ st_modules st /\ isChargingStation s = true) ->
        isChargingStation m = true).
Proof.
  intros Hw Hnew.
  destruct (decideSeekCharging_outside car rng) as (Hcomb & Hlow & Hhigh).
  destruct (onCarSpawned_cases k st car rng)
    as [[_ Hr] | [(_ & Hst & _) | (fac & m & idx & Hin & _ & Hst & _)]].
  - rewrite Hr in Hw. contradiction.
  - rewrite Hst in Hw. contradiction.
  - rewrite Hst in Hw. simpl in Hw.
    apply elem_of_app in Hw as [Hw | Hw]; [contradiction |].
    apply list_elem_of_singleton in Hw. subst w. simpl.
    destruct (eligibleFacilities_lookup _ _ _ _ _ Hin) as [Hm _].
    destruct (eligibleFacilities_kind _ _ _ _ Hin) as (Kc & Kn & Ke).
    exists m. simpl in Kc, Kn, Ke.
    split; [exact Hm |]. split; [reflexivity |]. split; [reflexivity |].
    split; [exact Kc |]. split.
    + intros Ht Hl Hh. apply Kn. now rewrite (Hhigh Ht Hl Hh).
    + intros Ht Hl Hex. apply Ke; [exact Ht | now rewrite (Hlow Ht Hl) | exact Hex].
Qed.

(** X6. For a fixed random tape the charging decision of an electric
    vehicle is monotone in the battery level: if a vehicle seeks charging,
    so does every electric vehicle with no more battery. *)
Theorem decideSeekCharging_monotone (car car' : Car) (rng : Rng) :
  BATTERY_LOW_THRESHOLD < BATTERY_HIGH_THRESHOLD ->
  getType car = ELECTRIC -> getType car' = ELECTRIC ->
  getBatteryLevel car <= getBatteryLevel car' ->
  fst (decideSeekCharging car' rng) = true ->
  fst (decideSeekCharging car rng) = true.
Proof.
  intros Hband Ht Ht' Hle. unfold decideSeekCharging. rewrite Ht, Ht'.
  destruct (Qltb (getBatteryLevel car) BATTERY_LOW_THRESHOLD) eqn:E1; [reflexivity |].
  apply Qltb_ge in E1.
  destruct (Qltb (getBatteryLevel car') BATTERY_LOW_THRESHOLD) eqn:E1'.
  { apply Qltb_lt in E1'. lra. }
  destruct (Qltb BATTERY_HIGH_THRESHOLD (getBatteryLevel car')) eqn:E2'; [discriminate |].
  apply Qltb_ge in E2'.
  destruct (Qltb BATTERY_HIGH_THRESHOLD (getBatteryLevel car)) eqn:E2.
  { apply Qltb_lt in E2. lra. }
  destruct (GetRandomValue 0 100 rng) as [r rng1].
  destruct (Qltb (inject_Z r / 100)
              ((getBatteryLevel car' - BATTERY_LOW_THRESHOLD)
               / (BATTERY_HIGH_THRESHOLD - BATTERY_LOW_THRESHOLD))) eqn:E3'; [discriminate |].
  intros _. apply Qltb_ge in E3'.
  destruct (Qltb (inject_Z r / 100)
              ((getBatteryLevel car - BATTERY_LOW_THRESHOLD)
               / (BATTERY_HIGH_THRESHOLD - BATTERY_LOW_THRESHOLD))) eqn:E3; [| reflexivity].
  apply Qltb_lt in E3. exfalso.
  assert (Hmono : (getBatteryLevel car - BATTERY_LOW_THRESHOLD)
                  / (BATTERY_HIGH_THRESHOLD - BATTERY_LOW_THRESHOLD)
                  <= (getBatteryLevel car' - BATTERY_LOW_THRESHOLD)
                     / (BATTERY_HIGH_THRESHOLD - BATTERY_LOW_THRESHOLD)).
  { unfold Qdiv. apply Qmult_le_compat_r; [lra |].
    apply Qlt_le_weak, Qinv_lt_0_compat. lra. }
  lra.
Qed.

(** X7. At the ends of the band: an electric vehicle whose battery is
    exactly at the low threshold always seeks charging; one exactly at the
    high threshold seeks charging only on the draw 100 out of 0..100. *)
Theorem decideSeekCharging_band_ends (car : Car) (rng : Rng) :
  BATTERY_LOW_THRESHOLD < BATTERY_HIGH_THRESHOLD ->
  getType car = ELECTRIC ->
  (getBatteryLevel car == BATTERY_LOW_THRESHOLD ->
   fst (decideSeekCharging car rng) = true)
  /\ (getBatteryLevel car == BATTERY_HIGH_THRESHOLD ->
      fst (decideSeekCharging car rng) = (fst (GetRandomValue 0 100 rng) =? 100)%Z).
Proof.
  intros Hband Ht.
  pose proof (GetRandomValue_range 0 100 rng ltac:(lia)) as Hr.
  unfold decideSeekCharging. rewrite Ht.
  destruct (GetRandomValue 0 100 rng) as [r rng1]. simpl in Hr. simpl fst.
  assert (Hr0 : 0 <= inject_Z r / 100).
  { apply Qle_shift_div_l; [reflexivity |]. rewrite Qmult_0_l.
    change 0 with (inject_Z 0). rewrite <- Zle_Qle. lia. }
  split; intros Hbat.
  - assert (E1 : Qltb (getBatteryLevel car) BATTERY_LOW_THRESHOLD = false)
      by (apply Qltb_ge; lra).
    assert (E2 : Qltb BATTERY_HIGH_THRESHOLD (getBatteryLevel car) = false)
      by (apply Qltb_ge; lra).
    rewrite E1, E2.
    assert (E3 : Qltb (inject_Z r / 100)
                   ((getBatteryLevel car - BATTERY_LOW_THRESHOLD)
                    / (BATTERY_HIGH_THRESHOLD - BATTERY_LOW_THRESHOLD)) = false).
    { apply Qltb_ge.
      assert (Hz : (getBatteryLevel car - BATTERY_LOW_THRESHOLD)
                   / (BATTERY_HIGH_THRESHOLD - BATTERY_LOW_THRESHOLD) == 0).
      { rewrite Hbat. field. lra. }
      rewrite Hz. exact Hr0. }
    now rewrite E3.
  - assert (E1 : Qltb (getBatteryLevel car) BATTERY_LOW_THRESHOLD = false)
      by (apply Qltb_ge; lra).
    assert (E2 : Qltb BATTERY_HIGH_THRESHOLD (getBatteryLevel car) = false)
      by (apply Qltb_ge; lra).
    rewrite E1, E2.
    assert (Hone : (getBatteryLevel car - BATTERY_LOW_THRESHOLD)
                   / (BATTERY_HIGH_THRESHOLD - BATTERY_LOW_THRESHOLD) == 1).
    { rewrite Hbat. field. lra. }
    destruct (r =? 100)%Z eqn:Er.
    + apply Z.eqb_eq in Er. subst r.
      assert (E3 : Qltb (inject_Z 100 / 100)
                     ((getBatteryLevel car - BATTERY_LOW_THRESHOLD)
                      / (BATTERY_HIGH_THRESHOLD - BATTERY_LOW_THRESHOLD)) = false).
      { apply Qltb_ge. rewrite Hone. apply Qle_bool_iff. reflexivity. }
      now rewrite E3.
    + apply Z.eqb_neq in Er.
      assert (E3 : Qltb (inject_Z r / 100)
                     ((getBatteryLevel car - BATTERY_LOW_THRESHOLD)
                      / (BATTERY_HIGH_THRESHOLD - BATTERY_LOW_THRESHOLD)) = true).
      { apply Qltb_lt. rewrite Hone. apply Qlt_shift_div_r; [reflexivity |].
        rewrite Qmult_1_l. change 100 with (inject_Z 100). rewrite <- Zlt_Qlt. lia. }
      now rewrite E3.
Qed.
End SpawnExtras.

(** ** More on the GameUpdateEvent handler *)

Section TickExtras.
Context `{Config} `{Raymath} `{ExitPlanner}.
Import TrafficSystem.

Lemma tickCar_not_parked (bounds : Q * Q) (dt : Q) (k : nat) (st : Store) (car : Car)
      (rng : Rng) :
  getState car <> PARKED ->
  tickCar bounds dt k st car rng
  = mkTicked (promote k car st) car rng
             (bool_decide (getState car = EXITING) && hasArrived car).
Proof.
  intros Hs. unfold tickCar, parkedLogic.
  rewrite (bool_decide_eq_false_2 _ Hs). reflexivity.
Qed.

Lemma promote_idle (k : nat) (car : Car) (st : Store) :
  getState car <> ALIGNING -> getState car <> PARKED -> promote k car st = st.
Proof.
  intros Ha Hp. unfold promote.
  rewrite (bool_decide_eq_false_2 _ Ha), (bool_decide_eq_false_2 _ Hp). reflexivity.
Qed.

Lemma tickCars_not_parked (bounds : Q * Q) (dt : Q) (cars : list Car) (k : nat)
      (st : Store) (rng : Rng) :
  (forall car, car ∈ cars -> getState car <> PARKED) ->
  snd (fst (tickCars bounds dt k st cars rng))
  = (fun car => (car, bool_decide (getState car = EXITING) && hasArrived car)) <$> cars
  /\ snd (tickCars bounds dt k st cars rng) = rng
  /\ ((forall car, car ∈ cars -> getState car <> ALIGNING) ->
      fst (fst (tickCars bounds dt k st cars rng)) = st).
Proof.
  revert k st. induction cars as [| car cars IH]; intros k st Hall; simpl; [auto |].
  assert (Hcar : getState car <> PARKED) by (apply Hall, elem_of_cons; now left).
  assert (Hrest : forall c, c ∈ cars -> getState c <> PARKED)
    by (intros c Hc; apply Hall, elem_of_cons; now right).
  rewrite (tickCar_not_parked _ _ _ _ _ _ Hcar). simpl.
  destruct (IH (S k) (promote k car st) Hrest) as (Hcars & Hrng & Hst).
  destruct (tickCars bounds dt (S k) (promote k car st) cars rng) as [[st' cars'] rng'].
  simpl in *. subst cars' rng'.
  split; [reflexivity |]. split; [reflexivity |].
  intros Hidle.
  rewrite promote_idle in Hst by (auto; apply Hidle, elem_of_cons; now left).
  apply Hst. intros c Hc. apply Hidle, elem_of_cons. now right.
Qed.

Lemma filter_marked (f : Car -> bool) (cars : list Car) :
  fst <$> filter (fun cr : Car * bool => snd cr = false) ((fun car => (car, f car)) <$> cars)
  = filter (fun car => f car = false) cars.
Proof.
  induction cars as [| car cars IH]; [reflexivity |].
  rewrite fmap_cons, !filter_cons. cbn [snd].
  destruct (decide (f car = false)) as [E | E];
    [rewrite fmap_cons; cbn [fst] |]; now rewrite IH.
Qed.

(** X8. A tick over a fleet without PARKED vehicle draws no random value
    and touches no vehicle; it removes exactly the vehicles that are EXITING
    and have arrived, keeping the others in order.  Without ALIGNING vehicle
    either, modules and write log are untouched too. *)
Theorem onGameUpdate_no_parked (dt : Q) (st : Store) (cars : list Car) (rng : Rng) :
  (forall car, car ∈ cars -> getState car <> PARKED) ->
  snd (fst (onGameUpdate dt st cars rng))
  = filter (fun car => (bool_decide (getState car = EXITING) && hasArrived car) = false) cars
  /\ snd (onGameUpdate dt st cars rng) = rng
  /\ ((forall car, car ∈ cars -> getState car <> ALIGNING) ->
      fst (fst (onGameUpdate dt st cars rng)) = st).
Proof.
  intros Hall. unfold onGameUpdate.
  destruct (tickCars_not_parked (roadBounds (st_modules st)) dt cars 0 st rng Hall)
    as (Hcars & Hrng & Hst).
  destruct (tickCars (roadBounds (st_modules st)) dt 0 st cars rng) as [[st' marked] rng'].
  simpl in *. subst marked rng'.
  split; [apply filter_marked |]. split; [reflexivity | exact Hst].
Qed.

(** X20. A PARKED vehicle that is ready to leave but has no facility
    recorded is set to DRIVING and the iteration ends there: nothing is
    written, no exit path is planned, no random value is drawn, and the
    vehicle is not marked for removal. *)
Theorem tickCar_parked_without_facility (bounds : Q * Q) (dt : Q) (k : nat) (st : Store)
        (car : Car) (rng : Rng) :
  getState car = PARKED ->
  getParkedFacility car = None ->
  isReadyToLeave car = true ->
  tickCar bounds dt k st car rng = mkTicked st (setState DRIVING car) rng false.
Proof.
  intros Hs Hf Hready. unfold tickCar, promote, parkedLogic, isChargingSpot, leaveParking.
  rewrite Hs, Hf. simpl. rewrite Hready. destruct bounds as [mn mx].
  rewrite Hf. reflexivity.
Qed.
End TickExtras.

(** ** Map bounds and spawn points *)

Section BoundsExtras.
Context `{Config} `{Raymath} `{ExitPlanner}.
Import TrafficSystem SpawnRequest.

(** The scan of the tick and spawn handlers and the scan of the
    spawn-request handler compute the same extremes. *)
Lemma scanRoads_boundary (modules : list Module_) :
  scanRoads modules
  = (minX (findBoundaryRoads modules), maxRightX (findBoundaryRoads modules)).
Proof.
  unfold scanRoads, findBoundaryRoads.
  change (FLT_MAX, FLT_LOWEST)
    with (minX (mkBoundary None None FLT_MAX FLT_LOWEST),
          maxRightX (mkBoundary None None FLT_MAX FLT_LOWEST)).
  generalize (mkBoundary None None FLT_MAX FLT_LOWEST).
  induction modules as [| m modules IH]; intros b; [reflexivity |].
  simpl. rewrite <- IH. f_equal.
  unfold boundaryStep. destruct (isNormalRoad m); [| reflexivity].
  destruct (Qltb (vec_x (worldPosition m)) (minX b)); simpl;
    destruct (Qltb (maxRightX b) (vec_x (worldPosition m) + getWidth m)); reflexivity.
Qed.

(** A road pointer is set together with an extreme inside the float range. *)
Lemma boundary_fold_strict (ms : list Module_) (b : Boundary) :
  minX b <= FLT_MAX -> FLT_LOWEST <= maxRightX b ->
  (leftRoad b <> None -> minX b < FLT_MAX) ->
  (rightRoad b <> None -> FLT_LOWEST < maxRightX b) ->
  (leftRoad (fold_left boundaryStep ms b) <> None ->
   minX (fold_left boundaryStep ms b) < FLT_MAX)
  /\ (rightRoad (fold_left boundaryStep ms b) <> None ->
      FLT_LOWEST < maxRightX (fold_left boundaryStep ms b)).
Proof.
  revert b. induction ms as [| m ms IH]; intros b Hmin Hmax Hl Hr; [auto |].
  simpl. apply IH; unfold boundaryStep;
    destruct (isNormalRoad m); auto;
    destruct (Qltb (vec_x (worldPosition m)) (minX b)) eqn:E1; simpl;
    destruct (Qltb (maxRightX b) (vec_x (worldPosition m) + getWidth m)) eqn:E2; simpl;
    try apply Qltb_lt in E1; try apply Qltb_lt in E2; auto; intros; lra.
Qed.

(** X9. Vehicles are created exactly on the map bounds the exit logic
    works with: a vehicle entering from the left appears at the minimum x of
    [roadBounds], one entering from the right at the maximum x.  With the
    NormalRoads within 2^20 of the origin, the single waypoint of through
    traffic lies 2 beyond a spawn point up to float32 rounding: every
    rounding of the sum that gives its x is between 1.9 and 2.1 left of the
    left spawn point for a vehicle not moving right, and between 1.9 and 2.1
    right of the right spawn point for a vehicle moving right. *)
Theorem onSpawnCarRequest_at_bounds (modules : list Module_) (rng : Rng)
        (ev : CreateCarEvent) (car : Car) :
  fst (onSpawnCarRequest modules rng) = Some ev ->
  (forall m, m ∈ modules -> isNormalRoad m = true ->
             within 1048576 (vec_x (worldPosition m))
             /\ within 1048576 (vec_x (worldPosition m) + getWidth m)) ->
  (cc_enteredFromLeft ev = true -> vec_x (cc_position ev) = fst (roadBounds modules))
  /\ (cc_enteredFromLeft ev = false -> vec_x (cc_position ev) = snd (roadBounds modules))
  /\ exists wp,
      throughPath modules car = [wp]
      /\ forall x', roundsTo (vec_x (position wp)) x' ->
           (cc_enteredFromLeft ev = true -> ~ 0 < vec_x (getVelocity car) ->
            vec_x (cc_position ev) - 2.1 < x' /\ x' < vec_x (cc_position ev) - 1.9)
           /\ (cc_enteredFromLeft ev = false -> 0 < vec_x (getVelocity car) ->
               vec_x (cc_position ev) + 1.9 < x' /\ x' < vec_x (cc_position ev) + 2.1).
Proof.
  intros Hev Hrange.
  destruct (findBoundaryRoads_spec modules) as (_ & _ & _ & Hl & Hr).
  destruct (boundary_fold_strict modules (mkBoundary None None FLT_MAX FLT_LOWEST))
    as [Sl Sr]; simpl; try apply Qle_refl; try contradiction.
  fold (findBoundaryRoads modules) in Sl, Sr.
  assert (Hbounds :
            (cc_enteredFromLeft ev = true ->
             vec_x (cc_position ev) = fst (roadBounds modules))
            /\ (cc_enteredFromLeft ev = false ->
                vec_x (cc_position ev) = snd (roadBounds modules))).
  { unfold roadBounds. rewrite scanRoads_boundary.
    destruct (onSpawnCarRequest_form modules rng ev Hev)
      as ([(road & El & Hfl & _ & Hp) | (road & Er & Hfl & _ & Hp)] & _);
      rewrite Hfl, Hp; simpl; (split; [| intros; try discriminate]); intros; try discriminate.
    - destruct (Hl road El) as (_ & _ & Hx). rewrite Hx.
      destruct (Qeq_bool (minX (findBoundaryRoads modules)) FLT_MAX) eqn:E; [| reflexivity].
      apply Qeq_bool_iff in E. assert (Hlt := Sl ltac:(congruence)). lra.
    - destruct (Hr road Er) as (_ & _ & Hx). rewrite Hx.
      destruct (Qeq_bool (maxRightX (findBoundaryRoads modules)) FLT_LOWEST) eqn:E;
        [| reflexivity].
      apply Qeq_bool_iff in E. assert (Hlt := Sr ltac:(congruence)). lra. }
  destruct Hbounds as [Bl Br].
  destruct (roadBounds_within 1048576 modules) as [Wmin Wmax];
    [discriminate | exact Hrange |].
  split; [exact Bl |]. split; [exact Br |].
  destruct (throughPath_shape modules car) as (wp & Hpath & _ & _ & Hx).
  exists wp. split; [exact Hpath |]. intros x' Hx'. rewrite Hx in Hx'. split.
  - intros Hfl Hv. rewrite (Bl Hfl).
    destruct (Qltb 0 (vec_x (getVelocity car))) eqn:E.
    + apply Qltb_lt in E. contradiction.
    + apply (rounded_near _ x' Wmin). exact Hx'.
  - intros Hfl Hv. rewrite (Br Hfl). apply Qltb_lt in Hv. rewrite Hv in Hx'.
    apply (rounded_near _ x' Wmax). exact Hx'.
Qed.

Lemma scanRoads_no_road (modules : list Module_) :
  (forall m, m ∈ modules -> isNormalRoad m = false) ->
  scanRoads modules = (FLT_MAX, FLT_LOWEST).
Proof.
  unfold scanRoads. generalize (FLT_MAX, FLT_LOWEST).
  induction modules as [| m modules IH]; intros acc Hall; [reflexivity |].
  simpl. destruct acc as [mn mx].
  rewrite (Hall m) by (apply elem_of_cons; now left).
  apply IH. intros m' Hm'. apply Hall, elem_of_cons. now right.
Qed.

(** X10. On a map without NormalRoad the bounds default to 0 and 100: a
    vehicle without spot is sent to x = 102 when it moves right and to
    x = -2 otherwise, at its own y. *)
Theorem throughPath_no_road (modules : list Module_) (car : Car) :
  (forall m, m ∈ modules -> isNormalRoad m = false) ->
  roadBounds modules = (0, 100)
  /\ throughPath modules car
     = [Waypoint5 (mkVector2 (if Qltb 0 (vec_x (getVelocity car)) then 100 + 2 else 0 - 2)
                             (vec_y (getPosition car)))
                  1 (-1) 0 true].
Proof.
  intros Hall.
  assert (Hb : roadBounds modules = (0, 100))
    by (unfold roadBounds; rewrite (scanRoads_no_road _ Hall); reflexivity).
  split; [exact Hb |]. unfold throughPath. rewrite Hb. reflexivity.
Qed.
End BoundsExtras.

(** ** Modules.cpp and WorldGenerator.cpp *)

Section ModulesFacts.
Context `{Config} `{Raymath}.
Import Modules WorldGenerator.

(** The search returns the first attachment point close enough, and none
    only when there is none. *)
Lemma getAttachmentPointByNormal_first (aps : list AttachmentPoint) (normal : Vector2) :
  match getAttachmentPointByNormal aps normal with
  | Some ap =>
      exists i,
        aps !! i = Some ap
        /\ Vector2Distance (ap_normal ap) normal < 0.1
        /\ forall j ap', (j < i)%nat -> aps !! j = Some ap' ->
                         0.1 <= Vector2Distance (ap_normal ap') normal
  | None =>
      forall ap, ap ∈ aps -> 0.1 <= Vector2Distance (ap_normal ap) normal
  end.
Proof.
  induction aps as [| a aps IH]; simpl.
  - intros ap Hin. inversion Hin.
  - destruct (Qltb (Vector2Distance (ap_normal a) normal) 0.1) eqn:E.
    + exists 0%nat. apply Qltb_lt in E. split; [reflexivity |]. split; [exact E |].
      intros j ap' Hj. lia.
    + apply Qltb_ge in E.
      destruct (getAttachmentPointByNormal aps normal) as [ap |].
      * destruct IH as (i & Hl & Hd & Hfirst).
        exists (S i). split; [exact Hl |]. split; [exact Hd |].
        intros [| j] ap' Hj Hl'; simpl in Hl'.
        -- inversion Hl'; subst. exact E.
        -- apply (Hfirst j); [lia | exact Hl'].
      * intros ap Hin. apply elem_of_cons in Hin as [-> | Hin]; auto.
Qed.

(** The comparison of two concrete normals, settled by the three facts on
    [sqrtf]. *)
Ltac settle_normals H0 H2 H4 :=
  repeat match goal with
         | |- context [Qltb (Vector2Distance ?a ?b) ?c] =>
             let d := eval vm_compute in
                       ((vec_x a - vec_x b) * (vec_x a - vec_x b)
                        + (vec_y a - vec_y b) * (vec_y a - vec_y b)) in
             change (Vector2Distance a b) with (sqrtf d);
             first [ rewrite (proj2 (Qltb_lt _ _) H0)
                   | rewrite (proj2 (Qltb_ge _ _) H2)
                   | rewrite (proj2 (Qltb_ge _ _) H4) ]
         end.

(** The left and right attachment points of the four road classes. *)
Lemma road_ends (road : Built) :
  tellsNormalsApart ->
  road ∈ [newNormalRoad; newUpEntranceRoad; newDownEntranceRoad; newDoubleEntranceRoad] ->
  getAttachmentPointByNormal (attachmentPoints road) (mkVector2 (-1) 0)
  = Some (mkAttachmentPoint (mkVector2 0 (P2M 78)) (mkVector2 (-1) 0))
  /\ getAttachmentPointByNormal (attachmentPoints road) (mkVector2 1 0)
     = Some (mkAttachmentPoint (mkVector2 (getWidth (built_module road)) (P2M 78))
                               (mkVector2 1 0)).
Proof.
  intros (S0 & S2 & S4) Hroad.
  repeat (apply elem_of_cons in Hroad as [-> | Hroad]);
    [| | | | inversion Hroad];
    split; cbn -[Qltb Vector2Distance P2M]; settle_normals S0 S2 S4; reflexivity.
Qed.

(** The attachment point an entrance road offers a facility on the given
    side, and the road's own waypoint. *)
Lemma entrance_connector (isTop : bool) (road : Built) :
  tellsNormalsApart ->
  road ∈ (if isTop then [newUpEntranceRoad; newDoubleEntranceRoad]
          else [newDownEntranceRoad; newDoubleEntranceRoad]) ->
  getAttachmentPointByNormal (attachmentPoints road)
                             (mkVector2 0 (if isTop then - 1 else 1))
  = Some (mkAttachmentPoint
            (mkVector2 (P2M 142) (if isTop then 0 else getHeight (built_module road)))
            (mkVector2 0 (if isTop then - 1 else 1)))
  /\ localWaypoints (built_module road) = [Waypoint1 (mkVector2 (P2M 142) (P2M 78))]
  /\ parent (built_module road) = None.
Proof.
  intros (S0 & S2 & S4) Hroad.
  destruct isTop;
    repeat (apply elem_of_cons in Hroad as [-> | Hroad]);
    [| | inversion Hroad | | | inversion Hroad];
    (split; [| split; reflexivity]);
    cbn -[Qltb Vector2Distance P2M]; settle_normals S0 S2 S4; reflexivity.
Qed.

(** The one attachment point of a facility, on its bottom edge for a top
    facility and on its top edge for a bottom one; it is found with the
    normal opposite to the road's; the facility's own waypoint has the same
    x, at half the height. *)
Lemma facility_connector (type size : Z) (isTop : bool) :
  tellsNormalsApart ->
  exists ap,
    attachmentPoints (createFacility type size isTop) = [ap]
    /\ ap_normal ap = mkVector2 0 (if isTop then 1 else - 1)
    /\ vec_y (ap_position ap)
       = (if isTop then getHeight (built_module (createFacility type size isTop)) else 0)
    /\ getAttachmentPointByNormal
         (attachmentPoints (createFacility type size isTop))
         (Vector2Scale (mkVector2 0 (if isTop then - 1 else 1)) (- 1))
       = Some ap
    /\ localWaypoints (built_module (createFacility type size isTop))
       = [Waypoint1 (mkVector2 (vec_x (ap_position ap))
                               (getHeight (built_module (createFacility type size isTop)) / 2))]
    /\ parent (built_module (createFacility type size isTop)) = None.
Proof.
  intros (S0 & S2 & S4). unfold createFacility.
  destruct (type =? 0)%Z, (size =? 0)%Z, isTop;
    eexists; (split; [reflexivity |]); (split; [reflexivity |]);
    (split; [reflexivity |]); (split; [| split; reflexivity]);
    cbn -[Qltb Vector2Distance P2M]; settle_normals S0 S2 S4; reflexivity.
Qed.

(** Where [placeFac] puts a facility: at the road's position plus the
    road's junction attachment point minus the facility's attachment point,
    the expression of the lambda. *)
Lemma placeFac_form (type size : Z) (isTop : bool) (road : Built) (roadWorldPos : Vector2) :
  tellsNormalsApart ->
  road ∈ (if isTop then [newUpEntranceRoad; newDoubleEntranceRoad]
          else [newDownEntranceRoad; newDoubleEntranceRoad]) ->
  exists ap,
    attachmentPoints (createFacility type size isTop) = [ap]
    /\ ap_normal ap = mkVector2 0 (if isTop then 1 else - 1)
    /\ vec_y (ap_position ap)
       = (if isTop then getHeight (built_module (createFacility type size isTop)) else 0)
    /\ placeFac road (createFacility type size isTop) roadWorldPos
                (mkVector2 0 (if isTop then - 1 else 1))
       = Some (mkBuilt
                 (setWorldPosition
                    (Vector2Subtract
                       (Vector2Add roadWorldPos
                          (mkVector2 (P2M 142)
                                     (if isTop then 0 else getHeight (built_module road))))
                       (ap_position ap))
                    (setParent (Some (setWorldPosition roadWorldPos (built_module road)))
                               (built_module (createFacility type size isTop))))
                 (attachmentPoints (createFacility type size isTop)))
    /\ localWaypoints (built_module (createFacility type size isTop))
       = [Waypoint1 (mkVector2 (vec_x (ap_position ap))
                               (getHeight (built_module (createFacility type size isTop)) / 2))]
    /\ localWaypoints (built_module road) = [Waypoint1 (mkVector2 (P2M 142) (P2M 78))]
    /\ parent (built_module road) = None.
Proof.
  intros Hs Hroad.
  destruct (entrance_connector isTop road Hs Hroad) as (Er & Ewr & Epr).
  destruct (facility_connector type size isTop Hs) as (ap & Eap & En & Ey & Ef & Ewf & _).
  exists ap. unfold placeFac. rewrite Er, Ef. auto 10.
Qed.

Lemma placePaddingRoad_form (x y : Q) :
  tellsNormalsApart ->
  placePaddingRoad x y
  = (mkBuilt (setWorldPosition (mkVector2 (x - 0) (y - P2M 78)) (built_module newNormalRoad))
             (attachmentPoints newNormalRoad),
     x + getWidth (built_module newNormalRoad)).
Proof.
  intros Hs.
  destruct (road_ends newNormalRoad Hs) as [El Er]; [apply elem_of_cons; now left |].
  unfold placePaddingRoad. rewrite El, Er. reflexivity.
Qed.

(** X11. Padding roads tile the spine: a road placed at (x, y) is a
    NormalRoad whose left edge is at x and whose centre line (78 art pixels
    below its top) is at y; the x handed back is its right edge, so the next
    padding road starts exactly where this one ends, at the same height. *)
Theorem placePaddingRoad_tiles (x y : Q) :
  tellsNormalsApart ->
  isNormalRoad (built_module (fst (placePaddingRoad x y))) = true
  /\ vec_x (worldPosition (built_module (fst (placePaddingRoad x y)))) == x
  /\ vec_y (worldPosition (built_module (fst (placePaddingRoad x y)))) + P2M 78 == y
  /\ snd (placePaddingRoad x y)
     == vec_x (worldPosition (built_module (fst (placePaddingRoad x y))))
        + getWidth (built_module (fst (placePaddingRoad x y)))
  /\ vec_x (worldPosition
              (built_module (fst (placePaddingRoad (snd (placePaddingRoad x y)) y))))
     == snd (placePaddingRoad x y)
  /\ vec_y (worldPosition
              (built_module (fst (placePaddingRoad (snd (placePaddingRoad x y)) y))))
     == vec_y (worldPosition (built_module (fst (placePaddingRoad x y)))).
Proof.
  intros Hs. rewrite !(placePaddingRoad_form _ _ Hs).
  cbn -[P2M Qplus Qminus Qmult Qdiv].
  repeat split; try reflexivity; ring.
Qed.

(** X12. A facility created for the top (bottom) side and placed on an Up
    or Double (Down or Double) entrance road is placed (the lambda does not
    return early), is parented to that road at its final position, and keeps
    its kind.  The attachment points paired are the road's T-junction, at
    (P2M(142), 0) on the road's top edge or (P2M(142), height) on its bottom
    edge, and the facility's only attachment point, on the facility's bottom
    (top) edge: the facility's position is the road's position plus the
    junction minus that attachment point, as the lambda computes it. *)
Theorem placeFac_attached (type size : Z) (isTop : bool) (road : Built)
        (roadWorldPos : Vector2) :
  tellsNormalsApart ->
  road ∈ (if isTop then [newUpEntranceRoad; newDoubleEntranceRoad]
          else [newDownEntranceRoad; newDoubleEntranceRoad]) ->
  exists placed ap,
    placeFac road (createFacility type size isTop) roadWorldPos
             (mkVector2 0 (if isTop then - 1 else 1)) = Some placed
    /\ parent (built_module placed)
       = Some (setWorldPosition roadWorldPos (built_module road))
    /\ kind (built_module placed) = kind (built_module (createFacility type size isTop))
    /\ isUp (built_module placed) = isTop
    /\ attachmentPoints placed = [ap]
    /\ ap_normal ap = mkVector2 0 (if isTop then 1 else - 1)
    /\ vec_y (ap_position ap)
       = (if isTop then getHeight (built_module placed) else 0)
    /\ worldPosition (built_module placed)
       = Vector2Subtract
           (Vector2Add roadWorldPos
              (mkVector2 (P2M 142) (if isTop then 0 else getHeight (built_module road))))
           (ap_position ap).
Proof.
  intros Hs Hroad.
  destruct (placeFac_form type size isTop road roadWorldPos Hs Hroad)
    as (ap & Eap & En & Ey & Hplace & _).
  eexists. exists ap. split; [exact Hplace |].
  split; [reflexivity |]. split; [reflexivity |].
  split; [unfold createFacility;
          destruct (type =? 0)%Z, (size =? 0)%Z, isTop; reflexivity |].
  split; [exact Eap |]. split; [exact En |]. split; [exact Ey | reflexivity].
Qed.

Lemma getPath_unfold (m : Module_) :
  Modules.getPath m
  = match parent m with
    | Some p => Modules.getPath p
    | None => []
    end ++ getGlobalWaypoints m.
Proof. destruct m. reflexivity. Qed.

(** X13. The recursive path of a facility placed on an entrance road has
    two waypoints: the road's own, at the T-junction on the road's centre
    line, then the facility's own, at the x of the facility's attachment
    point and half the facility's height, both relative to the module's
    world position; both have tolerance 1 and do not stop. *)
Theorem placed_facility_getPath (type size : Z) (isTop : bool) (road : Built)
        (roadWorldPos : Vector2) :
  tellsNormalsApart ->
  road ∈ (if isTop then [newUpEntranceRoad; newDoubleEntranceRoad]
          else [newDownEntranceRoad; newDoubleEntranceRoad]) ->
  exists placed ap w_road w_fac,
    placeFac road (createFacility type size isTop) roadWorldPos
             (mkVector2 0 (if isTop then - 1 else 1)) = Some placed
    /\ attachmentPoints placed = [ap]
    /\ Modules.getPath (built_module placed) = [w_road; w_fac]
    /\ position w_road = Vector2Add roadWorldPos (mkVector2 (P2M 142) (P2M 78))
    /\ position w_fac
       = Vector2Add (worldPosition (built_module placed))
                    (mkVector2 (vec_x (ap_position ap))
                               (getHeight (built_module placed) / 2))
    /\ tolerance w_road = 1 /\ tolerance w_fac = 1
    /\ stopAtEnd w_road = false /\ stopAtEnd w_fac = false.
Proof.
  intros Hs Hroad.
  destruct (placeFac_form type size isTop road roadWorldPos Hs Hroad)
    as (ap & Eap & _ & _ & Hplace & Ewf & Ewr & Epr).
  eexists. exists ap. eexists. eexists. split; [exact Hplace |].
  split; [exact Eap |].
  split.
  { rewrite getPath_unfold. cbn [built_module parent setWorldPosition setParent].
    rewrite getPath_unfold. cbn [parent setWorldPosition]. rewrite Epr.
    unfold getGlobalWaypoints.
    cbn [localWaypoints worldPosition setWorldPosition setParent].
    rewrite Ewr, Ewf. reflexivity. }
  repeat split.
Qed.

(** X15. [getPath] lists the global waypoints of the ancestors from the
    root down to the module itself, and every waypoint it returns has the
    speed limit factor 1, whatever the local waypoints carry. *)
Theorem getPath_lineage (m : Module_) :
  Modules.getPath m = concat (getGlobalWaypoints <$> reverse (lineage m))
  /\ length (Modules.getPath m) = sum_list ((fun a => length (localWaypoints a)) <$> lineage m)
  /\ forall w, w ∈ Modules.getPath m -> speedLimitFactor w = 1.
Proof.
  assert (Hconcat : forall m,
             Modules.getPath m = concat (getGlobalWaypoints <$> reverse (lineage m))).
  { fix IH 1. intros [k w h wp lw ss [p |]]; simpl.
    - rewrite IH, reverse_cons, fmap_app, concat_app. simpl.
      now rewrite app_nil_r.
    - now rewrite app_nil_r. }
  assert (Hlen : forall m,
             length (Modules.getPath m)
             = sum_list ((fun a => length (localWaypoints a)) <$> lineage m)).
  { fix IH 1. intros [k w h wp lw ss [p |]]; simpl.
    - rewrite length_app, IH. unfold getGlobalWaypoints. rewrite length_fmap.
      cbn [localWaypoints]. apply Nat.add_comm.
    - unfold getGlobalWaypoints. rewrite length_fmap. cbn [localWaypoints].
      symmetry. apply Nat.add_0_r. }
  split; [apply Hconcat |]. split; [apply Hlen |].
  rewrite Hconcat. intros w Hw.
  apply list_elem_of_In, in_concat in Hw as (l & Hl & Hw).
  apply list_elem_of_In in Hl, Hw.
  apply list_elem_of_fmap in Hl as (a & -> & _).
  unfold getGlobalWaypoints in Hw.
  apply list_elem_of_fmap in Hw as (lwp & -> & _). reflexivity.
Qed.
End ModulesFacts.

(** ** More on the vehicle update of Car.cpp *)

Section CarExtras.
Context `{Raymath}.
Import CarEntity.

(** X16. A vehicle with an empty queue in a world of at least 100 x 100
    and at most 2^24 x 2^24 (so that width - 50 and height - 50 convert to
    float exactly) gets exactly one new waypoint, inside the world with the
    margin of 50 on every side, whatever the two draws and the trigonometry
    give; nothing else of the vehicle changes, and exactly the two draws are
    consumed. *)
Theorem refillWaypoints_in_world (c : Car) (rng : Rng) (w : World) :
  waypoints c = [] -> world c = Some w ->
  (100 <= world_width w <= 16777216)%Z -> (100 <= world_height w <= 16777216)%Z ->
  exists p,
    fst (refillWaypoints c rng) = addWaypoint p c
    /\ waypoints (fst (refillWaypoints c rng)) = [p]
    /\ 50 <= vec_x p /\ vec_x p <= inject_Z (world_width w) - 50
    /\ 50 <= vec_y p /\ vec_y p <= inject_Z (world_height w) - 50
    /\ snd (refillWaypoints c rng)
       = snd (GetRandomValue 0 360 (snd (GetRandomValue 300 500 rng))).
Proof.
  intros Hq Hw Hwidth Hheight. unfold refillWaypoints. rewrite Hq, Hw.
  destruct (GetRandomValue 300 500 rng) as [d rng1]. simpl snd.
  destruct (GetRandomValue 0 360 rng1) as [a rng2]. simpl snd.
  generalize (Vector2Add (position c)
                (mkVector2 (cosf (inject_Z a * DEG2RAD) * inject_Z d)
                           (sinf (inject_Z a * DEG2RAD) * inject_Z d))).
  intros next.
  assert (Ew : inject_Z (world_width w - 50) == inject_Z (world_width w) - 50)
    by (unfold Zminus; rewrite inject_Z_plus, inject_Z_opp; reflexivity).
  assert (Eh : inject_Z (world_height w - 50) == inject_Z (world_height w) - 50)
    by (unfold Zminus; rewrite inject_Z_plus, inject_Z_opp; reflexivity).
  assert (Bw : 50 <= inject_Z (world_width w - 50))
    by (change 50 with (inject_Z 50); rewrite <- Zle_Qle; lia).
  assert (Bh : 50 <= inject_Z (world_height w - 50))
    by (change 50 with (inject_Z 50); rewrite <- Zle_Qle; lia).
  eexists. split; [reflexivity |]. unfold addWaypoint. rewrite Hq.
  split; [reflexivity |].
  cbn [vec_x vec_y fst].
  destruct (Qltb (vec_x next) 50) eqn:E1; destruct (Qltb (vec_y next) 50) eqn:E2;
    repeat match goal with
           | |- context [Qltb ?a ?b] => destruct (Qltb a b) eqn:?
           end;
    repeat match goal with
           | E : Qltb _ _ = true |- _ => apply Qltb_lt in E
           | E : Qltb _ _ = false |- _ => apply Qltb_ge in E
           end;
    repeat split; try reflexivity; lra.
Qed.

Lemma avoid_far (other c : Car) :
  70 <= Vector2Distance (position c) (position other) -> avoid other c = c.
Proof.
  intros Hfar. unfold avoid. apply Qltb_ge in Hfar. now rewrite Hfar.
Qed.

Lemma avoidAll_far (self i : nat) (cars : list Car) (c : Car) :
  (forall j other, cars !! j = Some other -> (i + j)%nat <> self ->
                   70 <= Vector2Distance (position c) (position other)) ->
  avoidAll self i cars c = c.
Proof.
  revert i. induction cars as [| other cars IH]; intros i Hfar; simpl; [reflexivity |].
  destruct (i =? self)%nat eqn:E.
  - apply IH. intros j o Hj Hne. apply (Hfar (S j)); [exact Hj | lia].
  - apply Nat.eqb_neq in E. rewrite avoid_far.
    + apply IH. intros j o Hj Hne. apply (Hfar (S j)); [exact Hj | lia].
    + apply (Hfar 0%nat); [reflexivity | lia].
Qed.

Lemma followWaypoints_position (c : Car) : position (followWaypoints c) = position c.
Proof.
  unfold followWaypoints. destruct (waypoints c) as [| target rest]; [reflexivity |].
  destruct (Qltb _ 50); reflexivity.
Qed.

Lemma refillWaypoints_position (c : Car) (rng : Rng) :
  position (fst (refillWaypoints c rng)) = position c.
Proof.
  unfold refillWaypoints. destruct (waypoints c); [| reflexivity].
  destruct (world c); [| reflexivity].
  destruct (GetRandomValue 300 500 rng) as [d rng1].
  destruct (GetRandomValue 0 360 rng1) as [a rng2]. reflexivity.
Qed.

(** X17. A vehicle with no other vehicle closer than 70 is updated as if
    it were alone: with every other entry of the vector at distance 70 or
    more, updateWithNeighbors gives what [update] (no vector) gives. *)
Theorem updateWithNeighbors_alone (dt : Q) (cars : list Car) (self : nat) (c : Car)
        (rng : Rng) :
  (forall j other, cars !! j = Some other -> j <> self ->
                   70 <= Vector2Distance (position c) (position other)) ->
  updateWithNeighbors dt (Some cars) self c rng = update dt c rng.
Proof.
  intros Hfar. unfold update, updateWithNeighbors.
  pose proof (refillWaypoints_position c rng) as Hpos.
  destruct (refillWaypoints c rng) as [c1 rng1]. simpl in Hpos.
  rewrite avoidAll_far; [reflexivity |].
  intros j other Hj Hne. rewrite followWaypoints_position, Hpos.
  apply (Hfar j); [exact Hj | exact Hne].
Qed.
End CarExtras.

(** ** GameScene.cpp *)

Section GameSceneFacts.
Context `{Raymath}.

(** X18. Whatever keys are down and whatever the wheel reports, after
    handleInput the zoom lies in [0.1, 3] and, in a world of non-negative
    size, the camera target lies inside the world; offset and rotation are
    not touched. *)
Theorem handleInput_clamped (dt wheel : Q) (sc : GameScene.Scene) :
  (0 <= CarEntity.world_width (GameScene.world sc))%Z ->
  (0 <= CarEntity.world_height (GameScene.world sc))%Z ->
  0.1 <= GameScene.cam_zoom (GameScene.handleInput dt wheel sc)
  /\ GameScene.cam_zoom (GameScene.handleInput dt wheel sc) <= 3
  /\ 0 <= vec_x (GameScene.cam_target (GameScene.handleInput dt wheel sc))
  /\ vec_x (GameScene.cam_target (GameScene.handleInput dt wheel sc))
     <= inject_Z (CarEntity.world_width (GameScene.world sc))
  /\ 0 <= vec_y (GameScene.cam_target (GameScene.handleInput dt wheel sc))
  /\ vec_y (GameScene.cam_target (GameScene.handleInput dt wheel sc))
     <= inject_Z (CarEntity.world_height (GameScene.world sc))
  /\ GameScene.cam_offset (GameScene.handleInput dt wheel sc)
     = GameScene.cam_offset (GameScene.camera sc)
  /\ GameScene.cam_rotation (GameScene.handleInput dt wheel sc)
     = GameScene.cam_rotation (GameScene.camera sc).
Proof.
  intros Hw Hh.
  assert (Bw : 0 <= inject_Z (CarEntity.world_width (GameScene.world sc)))
    by (change 0 with (inject_Z 0); rewrite <- Zle_Qle; exact Hw).
  assert (Bh : 0 <= inject_Z (CarEntity.world_height (GameScene.world sc)))
    by (change 0 with (inject_Z 0); rewrite <- Zle_Qle; exact Hh).
  unfold GameScene.handleInput, GameScene.setZoom, GameScene.setTarget.
  cbn [GameScene.cam_zoom GameScene.cam_target GameScene.cam_offset
       GameScene.cam_rotation vec_x vec_y].
  generalize dependent (inject_Z (CarEntity.world_width (GameScene.world sc))).
  generalize dependent (inject_Z (CarEntity.world_height (GameScene.world sc))).
  intros h Bh w Bw.
  repeat match goal with
         | |- context [GameScene.contains ?k ?key] => destruct (GameScene.contains k key)
         end;
    destruct (Qeq_bool wheel 0);
    repeat match goal with
           | |- context [Qltb ?a ?b] =>
               lazymatch a with context [Qltb _ _] => fail | _ => idtac end;
               lazymatch b with context [Qltb _ _] => fail | _ => idtac end;
               destruct (Qltb a b) eqn:?
           end;
    repeat match goal with
           | E : Qltb _ _ = true |- _ => apply Qltb_lt in E
           | E : Qltb _ _ = false |- _ => apply Qltb_ge in E
           end;
    repeat split; try reflexivity; lra.
Qed.

Lemma updateCarsFrom_length (n i : nat) (dt : Q) (cars : list CarEntity.Car) (rng : Rng) :
  length (fst (GameScene.updateCarsFrom n i dt cars rng)) = length cars.
Proof.
  revert i cars rng. induction n as [| n IH]; intros i cars rng; simpl; [reflexivity |].
  destruct (cars !! i) as [car |]; [| reflexivity].
  destruct (CarEntity.updateWithNeighbors dt (Some cars) i car rng) as [car' rng'].
  rewrite IH. apply length_insert.
Qed.

Lemma updateWithNeighbors_tape (dt : Q) (cars : option (list CarEntity.Car)) (self : nat)
      (c : CarEntity.Car) (rng : Rng) :
  CarEntity.waypoints c <> [] ->
  snd (CarEntity.updateWithNeighbors dt cars self c rng) = rng.
Proof.
  intros Hq. unfold CarEntity.updateWithNeighbors.
  rewrite (refillWaypoints_nonempty c rng Hq). reflexivity.
Qed.

Lemma updateCarsFrom_tape (n i : nat) (dt : Q) (cars : list CarEntity.Car) (rng : Rng) :
  (forall j c, (i <= j)%nat -> cars !! j = Some c -> CarEntity.waypoints c <> []) ->
  snd (GameScene.updateCarsFrom n i dt cars rng) = rng.
Proof.
  revert i cars rng. induction n as [| n IH]; intros i cars rng Hall; simpl; [reflexivity |].
  destruct (cars !! i) as [car |] eqn:Ei; [| reflexivity].
  pose proof (updateWithNeighbors_tape dt (Some cars) i car rng (Hall i car (le_n i) Ei))
    as Htape.
  destruct (CarEntity.updateWithNeighbors dt (Some cars) i car rng) as [car' rng'].
  simpl in Htape. subst rng'.
  apply IH. intros j c Hj Hl.
  rewrite list_lookup_insert_ne in Hl by lia.
  apply (Hall j c); [lia | exact Hl].
Qed.

(** X19. The scene update handles the camera input whether or not the
    game is paused.  Paused, it changes no vehicle and draws no random
    value.  Running, it keeps the number of vehicles, and it draws no random
    value when every vehicle still has a waypoint. *)
Theorem update_scene (dt wheel : Q) (sc : GameScene.Scene) (rng : Rng) :
  GameScene.camera (fst (GameScene.update dt wheel sc rng))
  = GameScene.handleInput dt wheel sc
  /\ length (GameScene.cars (fst (GameScene.update dt wheel sc rng)))
     = length (GameScene.cars sc)
  /\ (GameScene.isPaused sc = true ->
      GameScene.cars (fst (GameScene.update dt wheel sc rng)) = GameScene.cars sc
      /\ snd (GameScene.update dt wheel sc rng) = rng)
  /\ ((forall c, c ∈ GameScene.cars sc -> CarEntity.waypoints c <> []) ->
      snd (GameScene.update dt wheel sc rng) = rng).
Proof.
  unfold GameScene.update.
  pose proof (updateCarsFrom_length (length (GameScene.cars sc)) 0 dt
                (GameScene.cars sc) rng) as Hlen.
  pose proof (updateCarsFrom_tape (length (GameScene.cars sc)) 0 dt
                (GameScene.cars sc) rng) as Htape.
  destruct (GameScene.isPaused sc) eqn:Ep.
  - simpl. auto.
  - destruct (GameScene.updateCarsFrom _ 0 dt (GameScene.cars sc) rng) as [cars' rng'].
    simpl in *. split; [reflexivity |]. split; [exact Hlen |].
    split; [discriminate |].
    intros Hall. apply Htape. intros j c _ Hl. apply Hall.
    apply list_elem_of_lookup. eauto.
Qed.
End GameSceneFacts.

(** ** The properties above on concrete inputs *)

Section ExtraWitnesses.
Import Examples Scenarios TrafficSystem SpawnRequest.

Lemma onSpawnCarRequest_no_road_witness :
  onSpawnCarRequest [entrance; nearParking FREE] [1; 0; 1]%Z = (None, [1; 0; 1]%Z).
Proof.
  apply onSpawnCarRequest_no_road.
  intros m Hm.
  repeat (apply elem_of_cons in Hm as [-> | Hm]); try reflexivity.
  inversion Hm.
Defined.

Lemma onSpawnCarRequest_spawn_witness :
  exists ev,
    fst (onSpawnCarRequest townOpen [0; 1; 0]%Z) = Some ev
    /\ cc_enteredFromLeft ev = true.
Proof.
  destruct (onSpawnCarRequest_spawn townOpen [0; 1; 0]%Z roadLeft)
    as (ev & road & Hev & _ & _ & Hside & _).
  - apply elem_of_cons. left. reflexivity.
  - reflexivity.
  - reflexivity.
  - reflexivity.
  - exists ev. split; [exact Hev |]. rewrite Hside. reflexivity.
Defined.

Lemma onSpawnCarRequest_lane_witness :
  PathPlanner.chooseLane (carOf COMBUSTION PRIORITY_PRICE DRIVING) = DOWN
  <-> cc_enteredFromLeft spawnedLeft = true.
Proof.
  destruct (onSpawnCarRequest_lane townOpen [0; 1; 0]%Z spawnedLeft
              (carOf COMBUSTION PRIORITY_PRICE DRIVING)) as [Hlane _].
  - reflexivity.
  - reflexivity.
  - exact Hlane.
Defined.

Lemma onCarSpawned_facility_kind_witness :
  exists m, townOpen !! 1%nat = Some m /\ isParking m = true.
Proof.
  destruct (onCarSpawned_facility_kind
              0 (mkStore townOpen []) (carOf COMBUSTION PRIORITY_DISTANCE DRIVING) []
              (mkSpotWrite 0 1 0 RESERVED))
    as (m & Hm & _ & _ & Hpark & _).
  - change (mkSpotWrite 0 1 0 RESERVED ∈ [mkSpotWrite 0 1 0 RESERVED]).
    apply elem_of_cons. left. reflexivity.
  - intros Hin. inversion Hin.
  - exists m. split; [exact Hm |]. apply Hpark. reflexivity.
Defined.

Lemma decideSeekCharging_monotone_witness :
  fst (decideSeekCharging (electricAt 40) [80%Z]) = true.
Proof.
  apply (decideSeekCharging_monotone (electricAt 40) (electricAt 60) [80%Z]).
  - reflexivity.
  - reflexivity.
  - reflexivity.
  - unfold Qle. simpl. lia.
  - reflexivity.
Defined.

Lemma decideSeekCharging_band_ends_witness :
  fst (decideSeekCharging (electricAt 30) [5%Z]) = true
  /\ fst (decideSeekCharging (electricAt 70) [99%Z]) = false.
Proof.
  split.
  - apply (decideSeekCharging_band_ends (electricAt 30) [5%Z]); reflexivity.
  - destruct (decideSeekCharging_band_ends (electricAt 70) [99%Z]) as [_ Hhigh];
      [reflexivity | reflexivity |].
    rewrite Hhigh; reflexivity.
Defined.

Lemma onGameUpdate_no_parked_witness :
  snd (fst (onGameUpdate (1 # 60) (mkStore townOpen [])
                         [carOf COMBUSTION PRIORITY_PRICE DRIVING; arrived] []))
  = [carOf COMBUSTION PRIORITY_PRICE DRIVING].
Proof.
  destruct (onGameUpdate_no_parked
              (1 # 60) (mkStore townOpen [])
              [carOf COMBUSTION PRIORITY_PRICE DRIVING; arrived] []) as [Hcars _].
  - intros car Hcar.
    repeat (apply elem_of_cons in Hcar as [-> | Hcar]); try discriminate.
    inversion Hcar.
  - rewrite Hcars. reflexivity.
Defined.

Lemma onSpawnCarRequest_at_bounds_witness :
  vec_x (cc_position spawnedLeft) = fst (roadBounds townOpen).
Proof.
  destruct (onSpawnCarRequest_at_bounds townOpen [0; 1; 0]%Z spawnedLeft
              (carOf COMBUSTION PRIORITY_PRICE DRIVING)) as [Hleft _].
  - reflexivity.
  - intros m Hm Hroad.
    repeat (apply elem_of_cons in Hm as [-> | Hm]); try discriminate Hroad;
      [| | inversion Hm];
      split; vm_compute; discriminate.
  - apply Hleft. reflexivity.
Defined.

Lemma throughPath_no_road_witness :
  roadBounds [entrance; nearParking OCCUPIED] = (0, 100).
Proof.
  destruct (throughPath_no_road [entrance; nearParking OCCUPIED]
              (carOf COMBUSTION PRIORITY_PRICE DRIVING)) as [Hb _].
  - intros m Hm.
    repeat (apply elem_of_cons in Hm as [-> | Hm]); try reflexivity.
    inversion Hm.
  - exact Hb.
Defined.

Lemma tickCar_parked_without_facility_witness :
  tickCar (0, 100) (1 # 60) 0 (mkStore townOpen []) stray []
  = mkTicked (mkStore townOpen []) (setState DRIVING stray) [] false.
Proof.
  apply tickCar_parked_without_facility; reflexivity.
Defined.
End ExtraWitnesses.

Section GeometryWitnesses.
Import Examples Scenarios Modules WorldGenerator.

(** The square root of the examples tells the axis normals apart. *)
Lemma exactSqrt_tellsNormalsApart : tellsNormalsApart.
Proof.
  unfold tellsNormalsApart. split; [reflexivity |]. split; vm_compute; discriminate.
Qed.

Lemma placePaddingRoad_tiles_witness :
  vec_x (worldPosition (built_module (fst (placePaddingRoad 10 50)))) == 10
  /\ snd (placePaddingRoad 10 50) == 10 + 283 / 7.
Proof.
  destruct (placePaddingRoad_tiles 10 50 exactSqrt_tellsNormalsApart)
    as (_ & Hx & _ & Hnext & _).
  split; [exact Hx |]. rewrite Hnext. vm_compute. reflexivity.
Defined.

Lemma placeFac_attached_witness :
  exists placed,
    placeFac newUpEntranceRoad (createFacility 0 0 true) (mkVector2 100 50)
             (mkVector2 0 (- 1)) = Some placed
    /\ isUp (built_module placed) = true
    /\ worldPosition (built_module placed)
       = Vector2Subtract (Vector2Add (mkVector2 100 50) (mkVector2 (P2M 142) 0))
                         (mkVector2 (P2M 218) (P2M 330)).
Proof.
  destruct (placeFac_attached 0 0 true newUpEntranceRoad (mkVector2 100 50)
              exactSqrt_tellsNormalsApart)
    as (placed & ap & Hplace & _ & _ & Hup & Hap & _ & _ & Hpos).
  - apply elem_of_cons. left. reflexivity.
  - exists placed. split; [exact Hplace |]. split; [exact Hup |].
    rewrite Hpos.
    assert (E : attachmentPoints placed
                = [mkAttachmentPoint (mkVector2 (P2M 218) (P2M 330)) (mkVector2 0 1)])
      by (inversion Hplace; reflexivity).
    rewrite E in Hap. inversion Hap. reflexivity.
Defined.

Lemma placed_facility_getPath_witness :
  exists placed w_road w_fac,
    placeFac newDoubleEntranceRoad (createFacility 1 0 false) (mkVector2 100 50)
             (mkVector2 0 1) = Some placed
    /\ Modules.getPath (built_module placed) = [w_road; w_fac]
    /\ position w_road = Vector2Add (mkVector2 100 50) (mkVector2 (P2M 142) (P2M 78)).
Proof.
  destruct (placed_facility_getPath 1 0 false newDoubleEntranceRoad (mkVector2 100 50)
              exactSqrt_tellsNormalsApart)
    as (placed & ap & w_road & w_fac & Hplace & _ & Hpath & Hroad & _).
  - apply elem_of_cons. right. apply elem_of_cons. left. reflexivity.
  - exists placed, w_road, w_fac. auto.
Defined.

Lemma refillWaypoints_in_world_witness :
  exists p,
    CarEntity.waypoints (fst (CarEntity.refillWaypoints wanderer [0; 0]%Z)) = [p]
    /\ 50 <= vec_x p /\ vec_x p <= 3000 - 50.
Proof.
  destruct (refillWaypoints_in_world wanderer [0; 0]%Z (CarEntity.mkWorld 3000 3000))
    as (p & _ & Hq & Hlo & Hhi & _).
  - reflexivity.
  - reflexivity.
  - simpl. lia.
  - simpl. lia.
  - exists p. split; [exact Hq |]. split; [exact Hlo | exact Hhi].
Defined.

Lemma updateWithNeighbors_alone_witness :
  CarEntity.updateWithNeighbors (1 # 60) (Some [wanderer; distant]) 0 wanderer [0; 0]%Z
  = CarEntity.update (1 # 60) wanderer [0; 0]%Z.
Proof.
  apply updateWithNeighbors_alone.
  intros [| [| j]] other Hl Hne; simpl in Hl.
  - contradiction.
  - inversion Hl; subst other. vm_compute. discriminate.
  - discriminate.
Defined.

Lemma handleInput_clamped_witness :
  0.1 <= GameScene.cam_zoom (GameScene.handleInput 1 0 scene)
  /\ 0 <= vec_y (GameScene.cam_target (GameScene.handleInput 1 0 scene)).
Proof.
  destruct (handleInput_clamped 1 0 scene) as (Hz & _ & _ & _ & Hy & _).
  - simpl. lia.
  - simpl. lia.
  - split; [exact Hz | exact Hy].
Defined.
End GeometryWitnesses.

(** ** The vehicles of GameScene::load *)

Section LoadFacts.

Lemma spawnCars_spec (n : nat) (w : CarEntity.World) (cars : list CarEntity.Car) (rng : Rng) :
  (100 <= CarEntity.world_width w)%Z -> (100 <= CarEntity.world_height w)%Z ->
  exists new,
    fst (GameScene.spawnCars n w cars rng) = cars ++ new
    /\ length new = n
    /\ forall c, c ∈ new ->
         exists x y : Z,
           c = CarEntity.newCar (mkVector2 (inject_Z x) (inject_Z y)) (Some w)
           /\ (50 <= x <= CarEntity.world_width w - 50)%Z
           /\ (50 <= y <= CarEntity.world_height w - 50)%Z.
Proof.
  intros Hw Hh. revert cars rng.
  induction n as [| n IH]; intros cars rng; simpl.
  - exists []. split; [now rewrite app_nil_r |]. split; [reflexivity |].
    intros c Hc. inversion Hc.
  - pose proof (GetRandomValue_range 50 (CarEntity.world_width w - 50) rng ltac:(lia)) as Hx.
    destruct (GetRandomValue 50 (CarEntity.world_width w - 50) rng) as [x rng1].
    pose proof (GetRandomValue_range 50 (CarEntity.world_height w - 50) rng1 ltac:(lia))
      as Hy.
    destruct (GetRandomValue 50 (CarEntity.world_height w - 50) rng1) as [y rng2].
    simpl in Hx, Hy.
    destruct (IH (cars ++ [CarEntity.newCar (mkVector2 (inject_Z x) (inject_Z y)) (Some w)])
                 rng2) as (new & Hnew & Hlen & Hall).
    exists (CarEntity.newCar (mkVector2 (inject_Z x) (inject_Z y)) (Some w) :: new).
    split; [rewrite Hnew, <- app_assoc; reflexivity |].
    split; [simpl; now rewrite Hlen |].
    intros c Hc. apply elem_of_cons in Hc as [-> | Hc]; [exists x, y; auto | auto].
Qed.

(** X21. GameScene::load creates ten vehicles in a world of 3000 x 3000,
    each at integer coordinates inside the world with a margin of 50 on
    every side, at rest, without waypoint and bound to that world, whatever
    the random draws. *)
Theorem loadCars_inside (rng : Rng) :
  fst (fst (GameScene.loadCars rng)) = CarEntity.mkWorld 3000 3000
  /\ length (snd (fst (GameScene.loadCars rng))) = 10%nat
  /\ forall c, c ∈ snd (fst (GameScene.loadCars rng)) ->
       50 <= vec_x (CarEntity.position c) /\ vec_x (CarEntity.position c) <= 2950
       /\ 50 <= vec_y (CarEntity.position c) /\ vec_y (CarEntity.position c) <= 2950
       /\ CarEntity.velocity c = mkVector2 0 0
       /\ CarEntity.waypoints c = []
       /\ CarEntity.world c = Some (CarEntity.mkWorld 3000 3000).
Proof.
  unfold GameScene.loadCars.
  destruct (spawnCars_spec 10 (CarEntity.mkWorld 3000 3000) [] rng)
    as (new & Hnew & Hlen & Hall); [simpl; lia | simpl; lia |].
  destruct (GameScene.spawnCars 10 (CarEntity.mkWorld 3000 3000) [] rng) as [cars rng'].
  simpl in Hnew. subst cars. simpl.
  split; [reflexivity |]. split; [exact Hlen |].
  intros c Hc. destruct (Hall c Hc) as (x & y & -> & Hx & Hy). simpl in Hx, Hy. simpl.
  assert (Q50 : forall z : Z, (50 <= z)%Z -> 50 <= inject_Z z)
    by (intros z Hz; change 50 with (inject_Z 50); now rewrite <- Zle_Qle).
  assert (Q2950 : forall z : Z, (z <= 2950)%Z -> inject_Z z <= 2950)
    by (intros z Hz; change 2950 with (inject_Z 2950); now rewrite <- Zle_Qle).
  repeat split; try reflexivity; try apply Q50; try apply Q2950; lia.
Qed.
End LoadFacts.
